(** * The valuation-to-revenue pipeline of [frontend/app.jsx]

    A shallow embedding of the numeric pipeline of the dashboard.  The
    source holds two variants of the page, and both are embedded:
    - first variant: [movingAverage], [tidyPanelJS],
      [computeAvgLogPsByYear], the [series] memo with [makeAligned], and
      the [scenario] memo; further the readers [parseCsv] and
      [loadCsvAsObjects], the statistics of [MetaStats], the memos
      [filteredIndices], [smoothed], [allLabels] and [alignedData], the
      data of [uploadDatasets], and the handlers of [DataControls] with
      [reset] and [addUpload];
    - second variant: [parseNumber], [tidyPanel], [groupMeanByYear] and
      the alignment inside [averagePlot]; further [parseCsvRows],
      [safeLog], [medianLog], [medianBars], [boxPlotData] and
      [scatterData].
    What is left out draws or fetches: the chart builders, the markup,
    and the readers of the Excel files.

    Modelling conventions.
    - A JavaScript string is a [string]: each [ascii] is one code unit in
      the range 0..255.  A cell of a panel is text, or [None] when the
      cell is missing ([undefined]).
    - Cell text denotes an exact decimal, so the tidy stage computes in
      [Q]; [Number(text)] is a [JSNumber] (NaN, an infinity or a finite
      rational).  Rounding to the nearest binary64 value is not modelled.
    - The analytic stages ([Math.log], [Math.exp], means, [toFixed])
      compute in [R]: a JavaScript number is read as the real number it
      stands for, and [null]/[undefined] as [None].
    - Years and the smoothing window are integers ([Z]).
    - A [Map] is an association list in insertion order ([JSMap]); an
      array is a [list]; a call that would throw a TypeError returns
      [None] in [Throws].
    - A loop is a [Fixpoint] on fuel; each comes with a lemma showing that
      the fuel it is given is enough. *)

From Stdlib Require Import List ZArith QArith Qreduction Bool Ascii String Lia.
From Stdlib Require Import DecimalString Sorted Permutation.
From Stdlib Require DecimalPos.
From Stdlib Require Import Reals Zfloor Lra.
Import ListNotations.

(* ================================================================== *)
(** * JavaScript strings *)

Module JSString.

Definition code (c : ascii) : N := N_of_ascii c.

(** WhiteSpace and LineTerminator code units below 256: TAB, LF, VT, FF,
    CR, SP and NBSP. *)
Definition is_space (c : ascii) : bool :=
  let n := code c in
  ((9 <=? n) && (n <=? 13) || (n =? 32) || (n =? 160))%N.

Fixpoint trimStart (s : string) : string :=
  match s with
  | EmptyString => EmptyString
  | String c r => if is_space c then trimStart r else s
  end.

(** [trimEnd] drops a trailing run of white space: a character is kept
    when it is not white space or when something is kept after it. *)
Fixpoint trimEnd (s : string) : string :=
  match s with
  | EmptyString => EmptyString
  | String c r =>
      match trimEnd r with
      | EmptyString => if is_space c then EmptyString else String c EmptyString
      | r' => String c r'
      end
  end.

(** [s.trim()] *)
Definition trim (s : string) : string := trimEnd (trimStart s).

(** [s.replace(/c/g, '')]: every occurrence of the character is removed. *)
Fixpoint removeAll (c : ascii) (s : string) : string :=
  match s with
  | EmptyString => EmptyString
  | String d r => if Ascii.eqb d c then removeAll c r else String d (removeAll c r)
  end.

(** Lower-casing of one code unit: A-Z, and the Latin-1 capitals
    U+00C0..U+00DE except the multiplication sign U+00D7. *)
Definition lower (c : ascii) : ascii :=
  let n := code c in
  if ((65 <=? n) && (n <=? 90)
      || (192 <=? n) && (n <=? 222) && negb (n =? 215))%N
  then ascii_of_N (n + 32) else c.

(** [s.toLowerCase()] *)
Fixpoint toLowerCase (s : string) : string :=
  match s with
  | EmptyString => EmptyString
  | String c r => String (lower c) (toLowerCase r)
  end.

Definition comma : ascii := Ascii.ascii_of_nat 44.
Definition dquote : ascii := Ascii.ascii_of_nat 34.

(** [String(y)] for an integer [y]: its decimal numeral, with a leading
    minus sign when negative. *)
Definition ofInt (y : Z) : string := NilZero.string_of_int (Z.to_int y).

(** Truthiness of an optional string: [undefined] and the empty string
    are falsy. *)
Definition truthy (v : option string) : option string :=
  match v with
  | Some EmptyString | None => None
  | Some s => Some s
  end.

End JSString.

(* ================================================================== *)
(** * JavaScript numbers read from text *)

Inductive JSNumber : Type :=
| NaN
| Infinity (negative : bool)
| Fin (q : Q).

Module StringToNumber.
Import JSString.

Definition is_digit (c : ascii) : bool :=
  let n := code c in ((48 <=? n) && (n <=? 57))%N.

(** Value of a digit in base 16 (also used for bases 2, 8 and 10). *)
Definition hex_val (c : ascii) : option N :=
  let n := code c in
  if ((48 <=? n) && (n <=? 57))%N then Some (n - 48)%N
  else if ((97 <=? n) && (n <=? 102))%N then Some (n - 87)%N
  else if ((65 <=? n) && (n <=? 70))%N then Some (n - 55)%N
  else None.

(** The digits of [s] in the given base, most significant first; [None]
    when [s] is empty or holds a character that is no digit of the base. *)
Fixpoint digits_acc (base : N) (s : string) (acc : N) : option N :=
  match s with
  | EmptyString => Some acc
  | String c r =>
      match hex_val c with
      | Some d => if (d <? base)%N then digits_acc base r (acc * base + d)%N else None
      | None => None
      end
  end.

Definition digits (base : N) (s : string) : option N :=
  match s with
  | EmptyString => None
  | _ => digits_acc base s 0%N
  end.

(** Longest prefix of decimal digits, and the rest. *)
Fixpoint span_digits (s : string) : string * string :=
  match s with
  | EmptyString => (EmptyString, EmptyString)
  | String c r =>
      if is_digit c
      then let '(d, rest) := span_digits r in (String c d, rest)
      else (EmptyString, s)
  end.

(** SignedInteger of an ExponentPart. *)
Definition signed_integer (s : string) : option Z :=
  match s with
  | String "+" r => option_map Z.of_N (digits 10 r)
  | String "-" r => option_map (fun n => (- Z.of_N n)%Z) (digits 10 r)
  | _ => option_map Z.of_N (digits 10 s)
  end.

(** ExponentPart_opt at the end of a literal. *)
Definition exponent_part (s : string) : option Z :=
  match s with
  | EmptyString => Some 0%Z
  | String "e" r | String "E" r => signed_integer r
  | _ => None
  end.

(** [m * 10^e] as a reduced fraction. *)
Definition scale10 (m : N) (e : Z) : Q :=
  if (0 <=? e)%Z
  then inject_Z (Z.of_N m * 10 ^ e)
  else Qred (Z.of_N m # Z.to_pos (10 ^ (- e))).

(** StrUnsignedDecimalLiteral without [Infinity]:
    digits [.] digits_opt exp_opt, [.] digits exp_opt, digits exp_opt. *)
Definition unsigned_decimal (s : string) : option Q :=
  let '(ip, r1) := span_digits s in
  let '(fp, r2) :=
    match r1 with
    | String "." r => span_digits r
    | _ => (EmptyString, r1)
    end in
  match (ip ++ fp)%string with
  | EmptyString => None
  | ds =>
      match digits_acc 10 ds 0%N, exponent_part r2 with
      | Some m, Some e => Some (scale10 m (e - Z.of_nat (String.length fp)))
      | _, _ => None
      end
  end.

Definition unsigned_literal (s : string) : JSNumber :=
  if String.eqb s "Infinity" then Infinity false
  else match unsigned_decimal s with
       | Some q => Fin q
       | None => NaN
       end.

Definition negate (n : JSNumber) : JSNumber :=
  match n with
  | NaN => NaN
  | Infinity b => Infinity (negb b)
  | Fin q => Fin (Qopp q)
  end.

Definition of_digits (o : option N) : JSNumber :=
  match o with
  | Some n => Fin (inject_Z (Z.of_N n))
  | None => NaN
  end.

(** StrNumericLiteral: a binary, octal or hexadecimal integer literal
    (unsigned), or an optionally signed decimal literal. *)
Definition numeric_literal (s : string) : JSNumber :=
  match s with
  | String "0" (String "x" r) | String "0" (String "X" r) => of_digits (digits 16 r)
  | String "0" (String "o" r) | String "0" (String "O" r) => of_digits (digits 8 r)
  | String "0" (String "b" r) | String "0" (String "B" r) => of_digits (digits 2 r)
  | String "+" r => unsigned_literal r
  | String "-" r => negate (unsigned_literal r)
  | _ => unsigned_literal s
  end.

(** [Number(s)] for a string [s]: white space around the literal is
    ignored, and the empty literal is 0.  The value is the exact rational
    the literal denotes: the code rounds it to binary64, which changes an
    integer above 2^53, gives an infinity from about 1.8e308 on and 0
    below about 5e-324. *)
Definition ofString (s : string) : JSNumber :=
  match trim s with
  | EmptyString => Fin 0
  | t => numeric_literal t
  end.

(** [Number(v)] for a cell that may be [undefined]. *)
Definition ofCell (v : option string) : JSNumber :=
  match v with
  | None => NaN
  | Some s => ofString s
  end.

(** [Number.isFinite(n) ? n : null] *)
Definition finite (n : JSNumber) : option Q :=
  match n with
  | Fin q => Some q
  | _ => None
  end.

(** [n || null]: NaN and zero are falsy. *)
Definition orNull (n : JSNumber) : option JSNumber :=
  match n with
  | NaN => None
  | Fin q => if (Qnum q =? 0)%Z then None else Some n
  | Infinity _ => Some n
  end.

End StringToNumber.

(* ================================================================== *)
(** * Panel tidier *)

(** [parseNumber(value)], second variant of the page. *)
Definition parseNumber (value : option string) : option Q :=
  match value with
  | None => None
  | Some v =>
      let clean :=
        JSString.trim (JSString.removeAll JSString.dquote
                         (JSString.removeAll JSString.comma v)) in
      match clean with
      | EmptyString => None
      | _ =>
          if String.eqb (JSString.toLowerCase clean) "n/a" then None
          else StringToNumber.finite (StringToNumber.ofString clean)
      end
  end.

(** The conversion [Number(cell) || null] that [tidyPanelJS] applies to
    each metric cell. *)
Definition numberOrNull (cell : option string) : option JSNumber :=
  StringToNumber.orNull (StringToNumber.ofCell cell).

(** One tidy record per (company, year); [N] is the type of the metric
    values. *)
Record TidyRecord (N : Type) : Type := mkRecord {
  Company : string;
  Year : Z;
  MarketCap : option N;
  Revenue : option N;
  ValRev : option N
}.
Arguments mkRecord {N}.
Arguments Company {N}.
Arguments Year {N}.
Arguments MarketCap {N}.
Arguments Revenue {N}.
Arguments ValRev {N}.

(** A [Map]: an association list in insertion order. *)
Module JSMap.
Section Ops.
Context {K V : Type}.
Variable eqb : K -> K -> bool.

Definition t : Type := list (K * V).

Fixpoint get (m : t) (k : K) : option V :=
  match m with
  | [] => None
  | (k', v) :: r => if eqb k' k then Some v else get r k
  end.

Definition has (m : t) (k : K) : bool :=
  match get m k with Some _ => true | None => false end.

(** [m.set(k, v)]: an existing key keeps its place, a new key goes
    last. *)
Fixpoint set (m : t) (k : K) (v : V) : t :=
  match m with
  | [] => [(k, v)]
  | (k', v') :: r => if eqb k' k then (k', v) :: r else (k', v') :: set r k v
  end.

Definition keys (m : t) : list K := map fst m.

(** [new Map(pairs)] *)
Definition ofPairs (pairs : list (K * V)) : t :=
  fold_left (fun m kv => set m (fst kv) (snd kv)) pairs [].
End Ops.
End JSMap.

(** ** Second variant: rows are arrays of cell text *)

Definition Row : Type := list string.

(** [header.indexOf(s)]: the first position holding [s], or -1. *)
Fixpoint indexOf (header : Row) (s : string) : Z :=
  match header with
  | [] => (-1)%Z
  | c :: r =>
      if String.eqb c s then 0%Z
      else let k := indexOf r s in if (k <? 0)%Z then (-1)%Z else (k + 1)%Z
  end.

(** [row[colIndex]] for a numeric index that may be -1. *)
Definition cellAt (row : Row) (colIndex : Z) : option string :=
  if (colIndex <? 0)%Z then None else nth_error row (Z.to_nat colIndex).

(** [row[yearIndex.get(String(year))]] *)
Definition cellOfYear (yearIndex : JSMap.t) (row : Row) (year : Z) : option string :=
  match JSMap.get String.eqb yearIndex (JSString.ofInt year) with
  | Some colIndex => cellAt row colIndex
  | None => None
  end.

(** Body of [years.forEach] in [tidyPanel]: the record of one year. *)
Definition tidyPanel_record (yearIndex : JSMap.t) (company : string)
    (mcRow revRow vrRow : Row) (year : Z) : TidyRecord Q :=
  let mc := parseNumber (cellOfYear yearIndex mcRow year) in
  let rev := parseNumber (cellOfYear yearIndex revRow year) in
  let vr := parseNumber (cellOfYear yearIndex vrRow year) in
  mkRecord
    match JSString.truthy (nth_error mcRow 0) with Some c => c | None => company end
    year mc rev vr.

(** [rows[k] || []] *)
Definition rowOrEmpty (rows : list Row) (k : nat) : Row :=
  match nth_error rows k with Some r => r | None => [] end.

(** The [for] loop of [tidyPanel]: [i] is the cursor, [records] the array
    being filled.  A row without company advances the cursor by one, a
    company row by three. *)
Fixpoint tidyPanel_loop (fuel : nat) (rows : list Row) (years : list Z)
    (yearIndex : JSMap.t) (i : nat) (records : list (TidyRecord Q))
    : list (TidyRecord Q) :=
  match fuel with
  | O => records
  | S fuel' =>
      if (i <? List.length rows)%nat then
        match JSString.truthy (nth_error (rowOrEmpty rows i) 0) with
        | None => tidyPanel_loop fuel' rows years yearIndex (i + 1) records
        | Some company =>
            let mcRow := rowOrEmpty rows i in
            let revRow := rowOrEmpty rows (i + 1) in
            let vrRow := rowOrEmpty rows (i + 2) in
            tidyPanel_loop fuel' rows years yearIndex (i + 3)
              (records ++ map (tidyPanel_record yearIndex company mcRow revRow vrRow) years)
        end
      else records
  end.

(** [new Map(years.map((year) => [String(year), header.indexOf(String(year))]))] *)
Definition yearIndexOf (header : Row) (years : list Z) : JSMap.t :=
  JSMap.ofPairs String.eqb
    (map (fun year => (JSString.ofInt year, indexOf header (JSString.ofInt year))) years).

(** [tidyPanel(rows, years)].  The cursor grows at every turn, so
    [length rows] turns are enough. *)
Definition tidyPanel (rows : list Row) (years : list Z) : list (TidyRecord Q) :=
  match rows with
  | [] => []
  | header :: _ =>
      let yearIndex := yearIndexOf header years in
      tidyPanel_loop (List.length rows) rows years yearIndex 1 []
  end.

(** ** First variant: rows are objects keyed by column label *)

(** A row object: its properties in insertion order, each key once. *)
Definition RowObj : Type := list (string * string).

(** [row[key]] *)
Fixpoint prop (row : RowObj) (key : string) : option string :=
  match row with
  | [] => None
  | (k, v) :: r => if String.eqb k key then Some v else prop r key
  end.

(** [block.find((r) => r["Metric"] === label) || {}] *)
Definition findMetric (block : list RowObj) (label : string) : RowObj :=
  match find (fun r => match prop r "Metric" with
                       | Some m => String.eqb m label
                       | None => false
                       end) block with
  | Some r => r
  | None => []
  end.

(** [rows.slice(i, j)] *)
Definition slice {A : Type} (i j : nat) (l : list A) : list A :=
  firstn (j - i) (skipn i l).

(** Body of [years.forEach] in [tidyPanelJS]. *)
Definition tidyPanelJS_record (company : string) (mcRow revRow vrRow : RowObj)
    (y : Z) : TidyRecord JSNumber :=
  let col := JSString.ofInt y in
  mkRecord company y
    (numberOrNull (prop mcRow col))
    (numberOrNull (prop revRow col))
    (numberOrNull (prop vrRow col)).

(** The [while] loop of [tidyPanelJS]. *)
Fixpoint tidyPanelJS_loop (fuel : nat) (rows : list RowObj) (years : list Z)
    (i : nat) (records : list (TidyRecord JSNumber)) : list (TidyRecord JSNumber) :=
  match fuel with
  | O => records
  | S fuel' =>
      match nth_error rows i with
      | None => records
      | Some row =>
          match JSString.truthy (prop row "Company") with
          | None => tidyPanelJS_loop fuel' rows years (i + 1) records
          | Some company =>
              let block := slice i (i + 3) rows in
              let mcRow := findMetric block "Market Cap ($bn)" in
              let revRow := findMetric block "Revenue ($bn)" in
              let vrRow := findMetric block "Valuation/Revenue" in
              tidyPanelJS_loop fuel' rows years (i + 3)
                (records ++ map (tidyPanelJS_record company mcRow revRow vrRow) years)
          end
      end
  end.

(** [tidyPanelJS(rows, years)] *)
Definition tidyPanelJS (rows : list RowObj) (years : list Z) : list (TidyRecord JSNumber) :=
  tidyPanelJS_loop (List.length rows) rows years 0 [].

(* ================================================================== *)
(** * Numbers of the analytic stages *)

Module JSReal.
(** [x < y], [x <= y] and the truthiness of a number, as tests. *)
Definition ltb (x y : R) : bool := if Rlt_dec x y then true else false.
Definition leb (x y : R) : bool := if Rle_dec x y then true else false.
Definition truthy (x : R) : bool := if Req_dec_T x 0 then false else true.

(** [arr.reduce((s, v) => s + v, 0)] *)
Definition sum (arr : list R) : R := fold_left Rplus arr 0%R.

(** [arr.reduce((s, v) => s + v, 0) / arr.length] *)
Definition average (arr : list R) : R := (sum arr / INR (List.length arr))%R.

(** [Number(x.toFixed(4))].  [toFixed] works on the absolute value: at or
    above 10^21 the text is the number itself; below, it is the decimal
    with four fraction digits nearest to the absolute value, the larger
    one on a tie, with the sign put back in front. *)
Definition toFixed4 (x : R) : R :=
  let a := Rabs x in
  if Rle_dec (10 ^ 21) a then x
  else
    let n := Zfloor (a * 10 ^ 4 + / 2) in
    if Rlt_dec x 0 then (- (IZR n / 10 ^ 4))%R else (IZR n / 10 ^ 4)%R.
End JSReal.

(** [arr.sort((a, b) => a - b)] on integers: a stable insertion sort. *)
Fixpoint insertNum (x : Z) (l : list Z) : list Z :=
  match l with
  | [] => [x]
  | y :: r => if (x <? y)%Z then x :: l else y :: insertNum x r
  end.

Definition sortNum (l : list Z) : list Z := fold_right insertNum [] l.

(** [Array.from(new Set(l))]: the distinct elements in order of first
    occurrence. *)
Fixpoint setOf (seen : list Z) (l : list Z) : list Z :=
  match l with
  | [] => []
  | x :: r =>
      if existsb (Z.eqb x) seen then setOf seen r else x :: setOf (x :: seen) r
  end.

(** One cohort's aggregate over time.  The second variant of the page
    names the first field [labels]. *)
Record YearSeries : Type := mkSeries {
  years : list Z;
  values : list R
}.

(* ================================================================== *)
(** * Log aggregator *)

(** A computation that may throw: [None] stands for a thrown TypeError. *)
Definition Throws (A : Type) : Type := option A.

Definition bindT {A B : Type} (c : Throws A) (k : A -> Throws B) : Throws B :=
  match c with
  | Some a => k a
  | None => None
  end.

Fixpoint mapT {A B : Type} (f : A -> Throws B) (l : list A) : Throws (list B) :=
  match l with
  | [] => Some []
  | a :: r => bindT (f a) (fun b => bindT (mapT f r) (fun bs => Some (b :: bs)))
  end.

Fixpoint foldT {A S : Type} (f : S -> A -> Throws S) (l : list A) (s : S) : Throws S :=
  match l with
  | [] => Some s
  | a :: r => bindT (f s a) (foldT f r)
  end.

Definition ByYear : Type := @JSMap.t Z (list R).

(** [Math.log(arr.reduce(...) / arr.length)] for the array stored under
    year [y]; reading a missing entry throws. *)
Definition logOfMean (byYear : ByYear) (y : Z) : Throws R :=
  match JSMap.get Z.eqb byYear y with
  | Some arr => Some (ln (JSReal.average arr))
  | None => None
  end.

(** Body of [records.forEach] in [computeAvgLogPsByYear]. *)
Definition computeAvgLogPsByYear_step (byYear : ByYear) (r : TidyRecord R)
    : Throws ByYear :=
  match ValRev r with
  | Some v =>
      if JSReal.truthy v && JSReal.ltb 0 v then
        let byYear1 :=
          if negb (JSMap.has Z.eqb byYear (Year r))
          then JSMap.set Z.eqb byYear (Year r) []
          else byYear in
        match JSMap.get Z.eqb byYear1 (Year r) with
        | Some arr => Some (JSMap.set Z.eqb byYear1 (Year r) (arr ++ [v]))
        | None => None
        end
      else Some byYear
  | None => Some byYear
  end.

(** [computeAvgLogPsByYear(records)] *)
Definition computeAvgLogPsByYear (records : list (TidyRecord R)) : Throws YearSeries :=
  bindT (foldT computeAvgLogPsByYear_step records []) (fun byYear =>
  let years := sortNum (JSMap.keys byYear) in
  bindT (mapT (logOfMean byYear) years) (fun values =>
  Some (mkSeries years values))).

(** Body of [data.forEach] in [groupMeanByYear]. *)
Definition groupMeanByYear_step (map : ByYear) (row : TidyRecord R) : ByYear :=
  match ValRev row with
  | Some v =>
      if negb (JSReal.truthy v) || JSReal.leb v 0 then map
      else
        let arr := match JSMap.get Z.eqb map (Year row) with
                   | Some a => a
                   | None => []
                   end in
        JSMap.set Z.eqb map (Year row) (arr ++ [v])
  | None => map
  end.

(** [groupMeanByYear(data)] *)
Definition groupMeanByYear (data : list (TidyRecord R)) : Throws YearSeries :=
  let map := fold_left groupMeanByYear_step data [] in
  let labels := sortNum (JSMap.keys map) in
  bindT (mapT (logOfMean map) labels) (fun values =>
  Some (mkSeries labels values)).

(* ================================================================== *)
(** * Series aligner *)

(** [years.map((y, i) => [y, values[i]])] *)
Fixpoint zipIndex (years : list Z) (values : list R) (i : nat)
    : list (Z * option R) :=
  match years with
  | [] => []
  | y :: r => (y, nth_error values i) :: zipIndex r values (S i)
  end.

(** [makeAligned(years, values)] over the axis [allYears]. *)
Definition makeAligned (allYears : list Z) (years : list Z) (values : list R)
    : list (option R) :=
  let map := JSMap.ofPairs Z.eqb (zipIndex years values 0) in
  List.map (fun y => if JSMap.has Z.eqb map y
                     then match JSMap.get Z.eqb map y with
                          | Some v => v
                          | None => None
                          end
                     else None) allYears.

Record AlignedSeries : Type := mkAligned {
  axis : list Z;
  dotcom : list (option R);
  bigTech : list (option R);
  pureAI : list (option R)
}.

(** The alignment step of the [series] memo, from the three aggregates. *)
Definition alignSeries (dot big niche : YearSeries) : AlignedSeries :=
  let allYears := sortNum (setOf [] (years dot ++ years big ++ years niche)) in
  mkAligned allYears
    (makeAligned allYears (years dot) (values dot))
    (makeAligned allYears (years big) (values big))
    (makeAligned allYears (years niche) (values niche)).

(** The [series] memo: [null] when the three cohorts have no record,
    else the three aggregates on their common axis. *)
Definition series (dotcom aiPure aiNiche : list (TidyRecord R))
    : Throws (option AlignedSeries) :=
  match dotcom, aiPure, aiNiche with
  | [], [], [] => Some None
  | _, _, _ =>
      bindT (computeAvgLogPsByYear dotcom) (fun dot =>
      bindT (computeAvgLogPsByYear aiPure) (fun big =>
      bindT (computeAvgLogPsByYear aiNiche) (fun niche =>
      Some (Some (alignSeries dot big niche)))))
  end.

(** [labels.indexOf(year)] on integers. *)
Fixpoint indexOfNum (labels : list Z) (year : Z) : Z :=
  match labels with
  | [] => (-1)%Z
  | c :: r =>
      if (c =? year)%Z then 0%Z
      else let k := indexOfNum r year in if (k <? 0)%Z then (-1)%Z else (k + 1)%Z
  end.

(** The [data] of one dataset in [averagePlot]. *)
Definition averagePlot_data (labels : list Z) (track : YearSeries) : list (option R) :=
  List.map (fun year =>
    let idx := indexOfNum (years track) year in
    if (0 <=? idx)%Z then nth_error (values track) (Z.to_nat idx) else None) labels.

(** [averagePlot]: the common axis and one aligned sequence per track. *)
Definition averagePlot (tracks : list YearSeries) : list Z * list (list (option R)) :=
  let labels := sortNum (setOf [] (flat_map years tracks)) in
  (labels, List.map (averagePlot_data labels) tracks).

(* ================================================================== *)
(** * Smoother *)

(** [Math.floor(window / 2)] and [Math.ceil(window / 2)] for an integer
    window. *)
Definition floorHalf (window : Z) : Z := (window / 2)%Z.
Definition ceilHalf (window : Z) : Z := (- ((- window) / 2))%Z.

(** [arr.slice(start, end).filter((v) => v != null)] *)
Fixpoint nonNull (l : list (option R)) : list R :=
  match l with
  | [] => []
  | Some v :: r => v :: nonNull r
  | None :: r => nonNull r
  end.

(** The callback of [values.map] in [movingAverage].  The sum and the
    quotient of the mean are taken in the reals; the code rounds each to
    binary64 before [toFixed], so where the exact mean lies within that
    rounding error of a fifth-decimal tie the code may return the
    neighbouring four-decimal value. *)
Definition movingAverage_at (window : Z) (arr : list (option R)) (idx : nat)
    (val : option R) : option R :=
  match val with
  | None => None
  | Some _ =>
      let start := Z.max 0 (Z.of_nat idx - floorHalf window) in
      let end_ := Z.min (Z.of_nat (List.length arr)) (Z.of_nat idx + ceilHalf window) in
      let slice_ := nonNull (slice (Z.to_nat start) (Z.to_nat end_) arr) in
      match slice_ with
      | [] => None
      | _ => Some (JSReal.toFixed4 (JSReal.average slice_))
      end
  end.

(** [arr.map((val, idx, arr) => f(idx, val))], from position [idx] on. *)
Fixpoint mapIndexed {A B : Type} (f : nat -> A -> B) (idx : nat) (l : list A) : list B :=
  match l with
  | [] => []
  | a :: r => f idx a :: mapIndexed f (S idx) r
  end.

(** [movingAverage(values, window)] *)
Definition movingAverage (values : list (option R)) (window : Z) : list (option R) :=
  if (window <=? 1)%Z then values
  else mapIndexed (movingAverage_at window values) 0 values.

(* ================================================================== *)
(** * Scenario projector *)

Record ScenarioSeries : Type := mkScenario {
  scenarioYears : list Z;
  data : list R
}.

(** The [for] loop of [scenario], one turn per unit of fuel. *)
Fixpoint scenario_loop (fuel : nat) (year : Z) (currentPs customGrowth : R)
    (ys : list Z) (ds : list R) : ScenarioSeries :=
  match fuel with
  | O => mkScenario ys ds
  | S fuel' =>
      if (year <=? 2032)%Z then
        let currentPs' := (currentPs * (1 + customGrowth / 100))%R in
        scenario_loop fuel' (year + 1) currentPs' customGrowth
          (ys ++ [year]) (ds ++ [ln currentPs'])
      else mkScenario ys ds
  end.

(** [scenario]: [series] is [None] when the memo is [null]. *)
Definition scenario (series : option AlignedSeries) (customGrowth : R) : ScenarioSeries :=
  match series with
  | None => mkScenario [] []
  | Some s =>
      let bigVals := nonNull (bigTech s) in
      match bigVals with
      | [] => mkScenario [] []
      | _ =>
          (* bigVals[bigVals.length - 1]; the array is not empty here *)
          let lastLog := last bigVals 0%R in
          scenario_loop (Z.to_nat (2032 - 2025 + 2)) 2025 (exp lastLog) customGrowth [] []
      end
  end.

(* ================================================================== *)
(** * Words of the specification

    Definitions that follow the specification's sentences, to be compared
    with the code above. *)

(** The arithmetic mean of a group: the sum of its members over their
    number. *)
Definition spec_mean (l : list R) : R :=
  (fold_right Rplus 0 l / INR (List.length l))%R.

(** The window of position [i]:
    [max(0, i - floor(W/2)), min(length, i + ceil(W/2))). *)
Definition spec_window_lo (W : Z) (i : nat) : Z :=
  Z.max 0 (Z.of_nat i - W / 2).

(** For an integer [W], ceil(W/2) is [(W + 1) / 2]. *)
Definition spec_window_hi (W : Z) (len i : nat) : Z :=
  Z.min (Z.of_nat len) (Z.of_nat i + (W + 1) / 2).

(** The non-null values at the positions of the window of [i]. *)
Definition spec_window (x : list (option R)) (W : Z) (i : nat) : list R :=
  let lo := Z.to_nat (spec_window_lo W i) in
  let hi := Z.to_nat (spec_window_hi W (List.length x) i) in
  flat_map (fun j => match nth_error x j with
                     | Some (Some v) => [v]
                     | _ => []
                     end) (seq lo (hi - lo)).

(** The smoothed value the specification gives at position [i]: the mean
    of the window, null for an empty window or a null source value. *)
Definition spec_smoothed (x : list (option R)) (W : Z) (i : nat) : option R :=
  match nth_error x i with
  | Some (Some _) =>
      match spec_window x W i with
      | [] => None
      | w => Some (spec_mean w)
      end
  | _ => None
  end.

(** A record counts for the aggregate when its ratio is present and
    positive. *)
Definition spec_valid (r : TidyRecord R) : Prop :=
  exists v, ValRev r = Some v /\ (0 < v)%R.

(** The surviving values of year [y], in record order. *)
Definition spec_group (records : list (TidyRecord R)) (y : Z) : list R :=
  flat_map (fun r => match ValRev r with
                     | Some v => if JSReal.ltb 0 v && (Year r =? y)%Z then [v] else []
                     | None => []
                     end) records.

(** A YearSeries: strictly increasing years, one value per year. *)
Definition spec_wellformed (t : YearSeries) : Prop :=
  StronglySorted Z.lt (years t) /\ List.length (values t) = List.length (years t).

(** The common axis: ascending without duplicates, and exactly the years
    of the input series. *)
Definition spec_union_axis (labels : list Z) (ts : list YearSeries) : Prop :=
  StronglySorted Z.lt labels
  /\ forall y, In y labels <-> exists t, In t ts /\ In y (years t).

(** The sequence [d] is the series [t] laid on the axis [labels]: as long
    as the axis, null at the years [t] does not cover, and at every year
    [t] covers the value [t] has for it. *)
Definition spec_aligned (labels : list Z) (t : YearSeries) (d : list (option R)) : Prop :=
  List.length d = List.length labels
  /\ (forall j y, nth_error labels j = Some y -> ~ In y (years t) ->
        nth_error d j = Some None)
  /\ (forall j y i, nth_error labels j = Some y -> nth_error (years t) i = Some y ->
        nth_error d j = Some (nth_error (values t) i))
  /\ (forall i y v, nth_error (years t) i = Some y -> nth_error (values t) i = Some v ->
        exists j, nth_error labels j = Some y /\ nth_error d j = Some (Some v)).

(** The cohort's last observation on the axis: the year and the value at
    the last position whose value is not null. *)
Fixpoint spec_lastObserved (ys : list Z) (vs : list (option R)) : option (Z * R) :=
  match ys, vs with
  | y :: ys', v :: vs' =>
      match spec_lastObserved ys' vs' with
      | Some p => Some p
      | None => match v with
                | Some x => Some (y, x)
                | None => None
                end
      end
  | _, _ => None
  end.

(** The last observed year of the Big Tech cohort. *)
Definition spec_lastObservedYear (s : AlignedSeries) : option Z :=
  option_map fst (spec_lastObserved (axis s) (bigTech s)).

(** A grouping character of a numeral: the thousands comma or a double
    quote. *)
Definition is_grouping (c : ascii) : bool :=
  Ascii.eqb c JSString.comma || Ascii.eqb c JSString.dquote.

(** Every character of [s] passes the test [p]. *)
Fixpoint all_chars (p : ascii -> bool) (s : string) : bool :=
  match s with
  | EmptyString => true
  | String c r => p c && all_chars p r
  end.

(** Some character of [s] passes the test [p]. *)
Fixpoint has_char (p : ascii -> bool) (s : string) : bool :=
  match s with
  | EmptyString => false
  | String c r => p c || has_char p r
  end.

(** The number written by the decimal digits of [s], read in order, the
    other characters being passed over. *)
Fixpoint spec_decimal_value (acc : N) (s : string) : N :=
  match s with
  | EmptyString => acc
  | String c r =>
      if StringToNumber.is_digit c
      then spec_decimal_value (acc * 10 + (JSString.code c - 48)) r
      else spec_decimal_value acc r
  end.

(** The company blocks of a table, in order, each with its company cell
    and its rows (three, fewer at the end of the table).  A row whose
    company cell is empty or absent is stepped over alone; a row with a
    company starts a block, and the two rows after it belong to that
    block.  [skip] counts the rows still owed to the block in progress. *)
Fixpoint spec_blocks {A : Type} (company : A -> option string) (skip : nat)
    (rows : list A) : list (string * list A) :=
  match rows with
  | [] => []
  | r :: rest =>
      match skip with
      | S k => spec_blocks company k rest
      | O =>
          match company r with
          | None => spec_blocks company 0 rest
          | Some c => (c, firstn 3 rows) :: spec_blocks company 2 rest
          end
      end
  end.

(* ================================================================== *)
(** * Auxiliary definitions and sample inputs *)

(** Sample inputs of the smoother. *)
Definition smoother_example : list (option R) := [Some 0%R; Some 0%R; Some 1%R].

Definition smoother_sample : list (option R) :=
  [Some 1%R; Some 2%R; Some 3%R; None; Some 5%R].

(** What the map holds after the records [rs]: under each year its
    surviving values, and no entry for a year without any. *)
Definition groups_of (rs : list (TidyRecord R)) (m : ByYear) : Prop :=
  NoDup (JSMap.keys m)
  /\ forall y, JSMap.get Z.eqb m y
               = match spec_group rs y with [] => None | g => Some g end.

(** Records without any valid ratio. *)
Definition aggregator_blank : list (TidyRecord R) :=
  [mkRecord "Acme" 2020 None None None; mkRecord "Acme" 2021 None None (Some 0%R)].

(** One turn of the [forEach] of [groupMeanByYear]. *)
Ltac agg_step :=
  match goal with
  | |- context [fold_left groupMeanByYear_step (?r :: ?l) ?m] =>
      change (fold_left groupMeanByYear_step (r :: l) m)
        with (fold_left groupMeanByYear_step l (groupMeanByYear_step m r))
  end.

(** Records of three years, with a zero, a negative and a missing ratio. *)
Definition aggregator_example : list (TidyRecord R) :=
  [ mkRecord "Acme" 2021 None None (Some 10%R);
    mkRecord "Acme" 2020 None None (Some 0%R);
    mkRecord "Bolt" 2020 None None (Some (-5)%R);
    mkRecord "Core" 2020 None None (Some 10%R);
    mkRecord "Bolt" 2021 None None (Some 30%R);
    mkRecord "Dyne" 2022 None None None ].

(** What [makeAligned] puts at the position of a year. *)
Definition makeAligned_at (ys : list Z) (vs : list R) (y : Z) : option R :=
  let map := JSMap.ofPairs Z.eqb (zipIndex ys vs 0) in
  if JSMap.has Z.eqb map y
  then match JSMap.get Z.eqb map y with Some v => v | None => None end
  else None.

(** What [averagePlot] puts at the position of a year. *)
Definition averagePlot_at (track : YearSeries) (year : Z) : option R :=
  let idx := indexOfNum (years track) year in
  if (0 <=? idx)%Z then nth_error (values track) (Z.to_nat idx) else None.

(** The two series of the alignment sample. *)
Definition aligner_A : YearSeries := mkSeries [2020; 2021]%Z [1; 2]%R.
Definition aligner_B : YearSeries := mkSeries [2021; 2022]%Z [3; 4]%R.

(** Aligned series whose Big Tech cohort has no observation, one
    observation (ln 20, in 2024), and observations up to 2025. *)
Definition scenario_blank : AlignedSeries := mkAligned [2024]%Z [None] [None] [None].

Definition scenario_ln20 : AlignedSeries :=
  mkAligned [2024]%Z [None] [Some (ln 20)] [None].

Definition scenario_2025 : AlignedSeries :=
  mkAligned [2024; 2025]%Z [None; None] [Some 1%R; Some 2%R] [None; None].

(** The company cell of a row, in each variant. *)
Definition companyOfRow (r : Row) : option string := JSString.truthy (nth_error r 0).
Definition companyOfRowObj (r : RowObj) : option string := JSString.truthy (prop r "Company").

(** The records [tidyPanel] writes for one block. *)
Definition tidyPanel_block (yearIndex : JSMap.t) (years : list Z)
    (b : string * list Row) : list (TidyRecord Q) :=
  map (tidyPanel_record yearIndex (fst b)
         (nth 0 (snd b) []) (nth 1 (snd b) []) (nth 2 (snd b) [])) years.

(** The records [tidyPanelJS] writes for one block. *)
Definition tidyPanelJS_block (years : list Z) (b : string * list RowObj)
    : list (TidyRecord JSNumber) :=
  map (tidyPanelJS_record (fst b)
         (findMetric (snd b) "Market Cap ($bn)")
         (findMetric (snd b) "Revenue ($bn)")
         (findMetric (snd b) "Valuation/Revenue")) years.

(** The shape the two loops share: a cursor over the rows that steps over
    a row without company and writes the records of three rows at a
    company. *)
Fixpoint block_loop {A B : Type} (company : A -> option string)
    (emit : string * list A -> list B) (fuel : nat) (rows : list A) (i : nat)
    (records : list B) : list B :=
  match fuel with
  | O => records
  | S fuel' =>
      match nth_error rows i with
      | None => records
      | Some r =>
          match company r with
          | None => block_loop company emit fuel' rows (i + 1) records
          | Some c =>
              block_loop company emit fuel' rows (i + 3)
                (records ++ emit (c, firstn 3 (skipn i rows)))
          end
      end
  end.

(** A panel in each variant: a table of cell text with its header row, and
    row objects. *)
Definition tidy_table : list Row :=
  [ ["Company"; "Metric"; "1996"; "2000"];
    ["Acme"; "Market Cap ($bn)"; "1,200"; "n/a"];
    [""; "Revenue ($bn)"; "0"; "5"];
    [""; "Valuation/Revenue"; "oops"; "2.5"];
    [];
    ["Bolt"; "Market Cap ($bn)"; "7"; "8"] ]%string.

Definition tidy_tableJS : list RowObj :=
  [ [("Company", "Acme"); ("Metric", "Market Cap ($bn)"); ("1996", "0"); ("2000", "12")];
    [("Company", ""); ("Metric", "Revenue ($bn)"); ("1996", "3"); ("2000", "4")];
    [("Company", ""); ("Metric", "Valuation/Revenue"); ("1996", "0.5"); ("2000", "3")] ]%string.

(* ================================================================== *)
(** * Reading CSV text *)

(** [s.split(sep)] for a one-character separator: the pieces between the
    occurrences of the separator, never an empty array. *)
Fixpoint splitOn (sep : ascii) (s : string) : list string :=
  match s with
  | EmptyString => [EmptyString]
  | String c r =>
      if Ascii.eqb c sep then EmptyString :: splitOn sep r
      else match splitOn sep r with
           | h :: t => String c h :: t
           | [] => [String c EmptyString]
           end
  end.

Definition LF : ascii := Ascii.ascii_of_nat 10.
Definition CR : ascii := Ascii.ascii_of_nat 13.

(** [s.split(/\r?\n/)]: a line feed ends a line, and so does a carriage
    return when a line feed follows it. *)
Fixpoint splitLines (s : string) : list string :=
  match s with
  | EmptyString => [EmptyString]
  | String c r =>
      let keep := match splitLines r with
                  | h :: t => String c h :: t
                  | [] => [String c EmptyString]
                  end in
      if Ascii.eqb c LF then EmptyString :: splitLines r
      else if Ascii.eqb c CR then
        match r with
        | String d r' => if Ascii.eqb d LF then EmptyString :: splitLines r' else keep
        | EmptyString => keep
        end
      else keep
  end.

(** [hay.includes(needle)] *)
Fixpoint includes (needle hay : string) : bool :=
  String.prefix needle hay
  || match hay with
     | EmptyString => false
     | String _ r => includes needle r
     end.

(** [arr.findIndex(p)]: the first position passing the test, or -1. *)
Fixpoint findIndex {A : Type} (p : A -> bool) (l : list A) : Z :=
  match l with
  | [] => (-1)%Z
  | a :: r =>
      if p a then 0%Z
      else let k := findIndex p r in if (k <? 0)%Z then (-1)%Z else (k + 1)%Z
  end.

(** The last character of a string. *)
Fixpoint lastChar (s : string) : option ascii :=
  match s with
  | EmptyString => None
  | String c EmptyString => Some c
  | String _ r => lastChar r
  end.

(** [s] without its last character. *)
Fixpoint dropLast (s : string) : string :=
  match s with
  | EmptyString => EmptyString
  | String c EmptyString => EmptyString
  | String c r => String c (dropLast r)
  end.

(** [cell.replace(/^"|"$/g, '')]: a double quote at the very start goes,
    and then one at the very end. *)
Definition stripQuotes (cell : string) : string :=
  let s := match cell with
           | String c r => if Ascii.eqb c JSString.dquote then r else cell
           | EmptyString => cell
           end in
  match lastChar s with
  | Some c => if Ascii.eqb c JSString.dquote then dropLast s else s
  | None => s
  end.

(** [parseCsvRows(text)], second variant. *)
Definition parseCsvRows (text : string) : list Row :=
  map (fun line => map stripQuotes (splitOn JSString.comma line))
      (splitLines (JSString.trim text)).

Module Upload.
(** A row [{ year, value }] of an uploaded series. *)
Record row : Type := mk { year : JSNumber; value : JSNumber }.
End Upload.

(** [Number.isFinite(n)] *)
Definition isFinite (n : JSNumber) : bool :=
  match n with
  | Fin _ => true
  | _ => false
  end.

(** [parseCsv(text)], the reader of the CSV upload. *)
Definition parseCsv (text : string) : list Upload.row :=
  match splitLines (JSString.trim text) with
  | [] => []
  | headerLine :: rows =>
      let headers :=
        map (fun h => JSString.toLowerCase (JSString.trim h))
            (splitOn JSString.comma headerLine) in
      let yearIndex := findIndex (includes "year") headers in
      let valueIndex :=
        findIndex (fun h => includes "value" h || includes "index" h) headers in
      if (yearIndex =? -1)%Z || (valueIndex =? -1)%Z then []
      else
        filter (fun row => isFinite (Upload.year row) && isFinite (Upload.value row))
          (map (fun cells =>
                  Upload.mk (StringToNumber.ofCell (cellAt cells yearIndex))
                            (StringToNumber.ofCell (cellAt cells valueIndex)))
             (map (fun line => map JSString.trim (splitOn JSString.comma line)) rows))
  end.

(** What [fetch] hands to [loadCsvAsObjects]: the status of the response
    and its text. *)
Record Response : Type := mkResponse { ok : bool; body : string }.

(** [headers.forEach((h, i) => { row[h] = cells[i] ?? ""; })], from
    position [i] on: a property set twice keeps its place and takes the
    later value. *)
Fixpoint fillRow (headers : list string) (cells : list string) (i : nat)
    (row : RowObj) : RowObj :=
  match headers with
  | [] => row
  | h :: hs =>
      let cell := match nth_error cells i with Some c => c | None => EmptyString end in
      fillRow hs cells (S i) (JSMap.set String.eqb row h cell)
  end.

(** [loadCsvAsObjects(path)], after the fetch: a response that is not ok
    throws, else the lines after the first become row objects keyed by the
    cells of the first line. *)
Definition loadCsvAsObjects (response : Response) : Throws (list RowObj) :=
  if negb (ok response) then None
  else
    let lines := splitLines (JSString.trim (body response)) in
    let headers := map JSString.trim (splitOn JSString.comma (nth 0 lines EmptyString)) in
    Some (map (fun line =>
                 let cells := map JSString.trim (splitOn JSString.comma line) in
                 fillRow headers cells 0 [])
              (skipn 1 lines)).

(* ================================================================== *)
(** * Peak statistics of the second variant *)

(** [series.filter((n) => n > 0).map((n) => Math.log(n))]: a null entry
    compares as 0 and is dropped with the non-positive ones. *)
Fixpoint safeLog (series : list (option R)) : list R :=
  match series with
  | [] => []
  | Some n :: r => if JSReal.ltb 0 n then ln n :: safeLog r else safeLog r
  | None :: r => safeLog r
  end.

(** [arr.sort((a, b) => a - b)] on numbers: a stable insertion sort. *)
Fixpoint insertReal (x : R) (l : list R) : list R :=
  match l with
  | [] => [x]
  | y :: r => if JSReal.ltb x y then x :: l else y :: insertReal x r
  end.

Definition sortReal (l : list R) : list R := fold_right insertReal [] l.

(** [medianLog(series)]; [sorted[k]] is read with a default that is never
    used, the positions read being inside the array. *)
Definition medianLog (series : list (option R)) : option R :=
  let filtered := safeLog series in
  match filtered with
  | [] => None
  | _ =>
      let sorted := sortReal filtered in
      let mid := (List.length sorted / 2)%nat in
      if (List.length sorted mod 2 =? 0)%nat
      then Some ((nth (mid - 1) sorted 0 + nth mid sorted 0) / 2)%R
      else Some (nth mid sorted 0%R)
  end.

(** [rows.filter((row) => peak.includes(row.Year)).map((r) => r.ValRev)] *)
Definition peakRatios (peak : list Z) (rows : list (TidyRecord R)) : list (option R) :=
  map ValRev (filter (fun row => existsb (Z.eqb (Year row)) peak) rows).

(** The [values] of [medianBars]: one bar per cohort. *)
Definition medianBars (dotcom aiPure aiNiche : list (TidyRecord R)) : list (option R) :=
  [ medianLog (peakRatios [1999; 2000]%Z dotcom);
    medianLog (peakRatios [2023; 2024; 2025]%Z aiPure);
    medianLog (peakRatios [2023; 2024; 2025]%Z aiNiche) ].

(** The [data] of [boxPlotData]: one sample per cohort. *)
Definition boxPlotData (dotcom aiPure aiNiche : list (TidyRecord R)) : list (list R) :=
  [ safeLog (peakRatios [1999; 2000]%Z dotcom);
    safeLog (peakRatios [2023; 2024; 2025]%Z aiPure);
    safeLog (peakRatios [2023; 2024; 2025]%Z aiNiche) ].

(* ================================================================== *)
(** * The page of the first variant: state, range and derived data *)

(** An entry [{ year, idx }] of [filteredIndices]. *)
Record IndexedYear : Type := mkIndexed { iyear : Z; idx : nat }.

(** The [filteredIndices] memo. *)
Definition filteredIndices (series : option AlignedSeries) (range : Z * Z)
    : list IndexedYear :=
  match series with
  | None => []
  | Some s =>
      filter (fun e => (fst range <=? iyear e)%Z && (iyear e <=? snd range)%Z)
        (mapIndexed (fun i y => mkIndexed y i) 0 (axis s))
  end.

(** [arr[idx]] on a nullable array: [undefined] and [null] read alike. *)
Definition at_ (arr : list (option R)) (i : nat) : option R :=
  match nth_error arr i with
  | Some v => v
  | None => None
  end.

(** The numbers [MetaStats] shows, before they are formatted. *)
Record Stats : Type := mkStats {
  aiChange : R;
  dcChange : R;
  aiCagr : R;
  dcCagr : R
}.

(** [MetaStats]: nothing is shown unless both cohorts have a value at the
    first and at the last index of the range. *)
Definition metaStats (series : option AlignedSeries) (fi : list IndexedYear)
    : option Stats :=
  match series, fi with
  | Some s, first :: _ =>
      let firstIdx := idx first in
      let lastIdx := idx (last fi first) in
      match at_ (bigTech s) firstIdx, at_ (bigTech s) lastIdx,
            at_ (dotcom s) firstIdx, at_ (dotcom s) lastIdx with
      | Some startAiLog, Some endAiLog, Some startDcLog, Some endDcLog =>
          let startAi := exp startAiLog in
          let endAi := exp endAiLog in
          let startDc := exp startDcLog in
          let endDc := exp endDcLog in
          let periods := INR (Nat.max 1 (List.length fi - 1)) in
          Some (mkStats (endAi - startAi) (endDc - startDc)
                        ((Rpower (endAi / startAi) (1 / periods) - 1) * 100)
                        ((Rpower (endDc / startDc) (1 / periods) - 1) * 100))
      | _, _, _, _ => None
      end
  | _, _ => None
  end.

(** The [smoothed] memo. *)
Definition smoothed (series : option AlignedSeries) (smooth : Z)
    : option (list (option R) * list (option R) * list (option R)) :=
  match series with
  | None => None
  | Some s => Some (movingAverage (dotcom s) smooth,
                    movingAverage (bigTech s) smooth,
                    movingAverage (pureAI s) smooth)
  end.

(** The [allLabels] memo. *)
Definition allLabels (series : option AlignedSeries) (sc : ScenarioSeries) : list Z :=
  match series with
  | None => []
  | Some s => sortNum (setOf [] (axis s ++ scenarioYears sc))
  end.

(** [years.map((y, i) => [y, values[i]])] on any array of values. *)
Fixpoint zipIndexAny {V : Type} (years : list Z) (values : list V) (i : nat)
    : list (Z * option V) :=
  match years with
  | [] => []
  | y :: r => (y, nth_error values i) :: zipIndexAny r values (S i)
  end.

(** [align(years, values)] of the [alignedData] memo, for nullable
    values. *)
Definition align (labels : list Z) (years : list Z) (values : list (option R))
    : list (option R) :=
  let map := JSMap.ofPairs Z.eqb (zipIndexAny years values 0) in
  List.map (fun y => if JSMap.has Z.eqb map y
                     then match JSMap.get Z.eqb map y with
                          | Some (Some v) => v
                          | _ => None
                          end
                     else None) labels.

(** The four data arrays of [alignedData]. *)
Record AlignedData : Type := mkAlignedData {
  adDotcom : list (option R);
  adBigTech : list (option R);
  adPureAI : list (option R);
  adScenario : list (option R)
}.

(** The [alignedData] memo, from the series, the smoothing window and the
    growth rate. *)
Definition alignedData (series : option AlignedSeries) (smooth : Z) (customGrowth : R)
    : option AlignedData :=
  match series, smoothed series smooth with
  | Some s, Some (sd, sb, sp) =>
      let sc := scenario series customGrowth in
      let labels := allLabels series sc in
      Some (mkAlignedData
              (align labels (axis s) sd)
              (align labels (axis s) sb)
              (align labels (axis s) sp)
              (align labels (scenarioYears sc) (map Some (data sc))))
  | _, _ => None
  end.

(** [Math.log(v)] of a finite number read from text: minus infinity at
    zero, NaN below. *)
Inductive LogValue : Type :=
| LogNaN
| LogNegInfinity
| LogFin (x : R).

Definition logOfQ (v : Q) : LogValue :=
  match Qnum v with
  | Z0 => LogNegInfinity
  | Zpos _ => LogFin (ln (Q2R v))
  | Zneg _ => LogNaN
  end.

(** Keys of a [Map] that are numbers read from text: equal when they are
    the same number. *)
Definition sameNumber (a b : JSNumber) : bool :=
  match a, b with
  | Fin x, Fin y => Qeq_bool x y
  | Infinity s, Infinity t => Bool.eqb s t
  | NaN, NaN => true
  | _, _ => false
  end.

(** The [data] of one upload dataset: the logged value of each label the
    upload has a finite value for, null elsewhere. *)
Definition uploadData (labels : list Z) (entry : list Upload.row) : list (option LogValue) :=
  let lookup := JSMap.ofPairs sameNumber
                  (map (fun item => (Upload.year item, Upload.value item)) entry) in
  map (fun label =>
         match JSMap.get sameNumber lookup (Fin (inject_Z label)) with
         | Some (Fin v) => Some (logOfQ v)
         | _ => None
         end) labels.

(** The controls of the page. *)
Record AppState : Type := mkState {
  chartType : string;
  smooth : Z;
  range : Z * Z;
  customGrowth : Z;
  uploads : list (string * list Upload.row)
}.

Definition initialState : AppState :=
  mkState "line" 2 (1996, 2025)%Z 18 [].

(** What the user can do with the controls. *)
Inductive Event : Type :=
| SetChartType (v : string)
| SetSmooth (n : Z)
| SetFrom (next : Z)
| SetTo (next : Z)
| SetCustomGrowth (n : Z)
| Reset
| UploadFile (text : string) (name : string).

(** [name.replace(/\.csv$/i, '')] *)
Definition stripCsvSuffix (name : string) : string :=
  let n := String.length name in
  if (4 <=? n)%nat
     && String.eqb (JSString.toLowerCase (String.substring (n - 4) 4 name)) ".csv"
  then String.substring 0 (n - 4) name
  else name.

(** [addUpload(data, label)] *)
Definition addUpload (data : list Upload.row) (label : string) (st : AppState) : AppState :=
  match data with
  | [] => st
  | _ =>
      let prev := uploads st in
      let l := match label with
               | EmptyString =>
                   ("Upload " ++ JSString.ofInt (Z.of_nat (List.length prev + 1)))%string
               | _ => label
               end in
      mkState (chartType st) (smooth st) (range st) (customGrowth st) (prev ++ [(l, data)])
  end.

(** The handlers of [DataControls] and [reset]. *)
Definition handle (st : AppState) (e : Event) : AppState :=
  match e with
  | SetChartType v => mkState v (smooth st) (range st) (customGrowth st) (uploads st)
  | SetSmooth n => mkState (chartType st) n (range st) (customGrowth st) (uploads st)
  | SetFrom next =>
      mkState (chartType st) (smooth st)
        (Z.min next (snd (range st)), snd (range st)) (customGrowth st) (uploads st)
  | SetTo next =>
      mkState (chartType st) (smooth st)
        (fst (range st), Z.max next (fst (range st))) (customGrowth st) (uploads st)
  | SetCustomGrowth n => mkState (chartType st) (smooth st) (range st) n (uploads st)
  | Reset => mkState "line" 2 (1996, 2025)%Z 18 []
  | UploadFile text name => addUpload (parseCsv text) (stripCsvSuffix name) st
  end.

(** The state after a run of events. *)
Definition run (events : list Event) : AppState := fold_left handle events initialState.

(* ================================================================== *)
(** * CSV text written out, to read it back *)

(** A cell that the readers leave as it is: no comma, no line break, and
    no double quote at either end. *)
Definition plainChar (c : ascii) : bool :=
  negb (Ascii.eqb c JSString.comma) && negb (Ascii.eqb c LF) && negb (Ascii.eqb c CR).

(** A character that is no line break. *)
Definition lineChar (c : ascii) : bool := negb (Ascii.eqb c LF) && negb (Ascii.eqb c CR).

Definition plainCell (cell : string) : bool :=
  all_chars plainChar cell
  && match cell with
     | String c _ => negb (Ascii.eqb c JSString.dquote)
     | EmptyString => true
     end
  && match lastChar cell with
     | Some c => negb (Ascii.eqb c JSString.dquote)
     | None => true
     end.

(** A table as CSV text: cells joined by commas, rows by line feeds. *)
Definition renderCsv (table : list Row) : string :=
  String.concat (String LF EmptyString)
    (map (String.concat (String JSString.comma EmptyString)) table).

(** The text of an optional integer cell: empty when the cell is blank. *)
Definition cellText (c : option Z) : string :=
  match c with
  | Some z => JSString.ofInt z
  | None => EmptyString
  end.

(** The text of one data line of a series: the year cell, a comma, the
    value cell. *)
Definition seriesLine (yv : option Z * option Z) : string :=
  (cellText (fst yv) ++ String JSString.comma (cellText (snd yv)))%string.

(** A series of integer (year, value) rows as the text of an upload, under
    the header line [year,value]. *)
Definition renderSeries (l : list (option Z * option Z)) : string :=
  String.concat (String LF EmptyString) ("year,value"%string :: map seriesLine l).

(** A blank cell counts as 0. *)
Definition cellNumber (c : option Z) : JSNumber :=
  match c with
  | Some z => Fin (inject_Z z)
  | None => Fin 0
  end.

(** A cell whose integer binary64 holds exactly: blank, or of size at most
    2^53, so that [Number] of its text is the integer itself. *)
Definition exactCell (c : option Z) : Prop :=
  match c with
  | Some z => (Z.abs z <= 2 ^ 53)%Z
  | None => True
  end.

(** A series with a blank value, a negative value and the largest exact
    integer. *)
Definition series_sample : list (option Z * option Z) :=
  [ (Some 2020, Some 3); (Some 2021, None); (Some 2022, Some (-5));
    (Some 2023, Some 9007199254740992) ]%Z.

(** A small panel whose cells are plain. *)
Definition csv_sample : list Row :=
  [ ["Company"; "Metric"; "1996"];
    ["Acme Inc"; "Market Cap ($bn)"; "12"];
    [""; "Revenue ($bn)"; "3"] ]%string.

(** The header cells [parseCsv] looks its two columns up in. *)
Definition uploadHeaders (text : string) : list string :=
  map (fun h => JSString.toLowerCase (JSString.trim h))
      (splitOn JSString.comma (hd EmptyString (splitLines (JSString.trim text)))).

(** The header cells and the data lines [loadCsvAsObjects] works on. *)
Definition csvHeaders (text : string) : list string :=
  map JSString.trim
      (splitOn JSString.comma (nth 0 (splitLines (JSString.trim text)) EmptyString)).

Definition csvDataLines (text : string) : list string :=
  skipn 1 (splitLines (JSString.trim text)).

(** A response that is ok, and one that is not. *)
Definition csv_response : Response :=
  mkResponse true (renderCsv [ ["Company"; "Metric"; "1996"; "1997"];
                               ["Acme"; "Market Cap ($bn)"; "12"] ]%string).

Definition csv_failure : Response := mkResponse false "Not Found".

(** Two uploads: one whose header names neither column although its data
    lines hold numbers, and one with readable and unreadable lines. *)
Definition upload_no_year : string :=
  String.concat (String LF EmptyString) ["date,price"; "2020,3"; "2021,4"]%string.

Definition upload_mixed : string :=
  String.concat (String LF EmptyString)
    ["Year,Value"; "2020,3"; "abc,4"; "2021,x"; "2022,7"]%string.

(* ================================================================== *)
(** * Auxiliary definitions for the peak statistics *)

(** [series.filter((n) => n > 0)], the ratios [safeLog] takes the logarithm
    of. *)
Fixpoint positives (series : list (option R)) : list R :=
  match series with
  | [] => []
  | Some n :: r => if JSReal.ltb 0 n then n :: positives r else positives r
  | None :: r => positives r
  end.

(** No record of [rows] in one of the years [peak] has a positive ratio. *)
Definition no_positive_ratio (peak : list Z) (rows : list (TidyRecord R)) : Prop :=
  forall r v, In r rows -> In (Year r) peak -> ValRev r = Some v -> (v <= 0)%R.

(* ================================================================== *)
(** * Samples for the page of the first variant *)

(** Two cohorts observed in different years. *)
Definition cohort_1999 : list (TidyRecord R) :=
  [mkRecord "Acme" 1999 None None (Some 2%R)].

Definition cohort_2024 : list (TidyRecord R) :=
  [mkRecord "Bolt" 2024 None None (Some 3%R)].

(** A memo of three years with both cohorts observed in the first and in
    the last: the dot-com ratio goes from 3 to 12, the Big Tech ratio from
    2 to 8. *)
Definition growth_sample : AlignedSeries :=
  mkAligned [2020; 2021; 2022]%Z
    [Some (ln 3); Some (ln 4); Some (ln 12)]
    [Some (ln 2); None; Some (ln 8)]
    [None; None; None].

(** What [align] puts at the position of a year. *)
Definition align_at (years : list Z) (values : list (option R)) (y : Z) : option R :=
  let map := JSMap.ofPairs Z.eqb (zipIndexAny years values 0) in
  if JSMap.has Z.eqb map y
  then match JSMap.get Z.eqb map y with
       | Some (Some v) => v
       | _ => None
       end
  else None.

(** The characters of [String(n)]: digits, after a minus sign when [n] is
    negative. *)
Definition is_numeral_char (c : ascii) : bool :=
  StringToNumber.is_digit c || Ascii.eqb c "-".

(** What holds of the state whatever the user did: the range is ordered,
    and every upload has a label, at least one row, and finite numbers
    only. *)
Definition state_ok (st : AppState) : Prop :=
  (fst (range st) <= snd (range st))%Z
  /\ Forall (fun u => fst u <> EmptyString
                      /\ snd u <> []
                      /\ Forall (fun row => isFinite (Upload.year row)
                                            && isFinite (Upload.value row) = true) (snd u))
            (uploads st).


(** Ratios of a peak: four positive ones out of order, a null and a
    negative one; and three positive ones out of order. *)
Definition ratios_sample : list (option R) :=
  [Some 3; None; Some 1; Some (-2); Some 2; Some 4]%R.

Definition ratios_odd : list (option R) := [Some 5; Some 1; Some 3]%R.

(* ================================================================== *)
(** * The scatter plot of the second variant *)

(** The three values [useBubbleData] gives the [Era] of a row, one per
    cohort. *)
Inductive EraName : Type :=
| DotComEra
| BigTechEra
| PurePlayEra.

Definition eraLabel (e : EraName) : string :=
  match e with
  | DotComEra => "Dot-com (1996-2000)"
  | BigTechEra => "Big Tech AI (2020-2025)"
  | PurePlayEra => "Pure-play AI (2020-2025)"
  end.

Definition eraEqb (a b : EraName) : bool :=
  match a, b with
  | DotComEra, DotComEra | BigTechEra, BigTechEra | PurePlayEra, PurePlayEra => true
  | _, _ => false
  end.

(** A row of the dashboard: [{ ...row, Era }]. *)
Record EraRow : Type := mkEraRow { Era : EraName; fields : TidyRecord R }.

(** [tidy.map((row) => ({ ...row, Era }))] *)
Definition withEra (e : EraName) (rows : list (TidyRecord R)) : list EraRow :=
  map (mkEraRow e) rows.

Record Point : Type := mkPoint { px : R; py : R }.

(** A dataset of the scatter plot: [{ label, points, ...markers[label] }]. *)
Record ScatterSet : Type := mkScatterSet {
  setLabel : string;
  points : list Point;
  color : string;
  shape : string
}.

(** [markers[label]] with the colours of [palette]. *)
Definition markers (e : EraName) : string * string :=
  match e with
  | DotComEra => ("#7c3aed", "rect")%string
  | BigTechEra => ("#22d3ee", "circle")%string
  | PurePlayEra => ("#10b981", "triangle")%string
  end.

(** The callback of [combined.reduce]: the object [acc] keeps its
    properties in the order they were first set, the three labels not
    being array indices. *)
Definition scatter_step (acc : @JSMap.t EraName (list Point)) (row : EraRow)
    : @JSMap.t EraName (list Point) :=
  match Revenue (fields row), MarketCap (fields row) with
  | Some rev, Some mc =>
      if negb (JSReal.truthy rev) || negb (JSReal.truthy mc)
         || JSReal.leb rev 0 || JSReal.leb mc 0
      then acc
      else
        let entry := match JSMap.get eraEqb acc (Era row) with
                     | Some e => e
                     | None => []
                     end in
        JSMap.set eraEqb acc (Era row) (entry ++ [mkPoint (ln rev) (ln mc)])
  | _, _ => acc
  end.

(** [scatterData] *)
Definition scatterData (dotcom aiPure aiNiche : list EraRow) : list ScatterSet :=
  let combined := dotcom ++ aiPure ++ aiNiche in
  map (fun lp => mkScatterSet (eraLabel (fst lp)) (snd lp)
                   (fst (markers (fst lp))) (snd (markers (fst lp))))
      (fold_left scatter_step combined []).

(** The points of the rows that have a positive revenue and a positive
    market cap, in row order. *)
Definition positivePoints (rows : list (TidyRecord R)) : list Point :=
  flat_map (fun r => match Revenue r, MarketCap r with
                     | Some rev, Some mc =>
                         if JSReal.ltb 0 rev && JSReal.ltb 0 mc
                         then [mkPoint (ln rev) (ln mc)] else []
                     | _, _ => []
                     end) rows.

(** The dataset of a cohort, when it has a point. *)
Definition cohortSet (e : EraName) (rows : list (TidyRecord R)) : list ScatterSet :=
  match positivePoints rows with
  | [] => []
  | pts => [mkScatterSet (eraLabel e) pts (fst (markers e)) (snd (markers e))]
  end.

(** The text of a small upload: one row, 2020 with the value 3. *)
Definition upload_sample : string := renderSeries [(Some 2020%Z, Some 3%Z)].
(* ================================================================== *)
(** * Lists and sums *)

Lemma fold_left_Rplus_acc (l : list R) (a : R) :
  fold_left Rplus l a = (a + fold_right Rplus 0 l)%R.
Proof.
  revert a; induction l as [|x l IH]; intros a; simpl.
  - lra.
  - rewrite IH. lra.
Qed.

Lemma average_spec_mean (l : list R) : JSReal.average l = spec_mean l.
Proof.
  unfold JSReal.average, JSReal.sum, spec_mean.
  rewrite fold_left_Rplus_acc. f_equal. lra.
Qed.

Lemma nth_error_mapIndexed {A B : Type} (f : nat -> A -> B) (l : list A) :
  forall k i, nth_error (mapIndexed f k l) i = option_map (f (k + i)%nat) (nth_error l i).
Proof.
  induction l as [|a l IH]; intros k i; destruct i; simpl; try reflexivity.
  - now rewrite Nat.add_0_r.
  - rewrite IH. now rewrite Nat.add_succ_r.
Qed.

Lemma length_mapIndexed {A B : Type} (f : nat -> A -> B) (l : list A) :
  forall k, List.length (mapIndexed f k l) = List.length l.
Proof. induction l; intros k; simpl; auto. Qed.

Lemma flat_map_seq_shift {B : Type} (f : nat -> list B) (i n : nat) :
  flat_map f (seq (S i) n) = flat_map (fun k => f (S k)) (seq i n).
Proof.
  revert i; induction n as [|n IH]; intros i; simpl; [reflexivity|].
  f_equal. apply IH.
Qed.

(** The slice of the code holds the elements at the positions [i..j-1]. *)
Lemma slice_seq {A : Type} (l : list A) :
  forall i j, (j <= List.length l)%nat ->
  slice i j l = flat_map (fun k => match nth_error l k with
                                   | Some a => [a]
                                   | None => []
                                   end) (seq i (j - i)).
Proof.
  unfold slice. induction l as [|a l IH]; intros i j Hj.
  - simpl in Hj. assert (j = 0)%nat by lia. subst. simpl.
    destruct i; reflexivity.
  - destruct j as [|j]; [now destruct i|]. simpl in Hj.
    destruct i as [|i].
    + simpl. f_equal. specialize (IH 0%nat j ltac:(lia)).
      simpl skipn in IH. rewrite Nat.sub_0_r in IH. rewrite IH.
      now rewrite flat_map_seq_shift.
    + simpl skipn. simpl Nat.sub. rewrite IH by lia.
      now rewrite flat_map_seq_shift.
Qed.

Lemma nonNull_flat_map (l : list nat) (x : list (option R)) :
  nonNull (flat_map (fun k => match nth_error x k with
                              | Some a => [a]
                              | None => []
                              end) l)
  = flat_map (fun j => match nth_error x j with
                       | Some (Some v) => [v]
                       | _ => []
                       end) l.
Proof.
  induction l as [|k l IH]; simpl; [reflexivity|].
  destruct (nth_error x k) as [[v|]|]; simpl; now rewrite IH.
Qed.

Lemma ceilHalf_eq (W : Z) : ceilHalf W = ((W + 1) / 2)%Z.
Proof.
  unfold ceilHalf.
  pose proof (Z.div_mod (- W) 2 ltac:(lia)).
  pose proof (Z.mod_pos_bound (- W) 2 ltac:(lia)).
  pose proof (Z.div_mod (W + 1) 2 ltac:(lia)).
  pose proof (Z.mod_pos_bound (W + 1) 2 ltac:(lia)).
  lia.
Qed.

(** The filtered slice of the code is the window of the specification. *)
Lemma code_window_is_spec_window (x : list (option R)) (W : Z) (i : nat) :
  nonNull (slice (Z.to_nat (Z.max 0 (Z.of_nat i - floorHalf W)))
                 (Z.to_nat (Z.min (Z.of_nat (List.length x)) (Z.of_nat i + ceilHalf W))) x)
  = spec_window x W i.
Proof.
  unfold spec_window, spec_window_lo, spec_window_hi, floorHalf.
  rewrite ceilHalf_eq, slice_seq by lia.
  apply nonNull_flat_map.
Qed.

(** A non-null source value lies in its own window. *)
Lemma own_value_in_window (x : list (option R)) (W : Z) (i : nat) (v : R) :
  (1 <= W)%Z -> nth_error x i = Some (Some v) -> In v (spec_window x W i).
Proof.
  intros HW Hi. unfold spec_window.
  apply in_flat_map. exists i. split.
  - assert (Hlen : (i < List.length x)%nat) by (apply nth_error_Some; congruence).
    apply in_seq. unfold spec_window_lo, spec_window_hi.
    assert (0 <= W / 2)%Z by (apply Z.div_pos; lia).
    assert (1 <= (W + 1) / 2)%Z by (apply Z.div_le_lower_bound; lia).
    lia.
  - rewrite Hi. now left.
Qed.

Lemma movingAverage_at_some (x : list (option R)) (W : Z) (i : nat) (v : R) :
  (1 <= W)%Z -> nth_error x i = Some (Some v) ->
  movingAverage_at W x i (Some v)
  = Some (JSReal.toFixed4 (spec_mean (spec_window x W i))).
Proof.
  intros HW Hi. unfold movingAverage_at.
  rewrite code_window_is_spec_window.
  pose proof (own_value_in_window x W i v HW Hi) as Hin.
  destruct (spec_window x W i) as [|w ws] eqn:E; [destruct Hin|].
  now rewrite average_spec_mean.
Qed.

(* ================================================================== *)
(** * Rounding to four decimals *)

Lemma toFixed4_small (x : R) :
  (Rabs x < 10 ^ 21)%R ->
  JSReal.toFixed4 x
  = (if Rlt_dec x 0 then - (IZR (Zfloor (Rabs x * 10 ^ 4 + / 2)) / 10 ^ 4)
     else IZR (Zfloor (Rabs x * 10 ^ 4 + / 2)) / 10 ^ 4)%R.
Proof.
  intros H. unfold JSReal.toFixed4.
  destruct (Rle_dec (10 ^ 21) (Rabs x)); [lra|reflexivity].
Qed.

(** Below 10^21 the result is a multiple of 1/10^4 at distance at most
    1/20000 from the argument. *)
Lemma toFixed4_rounds (x : R) :
  (Rabs x < 10 ^ 21)%R ->
  (exists n : Z, JSReal.toFixed4 x = IZR n / 10 ^ 4)%R
  /\ (Rabs (JSReal.toFixed4 x - x) <= / 20000)%R.
Proof.
  intros H. rewrite (toFixed4_small x H).
  set (n := Zfloor (Rabs x * 10 ^ 4 + / 2)).
  pose proof (Zfloor_bound (Rabs x * 10 ^ 4 + / 2)) as Hb. fold n in Hb.
  destruct (Rlt_dec x 0) as [Hneg|Hpos].
  - split.
    + exists (- n)%Z. rewrite opp_IZR. lra.
    + rewrite (Rabs_left x Hneg) in Hb. apply Rabs_le. lra.
  - split.
    + now exists n.
    + rewrite (Rabs_right x) in Hb by lra. apply Rabs_le. lra.
Qed.

Lemma toFixed4_third : JSReal.toFixed4 (1 / 3) = (3333 / 10000)%R.
Proof.
  assert (Ha : Rabs (1 / 3) = (1 / 3)%R) by (apply Rabs_right; lra).
  rewrite toFixed4_small by (rewrite Ha; lra).
  destruct (Rlt_dec (1 / 3) 0) as [Hneg|_]; [lra|].
  rewrite Ha, (Zfloor_eq 3333) by lra. lra.
Qed.

(** A decimal with at most four fraction digits is left as it is. *)
Lemma toFixed4_decimal (n : Z) :
  (Z.abs n < 10 ^ 25)%Z -> JSReal.toFixed4 (IZR n / 10 ^ 4) = (IZR n / 10 ^ 4)%R.
Proof.
  intros Hn.
  assert (Habs : Rabs (IZR n / 10 ^ 4) = (IZR (Z.abs n) / 10 ^ 4)%R).
  { unfold Rdiv. rewrite Rabs_mult, <- abs_IZR. f_equal. apply Rabs_right.
    assert (0 < / 10 ^ 4)%R by (apply Rinv_0_lt_compat; lra). lra. }
  assert (Hlt : (IZR (Z.abs n) < 10 ^ 25)%R).
  { apply IZR_lt in Hn.
    replace (IZR (10 ^ 25)) with (10 ^ 25)%R in Hn; [exact Hn|].
    change (10 ^ 25)%Z with (10 ^ Z.of_nat 25)%Z. now rewrite <- pow_IZR. }
  rewrite toFixed4_small by (rewrite Habs; lra).
  rewrite Habs.
  replace (IZR (Z.abs n) / 10 ^ 4 * 10 ^ 4 + / 2)%R with (IZR (Z.abs n) + / 2)%R by (field; lra).
  rewrite (Zfloor_eq (Z.abs n)) by lra.
  destruct (Rlt_dec (IZR n / 10 ^ 4) 0) as [Hneg|Hpos].
  - assert (IZR n < 0)%R by nra. apply lt_IZR in H.
    rewrite Z.abs_neq by lia. rewrite opp_IZR. lra.
  - assert (0 <= IZR n)%R by nra. apply le_IZR in H.
    now rewrite Z.abs_eq by lia.
Qed.

(* ================================================================== *)
(** * Smoother *)

Lemma nth_error_movingAverage (x : list (option R)) (W : Z) (i : nat) :
  (1 < W)%Z ->
  nth_error (movingAverage x W) i
  = option_map (movingAverage_at W x i) (nth_error x i).
Proof.
  intros HW. unfold movingAverage.
  destruct (Z.leb_spec W 1) as [Hle|_]; [lia|].
  now rewrite nth_error_mapIndexed.
Qed.

Lemma movingAverage_le_one (x : list (option R)) (W : Z) :
  (W <= 1)%Z -> movingAverage x W = x.
Proof.
  intros HW. unfold movingAverage. destruct (Z.leb_spec W 1); [reflexivity|lia].
Qed.

Lemma spec_window_one (x : list (option R)) (i : nat) (v : R) :
  nth_error x i = Some (Some v) -> spec_window x 1 i = [v].
Proof.
  intros Hi. unfold spec_window, spec_window_lo, spec_window_hi.
  assert (Hlen : (i < List.length x)%nat) by (apply nth_error_Some; congruence).
  change (1 / 2)%Z with 0%Z. change ((1 + 1) / 2)%Z with 1%Z.
  replace (Z.to_nat (Z.max 0 (Z.of_nat i - 0))) with i by lia.
  replace (Z.to_nat (Z.min (Z.of_nat (List.length x)) (Z.of_nat i + 1)) - i)%nat
    with 1%nat by lia.
  simpl. now rewrite Hi.
Qed.

Lemma spec_mean_single (v : R) : spec_mean [v] = v.
Proof. unfold spec_mean. simpl. lra. Qed.

Lemma smoother_example_window : spec_window smoother_example 3 1 = [0; 0; 1]%R.
Proof. reflexivity. Qed.

Lemma smoother_example_mean :
  spec_mean (spec_window smoother_example 3 1) = (1 / 3)%R.
Proof. rewrite smoother_example_window. unfold spec_mean. simpl. lra. Qed.

(** C9. Smoothing with window size 1 returns the input sequence unchanged,
    nulls included. *)
Theorem movingAverage_window_one_identity (x : list (option R)) :
  movingAverage x 1 = x.
Proof. reflexivity. Qed.

(** C10. At every position the output of [movingAverage] is null exactly
    when the input is null there; for a window above 1 a non-null source
    value belongs to the filtered slice of its own window, so the slice is
    never empty and the branch [if (!slice.length) return null] is not
    taken. *)
Theorem movingAverage_null_iff_source_null (x : list (option R)) (W : Z) (i : nat) :
  (nth_error (movingAverage x W) i = Some None <-> nth_error x i = Some None)
  /\ (forall v, (1 < W)%Z -> nth_error x i = Some (Some v) ->
        In v (nonNull (slice
               (Z.to_nat (Z.max 0 (Z.of_nat i - floorHalf W)))
               (Z.to_nat (Z.min (Z.of_nat (List.length x)) (Z.of_nat i + ceilHalf W)))
               x))).
Proof.
  split.
  - destruct (Z.leb_spec W 1) as [Hle|Hgt].
    + rewrite movingAverage_le_one by assumption. tauto.
    + rewrite nth_error_movingAverage by assumption.
      destruct (nth_error x i) as [[v|]|] eqn:E; cbn [option_map].
      * rewrite (movingAverage_at_some x W i v) by (assumption || lia).
        split; discriminate.
      * tauto.
      * split; discriminate.
  - intros v HW Hi. rewrite code_window_is_spec_window.
    apply own_value_in_window; [lia|assumption].
Qed.

Lemma movingAverage_null_iff_source_null_witness :
  In 1%R (nonNull (slice
           (Z.to_nat (Z.max 0 (Z.of_nat 2 - floorHalf 3)))
           (Z.to_nat (Z.min (Z.of_nat (List.length smoother_example)) (Z.of_nat 2 + ceilHalf 3)))
           smoother_example)).
Proof.
  apply (proj2 (movingAverage_null_iff_source_null smoother_example 3 2) 1%R).
  - lia.
  - reflexivity.
Defined.

(** C3, as the code has it, with every number read as the real it stands
    for. For a window size W >= 1 the result has the length of the input; a
    null source value stays null; at a non-null source value the clipped
    window is not empty and the result is the arithmetic mean of its
    non-null values, rounded to four decimals by [Number(avg.toFixed(4))]
    when W >= 2 and exact when W = 1 (the input is returned as it is).
    The mean is the exact real mean: the binary64 rounding of the sum and
    of the quotient is not modelled, so where the exact mean lies within
    that rounding error of a fifth-decimal tie the code may return the
    neighbouring four-decimal value. *)
Theorem movingAverage_rounded_window_mean (x : list (option R)) (W : Z) :
  (1 <= W)%Z ->
  List.length (movingAverage x W) = List.length x
  /\ (forall i, nth_error x i = Some None ->
        nth_error (movingAverage x W) i = Some None)
  /\ (forall i v, nth_error x i = Some (Some v) ->
        spec_window x W i <> []
        /\ nth_error (movingAverage x W) i
           = Some (Some (if (W =? 1)%Z then spec_mean (spec_window x W i)
                         else JSReal.toFixed4 (spec_mean (spec_window x W i)))))
  /\ (forall m : R, (Rabs m < 10 ^ 21)%R ->
        (exists n : Z, JSReal.toFixed4 m = IZR n / 10 ^ 4)%R
        /\ (Rabs (JSReal.toFixed4 m - m) <= / 20000)%R).
Proof.
  intros HW. repeat split.
  - unfold movingAverage. destruct (W <=? 1)%Z; [reflexivity|].
    apply length_mapIndexed.
  - intros i Hi. destruct (Z.eq_dec W 1) as [->|Hne].
    { now rewrite movingAverage_le_one by lia. }
    rewrite nth_error_movingAverage by lia. now rewrite Hi.
  - pose proof (own_value_in_window x W i v HW H) as Hin.
    intros E. rewrite E in Hin. destruct Hin.
  - destruct (Z.eqb_spec W 1) as [->|Hne].
    + rewrite movingAverage_le_one by lia.
      now rewrite (spec_window_one x i v H), spec_mean_single.
    + rewrite nth_error_movingAverage by lia. rewrite H. cbn [option_map].
      now rewrite (movingAverage_at_some x W i v HW H).
  - apply toFixed4_rounds; assumption.
  - apply toFixed4_rounds; assumption.
Qed.

Lemma movingAverage_rounded_window_mean_witness :
  (1 <= 3)%Z
  /\ nth_error (movingAverage smoother_sample 3) 3 = Some None
  /\ nth_error (movingAverage smoother_example 3) 1
     = Some (Some (JSReal.toFixed4 (spec_mean (spec_window smoother_example 3 1))))
  /\ (Rabs (JSReal.toFixed4 (1 / 3) - 1 / 3) <= / 20000)%R.
Proof.
  assert (HW : (1 <= 3)%Z) by lia.
  split; [exact HW|]. split; [|split].
  - apply (proj1 (proj2 (movingAverage_rounded_window_mean smoother_sample 3 HW)) 3%nat).
    reflexivity.
  - apply (proj1 (proj2 (proj2
             (movingAverage_rounded_window_mean smoother_example 3 HW))) 1%nat 0%R).
    reflexivity.
  - apply (proj2 (proj2 (proj2
             (movingAverage_rounded_window_mean smoother_example 3 HW))) (1 / 3)%R).
    rewrite Rabs_right; lra.
Defined.

(** C3, as stated, fails: over [0, 0, 1] with window 3 the mean of the
    window of position 1 is 1/3, and the code returns 0.3333. *)
Lemma movingAverage_not_exact_mean :
  nth_error (movingAverage smoother_example 3) 1 = Some (Some (3333 / 10000)%R)
  /\ spec_smoothed smoother_example 3 1 = Some (1 / 3)%R
  /\ (3333 / 10000)%R <> (1 / 3)%R.
Proof.
  split; [|split].
  - rewrite nth_error_movingAverage by lia.
    change (nth_error smoother_example 1) with (Some (Some 0%R)).
    cbn [option_map].
    rewrite (movingAverage_at_some smoother_example 3 1 0%R) by (lia || reflexivity).
    now rewrite smoother_example_mean, toFixed4_third.
  - unfold spec_smoothed.
    change (nth_error smoother_example 1) with (Some (Some 0%R)).
    pose proof smoother_example_mean as Hm.
    rewrite smoother_example_window in *. now rewrite Hm.
  - lra.
Qed.

(** The sample of the specification with window 3: position 3 stays null,
    and position 4 averages the only non-null value of its window, 5. *)
Lemma movingAverage_sample :
  movingAverage smoother_sample 3
  = [Some (3 / 2)%R; Some 2%R; Some (5 / 2)%R; None; Some 5%R].
Proof.
  unfold movingAverage, smoother_sample.
  change (3 <=? 1)%Z with false. cbn [mapIndexed].
  rewrite !movingAverage_at_some by (lia || reflexivity).
  fold smoother_sample.
  change (spec_window smoother_sample 3 0) with [1; 2]%R.
  change (spec_window smoother_sample 3 1) with [1; 2; 3]%R.
  change (spec_window smoother_sample 3 2) with [2; 3]%R.
  change (spec_window smoother_sample 3 4) with [5]%R.
  unfold spec_mean. cbn [fold_right List.length INR].
  replace ((1 + (2 + 0)) / (1 + 1))%R with (IZR 15000 / 10 ^ 4)%R by lra.
  replace ((1 + (2 + (3 + 0))) / (1 + 1 + 1))%R with (IZR 20000 / 10 ^ 4)%R by lra.
  replace ((2 + (3 + 0)) / (1 + 1))%R with (IZR 25000 / 10 ^ 4)%R by lra.
  replace ((5 + 0) / 1)%R with (IZR 50000 / 10 ^ 4)%R by lra.
  rewrite !toFixed4_decimal by lia.
  repeat (f_equal; try lra).
Qed.

(* ================================================================== *)
(** * Maps *)

Section JSMapFacts.
Context {K V : Type}.
Variable eqb : K -> K -> bool.
Hypothesis eqb_spec : forall a b, eqb a b = true <-> a = b.

Implicit Types (m : @JSMap.t K V) (k : K) (v : V).

Lemma eqb_refl (a : K) : eqb a a = true.
Proof. now apply eqb_spec. Qed.

Lemma eqb_neq (a b : K) : a <> b -> eqb a b = false.
Proof.
  intros H. destruct (eqb a b) eqn:E; [|reflexivity].
  apply eqb_spec in E. contradiction.
Qed.

Lemma get_set_same m (k : K) (v : V) : JSMap.get eqb (JSMap.set eqb m k v) k = Some v.
Proof.
  induction m as [|[k' v'] m IH]; simpl.
  - now rewrite eqb_refl.
  - destruct (eqb k' k) eqn:E; simpl; rewrite E; [reflexivity|exact IH].
Qed.

Lemma get_set_other m (k k' : K) (v : V) :
  k <> k' -> JSMap.get eqb (JSMap.set eqb m k v) k' = JSMap.get eqb m k'.
Proof.
  intros Hne. induction m as [|[k0 v0] m IH]; simpl.
  - now rewrite eqb_neq.
  - destruct (eqb k0 k) eqn:E; simpl.
    + apply eqb_spec in E. subst k0. now rewrite eqb_neq.
    + now rewrite IH.
Qed.

Lemma get_None_keys m (k : K) : JSMap.get eqb m k = None <-> ~ In k (JSMap.keys m).
Proof.
  induction m as [|[k' v'] m IH]; simpl.
  - tauto.
  - destruct (eqb k' k) eqn:E.
    + apply eqb_spec in E. split; [discriminate|]. intros H. exfalso. auto.
    + rewrite IH. split.
      * intros H [H1|H1]; [|auto]. subst. rewrite eqb_refl in E. discriminate.
      * tauto.
Qed.

Lemma get_Some_keys m (k : K) : (exists v, JSMap.get eqb m k = Some v) <-> In k (JSMap.keys m).
Proof.
  induction m as [|[k' v'] m IH]; simpl.
  - split; [intros [v Hv]; discriminate|tauto].
  - destruct (eqb k' k) eqn:E.
    + apply eqb_spec in E. split; [auto|]. intros _. now exists v'.
    + rewrite IH. split; [tauto|]. intros [H1|H1]; [|assumption].
      subst. rewrite eqb_refl in E. discriminate.
Qed.

Lemma keys_set m (k : K) (v : V) :
  JSMap.keys (JSMap.set eqb m k v) = if JSMap.has eqb m k then JSMap.keys m else JSMap.keys m ++ [k].
Proof.
  unfold JSMap.has. induction m as [|[k' v'] m IH]; simpl; [reflexivity|].
  destruct (eqb k' k) eqn:E; simpl; [reflexivity|].
  rewrite IH. now destruct (JSMap.get eqb m k).
Qed.

Lemma set_set m (k : K) (v w : V) : JSMap.set eqb (JSMap.set eqb m k v) k w = JSMap.set eqb m k w.
Proof.
  induction m as [|[k' v'] m IH]; simpl.
  - now rewrite eqb_refl.
  - destruct (eqb k' k) eqn:E; simpl; rewrite E; [reflexivity|now rewrite IH].
Qed.

Lemma NoDup_keys_set m (k : K) (v : V) :
  NoDup (JSMap.keys m) -> NoDup (JSMap.keys (JSMap.set eqb m k v)).
Proof.
  intros Hnd. rewrite keys_set. unfold JSMap.has.
  destruct (JSMap.get eqb m k) eqn:E; [assumption|].
  apply get_None_keys in E.
  apply NoDup_app; [assumption|repeat constructor; auto|].
  intros a Ha [<-|[]]. exact (E Ha).
Qed.
End JSMapFacts.

(* ================================================================== *)
(** * Sorting and sets of years *)

Lemma insertNum_perm (x : Z) (l : list Z) : Permutation (insertNum x l) (x :: l).
Proof.
  induction l as [|y l IH]; simpl; [reflexivity|].
  destruct (x <? y)%Z; [reflexivity|].
  rewrite IH. apply perm_swap.
Qed.

Lemma sortNum_perm (l : list Z) : Permutation (sortNum l) l.
Proof.
  induction l as [|x l IH]; simpl; [reflexivity|].
  rewrite insertNum_perm. now constructor.
Qed.

Lemma insertNum_sorted (x : Z) (l : list Z) :
  StronglySorted Z.le l -> StronglySorted Z.le (insertNum x l).
Proof.
  induction 1 as [|y l Hs IH Hall]; simpl.
  - repeat constructor.
  - destruct (Z.ltb_spec x y) as [Hlt|Hge].
    + constructor; [now constructor|].
      constructor; [lia|].
      eapply Forall_impl; [|exact Hall]. simpl; intros; lia.
    + constructor; [assumption|].
      eapply Permutation_Forall; [symmetry; apply insertNum_perm|].
      constructor; [lia|assumption].
Qed.

Lemma sortNum_sorted (l : list Z) : StronglySorted Z.le (sortNum l).
Proof.
  induction l as [|x l IH]; simpl; [constructor|now apply insertNum_sorted].
Qed.

Lemma sorted_NoDup_strict (l : list Z) :
  StronglySorted Z.le l -> NoDup l -> StronglySorted Z.lt l.
Proof.
  induction 1 as [|y l Hs IH Hall]; intros Hnd; [constructor|].
  inversion Hnd as [|? ? Hnotin Hnd']; subst.
  constructor; [auto|].
  rewrite Forall_forall in *. intros z Hz.
  specialize (Hall z Hz). assert (z <> y) by (intros ->; auto). lia.
Qed.

Lemma sortNum_strict (l : list Z) : NoDup l -> StronglySorted Z.lt (sortNum l).
Proof.
  intros Hnd. apply sorted_NoDup_strict; [apply sortNum_sorted|].
  eapply Permutation_NoDup; [symmetry; apply sortNum_perm|assumption].
Qed.

Lemma sortNum_In (l : list Z) (y : Z) : In y (sortNum l) <-> In y l.
Proof.
  split; apply Permutation_in; [|symmetry]; apply sortNum_perm.
Qed.

Lemma existsb_eqb_In (x : Z) (l : list Z) : existsb (Z.eqb x) l = true <-> In x l.
Proof.
  rewrite existsb_exists. split.
  - intros [y [Hy E]]. apply Z.eqb_eq in E. now subst.
  - intros H. exists x. split; [assumption|apply Z.eqb_refl].
Qed.

Lemma setOf_In (l seen : list Z) (y : Z) :
  In y (setOf seen l) <-> In y l /\ ~ In y seen.
Proof.
  revert seen; induction l as [|x l IH]; intros seen; simpl; [tauto|].
  destruct (existsb (Z.eqb x) seen) eqn:E.
  - apply existsb_eqb_In in E. rewrite IH. split; [tauto|].
    intros [[->|H] Hn]; tauto.
  - assert (Hx : ~ In x seen).
    { intros H. apply existsb_eqb_In in H. congruence. }
    simpl. rewrite IH. simpl. split.
    + intros [->|[H1 H2]]; tauto.
    + intros [[->|H1] H2]; [now left|].
      destruct (Z.eq_dec x y); [now left|right; tauto].
Qed.

Lemma setOf_NoDup (l seen : list Z) : NoDup (setOf seen l).
Proof.
  revert seen; induction l as [|x l IH]; intros seen; simpl; [constructor|].
  destruct (existsb (Z.eqb x) seen); [apply IH|].
  constructor; [|apply IH].
  rewrite setOf_In. simpl. tauto.
Qed.

(* ================================================================== *)
(** * Log aggregator *)

Lemma valid_tests_agree (v : R) :
  JSReal.truthy v && JSReal.ltb 0 v = negb (negb (JSReal.truthy v) || JSReal.leb v 0).
Proof.
  unfold JSReal.truthy, JSReal.ltb, JSReal.leb.
  destruct (Req_dec_T v 0), (Rlt_dec 0 v), (Rle_dec v 0); simpl; try reflexivity; lra.
Qed.

Lemma skip_test_ltb (v : R) :
  negb (JSReal.truthy v) || JSReal.leb v 0 = negb (JSReal.ltb 0 v).
Proof.
  unfold JSReal.truthy, JSReal.ltb, JSReal.leb.
  destruct (Req_dec_T v 0), (Rlt_dec 0 v), (Rle_dec v 0); simpl; try reflexivity; lra.
Qed.

Lemma ltb_true_iff (x y : R) : JSReal.ltb x y = true <-> (x < y)%R.
Proof.
  unfold JSReal.ltb. destruct (Rlt_dec x y); split; auto; discriminate.
Qed.

(** The two variants of the grouping step do the same. *)
Lemma computeAvgLogPsByYear_step_eq (m : ByYear) (r : TidyRecord R) :
  computeAvgLogPsByYear_step m r = Some (groupMeanByYear_step m r).
Proof.
  unfold computeAvgLogPsByYear_step, groupMeanByYear_step.
  destruct (ValRev r) as [v|]; [|reflexivity].
  rewrite valid_tests_agree.
  destruct (negb (JSReal.truthy v) || JSReal.leb v 0); simpl; [reflexivity|].
  unfold JSMap.has.
  destruct (JSMap.get Z.eqb m (Year r)) as [arr|] eqn:E; simpl.
  - now rewrite E.
  - rewrite (get_set_same Z.eqb Z.eqb_eq).
    now rewrite (set_set Z.eqb Z.eqb_eq).
Qed.

Lemma foldT_computeAvgLogPsByYear_step (records : list (TidyRecord R)) :
  forall m, foldT computeAvgLogPsByYear_step records m
            = Some (fold_left groupMeanByYear_step records m).
Proof.
  induction records as [|r rs IH]; intros m; simpl; [reflexivity|].
  rewrite computeAvgLogPsByYear_step_eq. simpl. apply IH.
Qed.

Lemma spec_group_app (a b : list (TidyRecord R)) (y : Z) :
  spec_group (a ++ b) y = spec_group a y ++ spec_group b y.
Proof. unfold spec_group. apply flat_map_app. Qed.

Lemma spec_group_In (records : list (TidyRecord R)) (y : Z) (v : R) :
  In v (spec_group records y)
  <-> exists r, In r records /\ Year r = y /\ ValRev r = Some v /\ (0 < v)%R.
Proof.
  unfold spec_group. rewrite in_flat_map. split.
  - intros [r [Hr Hv]]. exists r. split; [assumption|].
    destruct (ValRev r) as [w|]; [|destruct Hv].
    destruct (JSReal.ltb 0 w) eqn:E1; simpl in Hv; [|destruct Hv].
    destruct (Z.eqb_spec (Year r) y) as [Hy|]; [|destruct Hv].
    destruct Hv as [<-|[]]. apply ltb_true_iff in E1. auto.
  - intros [r [Hr [Hy [Hv Hpos]]]]. exists r. split; [assumption|].
    rewrite Hv. apply ltb_true_iff in Hpos. rewrite Hpos.
    subst y. rewrite Z.eqb_refl. now left.
Qed.

Lemma groups_of_step (rs : list (TidyRecord R)) (m : ByYear) (r : TidyRecord R) :
  groups_of rs m -> groups_of (rs ++ [r]) (groupMeanByYear_step m r).
Proof.
  intros [Hnd Hget]. unfold groupMeanByYear_step.
  assert (Hskip : (forall y, spec_group [r] y = []) -> groups_of (rs ++ [r]) m).
  { intros H. split; [assumption|]. intros y.
    now rewrite spec_group_app, H, app_nil_r. }
  destruct (ValRev r) as [v|] eqn:Ev.
  - rewrite skip_test_ltb.
    destruct (JSReal.ltb 0 v) eqn:Epos; simpl.
    + split; [now apply (NoDup_keys_set Z.eqb Z.eqb_eq)|].
      intros y. rewrite spec_group_app.
      unfold spec_group at 2. simpl. rewrite Ev, Epos, app_nil_r. simpl.
      destruct (Z.eqb_spec (Year r) y) as [<-|Hne].
      * rewrite (get_set_same Z.eqb Z.eqb_eq), Hget.
        destruct (spec_group rs (Year r)); reflexivity.
      * rewrite (get_set_other Z.eqb Z.eqb_eq) by assumption.
        now rewrite app_nil_r.
    + apply Hskip. intros y. unfold spec_group. simpl. now rewrite Ev, Epos.
  - apply Hskip. intros y. unfold spec_group. simpl. now rewrite Ev.
Qed.

Lemma groups_of_fold (rs : list (TidyRecord R)) :
  forall pre m, groups_of pre m ->
  groups_of (pre ++ rs) (fold_left groupMeanByYear_step rs m).
Proof.
  induction rs as [|r rs IH]; intros pre m H; simpl.
  - now rewrite app_nil_r.
  - replace (pre ++ r :: rs) with ((pre ++ [r]) ++ rs) by (now rewrite <- app_assoc).
    apply IH. now apply groups_of_step.
Qed.

Lemma groups_of_records (records : list (TidyRecord R)) :
  groups_of records (fold_left groupMeanByYear_step records []).
Proof.
  apply (groups_of_fold records [] []). split; [constructor|reflexivity].
Qed.

Lemma mapT_logOfMean (rs : list (TidyRecord R)) (m : ByYear) (ys : list Z) :
  groups_of rs m -> (forall y, In y ys -> In y (JSMap.keys m)) ->
  mapT (logOfMean m) ys = Some (map (fun y => ln (spec_mean (spec_group rs y))) ys).
Proof.
  intros [_ Hget] Hin. induction ys as [|y ys IH]; simpl; [reflexivity|].
  rewrite IH by (intros; apply Hin; now right).
  unfold logOfMean.
  assert (Hy : In y (JSMap.keys m)) by (apply Hin; now left).
  apply (get_Some_keys Z.eqb Z.eqb_eq) in Hy. destruct Hy as [arr Harr].
  rewrite Harr. rewrite Hget in Harr.
  destruct (spec_group rs y) as [|g gs] eqn:E; [discriminate|].
  injection Harr as <-. simpl. now rewrite average_spec_mean.
Qed.

Lemma spec_group_nonempty_valid (records : list (TidyRecord R)) (y : Z) :
  spec_group records y <> []
  <-> exists r, In r records /\ Year r = y /\ spec_valid r.
Proof.
  split.
  - destruct (spec_group records y) as [|v g] eqn:E; [congruence|]. intros _.
    assert (Hin : In v (spec_group records y)) by (rewrite E; now left).
    apply spec_group_In in Hin. destruct Hin as [r [Hr [Hy [Hv Hpos]]]].
    exists r. repeat split; try assumption. now exists v.
  - intros [r [Hr [Hy [v [Hv Hpos]]]]] E.
    assert (Hin : In v (spec_group records y)).
    { apply spec_group_In. exists r. auto. }
    rewrite E in Hin. destruct Hin.
Qed.

Lemma groups_of_keys (rs : list (TidyRecord R)) (m : ByYear) (y : Z) :
  groups_of rs m -> (In y (JSMap.keys m) <-> spec_group rs y <> []).
Proof.
  intros [_ Hget]. rewrite <- (get_Some_keys Z.eqb Z.eqb_eq), Hget.
  destruct (spec_group rs y) as [|v g].
  - split; [intros [w Hw]; discriminate|congruence].
  - split; [discriminate|]. intros _. now exists (v :: g).
Qed.

(** Both variants return the series of the surviving ratios. *)
Lemma aggregator_returns_series (records : list (TidyRecord R)) :
  exists s : YearSeries,
    computeAvgLogPsByYear records = Some s
    /\ groupMeanByYear records = Some s
    /\ StronglySorted Z.lt (years s)
    /\ (forall y, In y (years s)
                  <-> exists r, In r records /\ Year r = y /\ spec_valid r)
    /\ (forall y v, In v (spec_group records y)
                    <-> exists r, In r records /\ Year r = y
                                  /\ ValRev r = Some v /\ (0 < v)%R)
    /\ values s = map (fun y => ln (spec_mean (spec_group records y))) (years s)
    /\ ((forall r, In r records -> ~ spec_valid r) -> s = mkSeries [] []).
Proof.
  pose proof (groups_of_records records) as Hg.
  set (m := fold_left groupMeanByYear_step records []) in *.
  set (ys := sortNum (JSMap.keys m)).
  assert (Hvals : mapT (logOfMean m) ys
                  = Some (map (fun y => ln (spec_mean (spec_group records y))) ys)).
  { apply mapT_logOfMean; [assumption|]. intros y Hy. exact (proj1 (sortNum_In _ _) Hy). }
  assert (Hyears : forall y, In y ys
             <-> exists r, In r records /\ Year r = y /\ spec_valid r).
  { intros y. unfold ys. rewrite sortNum_In, (groups_of_keys records m y Hg).
    apply spec_group_nonempty_valid. }
  exists (mkSeries ys (map (fun y => ln (spec_mean (spec_group records y))) ys)).
  repeat split.
  - unfold computeAvgLogPsByYear.
    rewrite foldT_computeAvgLogPsByYear_step. fold m. simpl. fold ys.
    now rewrite Hvals.
  - unfold groupMeanByYear. cbv zeta. fold m. fold ys. now rewrite Hvals.
  - simpl. apply sortNum_strict. apply Hg.
  - apply Hyears.
  - apply Hyears.
  - apply spec_group_In.
  - apply spec_group_In.
  - intros Hnone. destruct ys as [|y ys'] eqn:E; [reflexivity|].
    exfalso. destruct (proj1 (Hyears y) (or_introl eq_refl)) as [r [Hr [_ Hv]]].
    exact (Hnone r Hr Hv).
Qed.

(** C1. Both variants of the mean-mode aggregator return (they never
    throw) the same series: its years are strictly ascending, they are
    exactly the years of the records whose ratio is present and positive,
    the value of each year is the natural log of the arithmetic mean of
    that year's surviving ratios, and records without any valid ratio give
    the empty series. *)
Theorem log_aggregator_mean_mode (records : list (TidyRecord R)) :
  exists s : YearSeries,
    computeAvgLogPsByYear records = Some s
    /\ groupMeanByYear records = Some s
    /\ StronglySorted Z.lt (years s)
    /\ (forall y, In y (years s)
                  <-> exists r, In r records /\ Year r = y /\ spec_valid r)
    /\ (forall y v, In v (spec_group records y)
                    <-> exists r, In r records /\ Year r = y
                                  /\ ValRev r = Some v /\ (0 < v)%R)
    /\ values s = map (fun y => ln (spec_mean (spec_group records y))) (years s)
    /\ ((forall r, In r records -> ~ spec_valid r) -> s = mkSeries [] []).
Proof. exact (aggregator_returns_series records). Qed.

Lemma log_aggregator_mean_mode_witness :
  computeAvgLogPsByYear aggregator_blank = Some (mkSeries [] []).
Proof.
  destruct (log_aggregator_mean_mode aggregator_blank)
    as (s & Hs & _ & _ & _ & _ & _ & Hempty).
  rewrite Hs. f_equal. apply Hempty.
  intros r [<-|[<-|[]]] [v [Hv Hpos]]; simpl in Hv.
  - discriminate.
  - injection Hv as <-. lra.
Defined.

Lemma ltb_false_iff (x y : R) : JSReal.ltb x y = false <-> ~ (x < y)%R.
Proof.
  unfold JSReal.ltb. destruct (Rlt_dec x y); split; auto; try discriminate. tauto.
Qed.

Lemma groupMeanByYear_step_valid (m : ByYear) (c : string) (y : Z) (a b : option R) (v : R) :
  (0 < v)%R ->
  groupMeanByYear_step m (mkRecord c y a b (Some v))
  = JSMap.set Z.eqb m y
      (match JSMap.get Z.eqb m y with Some arr => arr | None => [] end ++ [v]).
Proof.
  intros H. unfold groupMeanByYear_step. simpl.
  rewrite skip_test_ltb, (proj2 (ltb_true_iff 0 v) H). reflexivity.
Qed.

Lemma groupMeanByYear_step_invalid (m : ByYear) (c : string) (y : Z) (a b : option R) (v : R) :
  (v <= 0)%R -> groupMeanByYear_step m (mkRecord c y a b (Some v)) = m.
Proof.
  intros H. unfold groupMeanByYear_step. simpl.
  rewrite skip_test_ltb, (proj2 (ltb_false_iff 0 v)) by lra. reflexivity.
Qed.

(** The aggregate of the sample: 0 and -5 are left out of 2020, the mean of
    10 and 30 is logged for 2021, and 2022 has no entry. *)
Lemma groupMeanByYear_example :
  groupMeanByYear aggregator_example = Some (mkSeries [2020; 2021]%Z [ln 10; ln 20]).
Proof.
  unfold groupMeanByYear, aggregator_example.
  agg_step. rewrite groupMeanByYear_step_valid by lra. cbn [JSMap.get JSMap.set app].
  agg_step. rewrite groupMeanByYear_step_invalid by lra.
  agg_step. rewrite groupMeanByYear_step_invalid by lra.
  agg_step. rewrite groupMeanByYear_step_valid by lra.
  cbn [JSMap.get JSMap.set app Z.eqb Pos.eqb].
  agg_step. rewrite groupMeanByYear_step_valid by lra.
  cbn [JSMap.get JSMap.set app Z.eqb Pos.eqb].
  agg_step. unfold groupMeanByYear_step. cbn [ValRev fold_left].
  cbn [JSMap.keys map fst sortNum fold_right insertNum Z.ltb Z.compare Pos.compare Pos.compare_cont].
  cbn [mapT bindT logOfMean JSMap.get Z.eqb Pos.eqb].
  unfold JSReal.average, JSReal.sum. cbn [fold_left List.length INR].
  do 3 f_equal; [|f_equal]; f_equal; lra.
Qed.

(* ================================================================== *)
(** * Series aligner *)

Lemma strict_sorted_NoDup (l : list Z) : StronglySorted Z.lt l -> NoDup l.
Proof.
  induction 1 as [|y l Hs IH Hall]; constructor; [|assumption].
  intros Hin. rewrite Forall_forall in Hall. specialize (Hall y Hin). lia.
Qed.

Lemma ofPairs_get_other (pairs : list (Z * option R)) (y : Z) :
  forall m0, ~ In y (map fst pairs) ->
  JSMap.get Z.eqb (fold_left (fun m kv => JSMap.set Z.eqb m (fst kv) (snd kv)) pairs m0) y
  = JSMap.get Z.eqb m0 y.
Proof.
  induction pairs as [|[k v] ps IH]; intros m0 Hout; simpl; [reflexivity|].
  simpl in Hout. rewrite IH by tauto.
  apply (get_set_other Z.eqb Z.eqb_eq). tauto.
Qed.

Lemma ofPairs_get_in (pairs : list (Z * option R)) (y : Z) (v : option R) :
  forall m0, NoDup (map fst pairs) -> In (y, v) pairs ->
  JSMap.get Z.eqb (fold_left (fun m kv => JSMap.set Z.eqb m (fst kv) (snd kv)) pairs m0) y
  = Some v.
Proof.
  induction pairs as [|[k w] ps IH]; intros m0 Hnd Hin; [destruct Hin|].
  simpl in *. inversion Hnd as [|? ? Hk Hnd']; subst.
  destruct Hin as [E|Hin].
  - injection E as -> ->.
    rewrite ofPairs_get_other by assumption.
    apply (get_set_same Z.eqb Z.eqb_eq).
  - now apply IH.
Qed.

Lemma zipIndex_keys (ys : list Z) (vs : list R) :
  forall k, map fst (zipIndex ys vs k) = ys.
Proof. induction ys as [|y ys IH]; intros k; simpl; [reflexivity|now rewrite IH]. Qed.

Lemma zipIndex_In (ys : list Z) (vs : list R) :
  forall k i y, nth_error ys i = Some y ->
  In (y, nth_error vs (k + i)) (zipIndex ys vs k).
Proof.
  induction ys as [|y0 ys IH]; intros k i y Hi; destruct i; simpl in *; try discriminate.
  - injection Hi as ->. rewrite Nat.add_0_r. now left.
  - right. rewrite Nat.add_succ_r. now apply (IH (S k)).
Qed.

Lemma makeAligned_at_out (ys : list Z) (vs : list R) (y : Z) :
  ~ In y ys -> makeAligned_at ys vs y = None.
Proof.
  intros Hout. unfold makeAligned_at, JSMap.has, JSMap.ofPairs.
  rewrite ofPairs_get_other by (now rewrite zipIndex_keys). reflexivity.
Qed.

Lemma makeAligned_at_in (ys : list Z) (vs : list R) (y : Z) (i : nat) :
  NoDup ys -> nth_error ys i = Some y -> makeAligned_at ys vs y = nth_error vs i.
Proof.
  intros Hnd Hi. unfold makeAligned_at, JSMap.has, JSMap.ofPairs.
  rewrite (ofPairs_get_in _ y (nth_error vs i)).
  - reflexivity.
  - now rewrite zipIndex_keys.
  - apply (zipIndex_In ys vs 0 i y Hi).
Qed.

Lemma indexOfNum_out (ys : list Z) (y : Z) : ~ In y ys -> indexOfNum ys y = (-1)%Z.
Proof.
  induction ys as [|c ys IH]; intros Hout; simpl; [reflexivity|].
  simpl in Hout. destruct (Z.eqb_spec c y); [tauto|].
  rewrite IH by tauto. reflexivity.
Qed.

Lemma indexOfNum_in (ys : list Z) (y : Z) :
  forall i, NoDup ys -> nth_error ys i = Some y -> indexOfNum ys y = Z.of_nat i.
Proof.
  induction ys as [|c ys IH]; intros i Hnd Hi; destruct i; simpl in *; try discriminate.
  - injection Hi as ->. now rewrite Z.eqb_refl.
  - inversion Hnd as [|? ? Hc Hnd']; subst.
    destruct (Z.eqb_spec c y) as [->|Hne].
    + exfalso. apply Hc. eapply nth_error_In; eassumption.
    + rewrite (IH i Hnd' Hi).
      destruct (Z.ltb_spec (Z.of_nat i) 0); lia.
Qed.

Lemma averagePlot_at_out (t : YearSeries) (y : Z) :
  ~ In y (years t) -> averagePlot_at t y = None.
Proof. intros H. unfold averagePlot_at. now rewrite indexOfNum_out. Qed.

Lemma averagePlot_at_in (t : YearSeries) (y : Z) (i : nat) :
  NoDup (years t) -> nth_error (years t) i = Some y ->
  averagePlot_at t y = nth_error (values t) i.
Proof.
  intros Hnd Hi. unfold averagePlot_at. rewrite (indexOfNum_in _ y i Hnd Hi).
  destruct (Z.leb_spec 0 (Z.of_nat i)); [|lia]. now rewrite Nat2Z.id.
Qed.

(** A sequence computed year by year along the axis is aligned as soon as
    the value of a year is null off the series and the series' own value
    on it. *)
Lemma pointwise_aligned (labels : list Z) (t : YearSeries) (f : Z -> option R) :
  (forall y, In y (years t) -> In y labels) ->
  (forall y, ~ In y (years t) -> f y = None) ->
  (forall y i, nth_error (years t) i = Some y -> f y = nth_error (values t) i) ->
  spec_aligned labels t (map f labels).
Proof.
  intros Hsub Hout Hin. unfold spec_aligned. repeat split.
  - apply length_map.
  - intros j y Hj Hy. rewrite nth_error_map, Hj. simpl. now rewrite Hout.
  - intros j y i Hj Hi. rewrite nth_error_map, Hj. simpl. now rewrite (Hin y i).
  - intros i y v Hi Hv.
    assert (Hy : In y labels) by (apply Hsub; eapply nth_error_In; eassumption).
    apply In_nth_error in Hy. destruct Hy as [j Hj]. exists j. split; [assumption|].
    rewrite nth_error_map, Hj. simpl. now rewrite (Hin y i Hi), Hv.
Qed.

Lemma union_axis_sortNum_setOf (ts : list YearSeries) :
  spec_union_axis (sortNum (setOf [] (flat_map years ts))) ts.
Proof.
  split.
  - apply sortNum_strict, setOf_NoDup.
  - intros y. rewrite sortNum_In, setOf_In, in_flat_map. simpl. tauto.
Qed.

Lemma makeAligned_aligned (labels : list Z) (t : YearSeries) :
  spec_wellformed t -> (forall y, In y (years t) -> In y labels) ->
  spec_aligned labels t (makeAligned labels (years t) (values t)).
Proof.
  intros [Hs _] Hsub.
  change (makeAligned labels (years t) (values t))
    with (map (makeAligned_at (years t) (values t)) labels).
  apply pointwise_aligned; [assumption| |].
  - intros y Hy. now apply makeAligned_at_out.
  - intros y i Hi. apply makeAligned_at_in; [now apply strict_sorted_NoDup|assumption].
Qed.

Lemma averagePlot_data_aligned (labels : list Z) (t : YearSeries) :
  spec_wellformed t -> (forall y, In y (years t) -> In y labels) ->
  spec_aligned labels t (averagePlot_data labels t).
Proof.
  intros [Hs _] Hsub.
  change (averagePlot_data labels t) with (map (averagePlot_at t) labels).
  apply pointwise_aligned; [assumption| |].
  - intros y Hy. now apply averagePlot_at_out.
  - intros y i Hi. apply averagePlot_at_in; [now apply strict_sorted_NoDup|assumption].
Qed.

(** C2. For YearSeries with strictly increasing years and one value per
    year, in both variants of the page the common axis is the ascending
    duplicate-free union of the input years, and every aligned sequence is
    as long as the axis, null at the years its series does not cover, and
    holds at the position of each covered year exactly the value the series
    has for that year. *)
Theorem series_aligner_lossless :
  (forall dot big niche : YearSeries,
      spec_wellformed dot -> spec_wellformed big -> spec_wellformed niche ->
      let a := alignSeries dot big niche in
      spec_union_axis (axis a) [dot; big; niche]
      /\ spec_aligned (axis a) dot (dotcom a)
      /\ spec_aligned (axis a) big (bigTech a)
      /\ spec_aligned (axis a) niche (pureAI a))
  /\ (forall tracks : list YearSeries,
      Forall spec_wellformed tracks ->
      spec_union_axis (fst (averagePlot tracks)) tracks
      /\ Forall2 (spec_aligned (fst (averagePlot tracks))) tracks (snd (averagePlot tracks))).
Proof.
  split.
  - intros dot big niche Hd Hb Hn a.
    assert (Hax : spec_union_axis (axis a) [dot; big; niche]).
    { pose proof (union_axis_sortNum_setOf [dot; big; niche]) as H.
      simpl in H. rewrite app_nil_r in H. exact H. }
    split; [exact Hax|].
    destruct Hax as [_ Hmem].
    split; [|split]; apply makeAligned_aligned; try assumption;
      intros y Hy; apply Hmem; eexists; (split; [|exact Hy]); simpl; auto.
  - intros tracks Hwf.
    pose proof (union_axis_sortNum_setOf tracks) as Hax.
    split; [exact Hax|]. destruct Hax as [_ Hmem].
    unfold averagePlot. simpl fst. simpl snd.
    set (labels := sortNum (setOf [] (flat_map years tracks))) in *.
    assert (Hsub : forall t, In t tracks -> forall y, In y (years t) -> In y labels).
    { intros t Ht y Hy. apply Hmem. now exists t. }
    clearbody labels. clear Hmem.
    induction Hwf as [|t ts Ht Hts IH]; simpl; constructor.
    + apply averagePlot_data_aligned; [assumption|]. apply Hsub. now left.
    + apply IH. intros t' Ht'. apply Hsub. now right.
Qed.

Lemma aligner_A_wellformed : spec_wellformed aligner_A.
Proof.
  split; [|reflexivity]. repeat constructor.
Qed.

Lemma aligner_B_wellformed : spec_wellformed aligner_B.
Proof.
  split; [|reflexivity]. repeat constructor.
Qed.

Lemma series_aligner_lossless_witness :
  (spec_wellformed aligner_A /\ spec_wellformed aligner_B
   /\ spec_wellformed (mkSeries [] []))
  /\ spec_aligned (axis (alignSeries aligner_A aligner_B (mkSeries [] [])))
       aligner_B (bigTech (alignSeries aligner_A aligner_B (mkSeries [] [])))
  /\ Forall spec_wellformed [aligner_A; aligner_B]
  /\ spec_union_axis (fst (averagePlot [aligner_A; aligner_B])) [aligner_A; aligner_B].
Proof.
  assert (HE : spec_wellformed (mkSeries [] [])) by (split; [constructor|reflexivity]).
  assert (HF : Forall spec_wellformed [aligner_A; aligner_B]).
  { repeat constructor; (exact aligner_A_wellformed || exact aligner_B_wellformed). }
  split; [split; [exact aligner_A_wellformed|split; [exact aligner_B_wellformed|exact HE]]|].
  split.
  - exact (proj1 (proj2 (proj2 (proj1 series_aligner_lossless aligner_A aligner_B
             (mkSeries [] []) aligner_A_wellformed aligner_B_wellformed HE)))).
  - split; [exact HF|].
    exact (proj1 (proj2 series_aligner_lossless [aligner_A; aligner_B] HF)).
Defined.

(** The sample of the specification: A over 2020-2021 and B over 2021-2022
    give the axis 2020..2022, A followed by a null and B preceded by one. *)
Lemma averagePlot_example (a0 a1 b0 b1 : R) :
  averagePlot [mkSeries [2020; 2021]%Z [a0; a1]; mkSeries [2021; 2022]%Z [b0; b1]]
  = ([2020; 2021; 2022]%Z, [[Some a0; Some a1; None]; [None; Some b0; Some b1]]).
Proof. reflexivity. Qed.

Lemma alignSeries_example (a0 a1 b0 b1 : R) :
  alignSeries (mkSeries [2020; 2021]%Z [a0; a1]) (mkSeries [2021; 2022]%Z [b0; b1])
              (mkSeries [] [])
  = mkAligned [2020; 2021; 2022]%Z
      [Some a0; Some a1; None] [None; Some b0; Some b1] [None; None; None].
Proof. reflexivity. Qed.

(* ================================================================== *)
(** * Scenario projector *)

(** The loop stops by its own test: fuel beyond the turns left changes
    nothing. *)
Lemma scenario_loop_more_fuel (n : nat) (customGrowth : R) :
  forall fuel year currentPs ys ds,
  (Z.to_nat (2033 - year) <= fuel)%nat ->
  scenario_loop (fuel + n) year currentPs customGrowth ys ds
  = scenario_loop fuel year currentPs customGrowth ys ds.
Proof.
  induction fuel as [|fuel IH]; intros year currentPs ys ds Hfuel.
  - simpl. destruct n as [|n]; [reflexivity|]. simpl.
    destruct (Z.leb_spec year 2032); [lia|reflexivity].
  - simpl. destruct (Z.leb_spec year 2032); [|reflexivity].
    apply IH. lia.
Qed.

Lemma scenario_loop_unfold (currentPs g : R) :
  scenario_loop (Z.to_nat (2032 - 2025 + 2)) 2025 currentPs g [] []
  = mkScenario [2025; 2026; 2027; 2028; 2029; 2030; 2031; 2032]%Z
      (map (fun k => ln (currentPs * (1 + g / 100) ^ k)) (seq 1 8)).
Proof.
  change (Z.to_nat (2032 - 2025 + 2)) with 9%nat.
  cbn [scenario_loop Z.leb Z.compare Pos.compare Pos.compare_cont Z.add Pos.add
       Pos.succ Pos.add_carry app].
  cbn [map seq pow].
  f_equal. repeat (f_equal; [f_equal; ring|]). f_equal. f_equal. ring.
Qed.

Lemma last_app_single {A : Type} (pre : list A) (a d : A) : last (pre ++ [a]) d = a.
Proof. apply last_last. Qed.

Lemma scenario_some (s : AlignedSeries) (g : R) (pre : list R) (L : R) :
  nonNull (bigTech s) = pre ++ [L] ->
  scenario (Some s) g
  = mkScenario [2025; 2026; 2027; 2028; 2029; 2030; 2031; 2032]%Z
      (map (fun k => ln (exp L * (1 + g / 100) ^ k)) (seq 1 8)).
Proof.
  intros H. unfold scenario. rewrite H.
  destruct (pre ++ [L]) as [|b bs] eqn:E.
  - destruct pre; discriminate.
  - rewrite <- E, last_app_single. apply scenario_loop_unfold.
Qed.

Lemma scenario_empty (s : AlignedSeries) (g : R) :
  nonNull (bigTech s) = [] -> scenario (Some s) g = mkScenario [] [].
Proof. intros H. unfold scenario. now rewrite H. Qed.

Lemma nonempty_last_split {A : Type} (l : list A) :
  l <> [] -> exists pre a, l = pre ++ [a].
Proof.
  intros H. destruct (exists_last H) as [pre [a E]]. now exists pre, a.
Qed.

Lemma spec_lastObserved_nonNull (ys : list Z) (vs : list (option R)) (p : Z * R) :
  spec_lastObserved ys vs = Some p -> nonNull vs <> [].
Proof.
  revert vs p; induction ys as [|y ys IH]; intros vs p H; [discriminate|].
  destruct vs as [|v vs]; [discriminate|]. simpl in H.
  destruct (spec_lastObserved ys vs) as [p'|] eqn:E.
  - specialize (IH vs p' E). simpl. destruct v; [discriminate|assumption].
  - destruct v as [x|]; [simpl; discriminate|discriminate].
Qed.

Lemma makeAligned_no_observation (allYears : list Z) :
  nonNull (makeAligned allYears [] []) = [].
Proof.
  unfold makeAligned. simpl. induction allYears as [|y ys IH]; simpl; [reflexivity|exact IH].
Qed.

(** A cohort without any valid ratio leaves the scenario empty. *)
Lemma scenario_no_observation (dotcom aiPure aiNiche : list (TidyRecord R)) (g : R) :
  (forall r, In r aiPure -> ~ spec_valid r) ->
  exists s, series dotcom aiPure aiNiche = Some s /\ scenario s g = mkScenario [] [].
Proof.
  intros Hnone.
  destruct (aggregator_returns_series dotcom) as (dot & Hdot & _).
  destruct (aggregator_returns_series aiPure) as (big & Hbig & _ & _ & _ & _ & _ & Hempty).
  destruct (aggregator_returns_series aiNiche) as (niche & Hniche & _).
  specialize (Hempty Hnone). subst big.
  assert (Hs : scenario (Some (alignSeries dot (mkSeries [] []) niche)) g = mkScenario [] []).
  { apply scenario_empty. apply makeAligned_no_observation. }
  unfold series. rewrite Hdot, Hbig, Hniche. simpl bindT.
  destruct dotcom as [|d ds]; [|eexists; split; [reflexivity|exact Hs]].
  destruct aiPure as [|a as_]; [|eexists; split; [reflexivity|exact Hs]].
  destruct aiNiche as [|n ns]; [|eexists; split; [reflexivity|exact Hs]].
  exists None. split; reflexivity.
Qed.

(** C4, as the code has it. The horizon is not an input: the projector
    always writes the eight years 2025..2032.  With L the last non-null
    value of the cohort and r = customGrowth / 100, the k-th projected
    value (k = 1..8) is ln(exp(L) * (1 + r)^k); for L = ln 20 and r = 0.1
    the first two of the eight values are ln 22 and ln 24.2; a cohort
    without any non-null value, or an absent series, gives the empty
    scenario, and so do records of the cohort without any valid ratio. *)
Theorem scenario_values (s : AlignedSeries) (customGrowth : R) :
  scenario None customGrowth = mkScenario [] []
  /\ (nonNull (bigTech s) = [] -> scenario (Some s) customGrowth = mkScenario [] [])
  /\ (forall pre L, nonNull (bigTech s) = pre ++ [L] ->
        List.length (data (scenario (Some s) customGrowth)) = 8%nat
        /\ forall k, (1 <= k <= 8)%nat ->
             nth_error (data (scenario (Some s) customGrowth)) (k - 1)
             = Some (ln (exp L * (1 + customGrowth / 100) ^ k)))
  /\ (forall pre, nonNull (bigTech s) = pre ++ [ln 20] ->
        firstn 2 (data (scenario (Some s) 10)) = [ln 22; ln (242 / 10)])
  /\ (forall dotcom aiPure aiNiche : list (TidyRecord R),
        (forall r, In r aiPure -> ~ spec_valid r) ->
        exists memo, series dotcom aiPure aiNiche = Some memo
                     /\ scenario memo customGrowth = mkScenario [] []).
Proof.
  split; [reflexivity|]. split; [apply scenario_empty|]. split; [|split].
  3:{ intros dotcom aiPure aiNiche H. now apply scenario_no_observation. }
  - intros pre L H. rewrite (scenario_some s customGrowth pre L H).
    split; [reflexivity|]. intros k Hk.
    assert (Hc : (k = 1 \/ k = 2 \/ k = 3 \/ k = 4 \/ k = 5 \/ k = 6 \/ k = 7 \/ k = 8)%nat)
      by lia.
    repeat (destruct Hc as [->|Hc]; [reflexivity|]). now subst.
  - intros pre H. rewrite (scenario_some s 10 pre (ln 20) H).
    cbn [data map seq firstn pow]. rewrite exp_ln by lra.
    f_equal; [|f_equal]; f_equal; lra.
Qed.

Lemma scenario_values_witness :
  scenario (Some scenario_blank) 10 = mkScenario [] []
  /\ nth_error (data (scenario (Some scenario_ln20) 10)) (3 - 1)
     = Some (ln (exp (ln 20) * (1 + 10 / 100) ^ 3))
  /\ firstn 2 (data (scenario (Some scenario_ln20) 10)) = [ln 22; ln (242 / 10)]
  /\ exists memo, series [] aggregator_blank [] = Some memo
                  /\ scenario memo 10 = mkScenario [] [].
Proof.
  pose proof (scenario_values scenario_ln20 10) as (_ & _ & Hk & H20 & Hrec).
  split; [|split; [|split]].
  - apply (proj1 (proj2 (scenario_values scenario_blank 10))). reflexivity.
  - apply (proj2 (Hk [] (ln 20) eq_refl) 3%nat). lia.
  - apply (H20 []). reflexivity.
  - apply Hrec. intros r [<-|[<-|[]]] [v [Hv Hpos]]; simpl in Hv.
    + discriminate.
    + injection Hv as <-. lra.
Defined.

(** C4, as stated, fails: for L = ln 20, r = 0.1 and a horizon of two
    years the projector does not return [ln 22, ln 24.2] but eight
    values. *)
Lemma scenario_horizon_is_eight :
  List.length (data (scenario (Some scenario_ln20) 10)) = 8%nat
  /\ data (scenario (Some scenario_ln20) 10) <> [ln 22; ln (242 / 10)].
Proof.
  assert (H : List.length (data (scenario (Some scenario_ln20) 10)) = 8%nat).
  { now rewrite (scenario_some scenario_ln20 10 [] (ln 20) eq_refl). }
  split; [exact H|]. intros E. rewrite E in H. discriminate.
Qed.

(** C8, as the code has it. The projected years are always 2025, 2026, ...,
    2032 (ascending and contiguous), whatever years the cohort was
    observed in, and there are none when the cohort has no observation.
    They all lie after the last observed year when that year is before
    2025, and the horizon starts right after the last observed year
    exactly when that year is 2024. *)
Theorem scenario_years (s : AlignedSeries) (customGrowth : R) :
  scenarioYears (scenario None customGrowth) = []
  /\ (nonNull (bigTech s) = [] -> scenarioYears (scenario (Some s) customGrowth) = [])
  /\ (nonNull (bigTech s) <> [] ->
        scenarioYears (scenario (Some s) customGrowth)
        = [2025; 2026; 2027; 2028; 2029; 2030; 2031; 2032]%Z)
  /\ (forall ly, spec_lastObservedYear s = Some ly ->
        ((ly < 2025)%Z ->
           forall y, In y (scenarioYears (scenario (Some s) customGrowth)) -> (ly < y)%Z)
        /\ (hd_error (scenarioYears (scenario (Some s) customGrowth)) = Some (ly + 1)%Z
            <-> ly = 2024%Z)).
Proof.
  assert (Hyears : nonNull (bigTech s) <> [] ->
            scenarioYears (scenario (Some s) customGrowth)
            = [2025; 2026; 2027; 2028; 2029; 2030; 2031; 2032]%Z).
  { intros H. destruct (nonempty_last_split _ H) as [pre [L E]].
    now rewrite (scenario_some s customGrowth pre L E). }
  split; [reflexivity|]. split; [intros H; now rewrite scenario_empty|].
  split; [exact Hyears|].
  intros ly Hly. unfold spec_lastObservedYear in Hly.
  destruct (spec_lastObserved (axis s) (bigTech s)) as [p|] eqn:E; [|discriminate].
  rewrite (Hyears (spec_lastObserved_nonNull _ _ _ E)). split.
  - intros Hlt y Hy. simpl in Hy. lia.
  - simpl. split; [intros H; injection H; lia|intros ->; reflexivity].
Qed.

Lemma scenario_years_witness :
  scenarioYears (scenario (Some scenario_blank) 18) = []
  /\ scenarioYears (scenario (Some scenario_ln20) 18)
     = [2025; 2026; 2027; 2028; 2029; 2030; 2031; 2032]%Z
  /\ (forall y, In y (scenarioYears (scenario (Some scenario_ln20) 18)) -> (2024 < y)%Z)
  /\ hd_error (scenarioYears (scenario (Some scenario_ln20) 18)) = Some (2024 + 1)%Z.
Proof.
  pose proof (scenario_years scenario_ln20 18) as (_ & _ & Hy & Hl).
  destruct (Hl 2024%Z eq_refl) as [Hafter Hstart].
  split; [|split; [|split]].
  - apply (proj1 (proj2 (scenario_years scenario_blank 18))). reflexivity.
  - apply Hy. discriminate.
  - apply Hafter. lia.
  - apply Hstart. reflexivity.
Defined.

(** C8, as stated, fails: a cohort last observed in 2025 gets a scenario
    that starts in 2025, a year that is observed and not after the last
    observed year. *)
Lemma scenario_year_not_after_last_observed :
  spec_lastObservedYear scenario_2025 = Some 2025%Z
  /\ In 2025%Z (axis scenario_2025)
  /\ hd_error (scenarioYears (scenario (Some scenario_2025) 18)) = Some 2025%Z
  /\ ~ (forall y, In y (scenarioYears (scenario (Some scenario_2025) 18)) -> (2025 < y)%Z).
Proof.
  assert (H : scenarioYears (scenario (Some scenario_2025) 18)
              = [2025; 2026; 2027; 2028; 2029; 2030; 2031; 2032]%Z).
  { now rewrite (scenario_some scenario_2025 18 [1%R] 2%R eq_refl). }
  rewrite H. split; [reflexivity|]. split; [simpl; auto|]. split; [reflexivity|].
  intros Hall. specialize (Hall 2025%Z (or_introl eq_refl)). lia.
Qed.

(* ================================================================== *)
(** * Panel tidier: the cursor and the blocks *)

Lemma spec_blocks_skipn {A : Type} (company : A -> option string) (rows : list A) :
  forall k, spec_blocks company k rows = spec_blocks company 0 (skipn k rows).
Proof.
  induction rows as [|r rest IH]; intros k.
  - now destruct k.
  - destruct k as [|k]; [reflexivity|]. simpl. apply IH.
Qed.

Lemma skipn_cons_nth {A : Type} (rows : list A) :
  forall i r, nth_error rows i = Some r -> skipn i rows = r :: skipn (S i) rows.
Proof.
  induction rows as [|a rows IH]; intros i r H; destruct i; simpl in *; try discriminate.
  - now injection H as ->.
  - now apply IH.
Qed.

Lemma spec_blocks_cons_none {A : Type} (company : A -> option string)
    (r : A) (rest : list A) :
  company r = None ->
  spec_blocks company 0 (r :: rest) = spec_blocks company 0 rest.
Proof. intros H. simpl. now rewrite H. Qed.

Lemma spec_blocks_cons_some {A : Type} (company : A -> option string)
    (r : A) (rest : list A) (c : string) :
  company r = Some c ->
  spec_blocks company 0 (r :: rest)
  = (c, firstn 3 (r :: rest)) :: spec_blocks company 0 (skipn 2 rest).
Proof.
  intros H. cbn [spec_blocks]. rewrite H. now rewrite (spec_blocks_skipn company rest 2).
Qed.

Lemma block_loop_blocks {A B : Type} (company : A -> option string)
    (emit : string * list A -> list B) (rows : list A) :
  forall fuel i records, (List.length rows - i <= fuel)%nat ->
  block_loop company emit fuel rows i records
  = records ++ flat_map emit (spec_blocks company 0 (skipn i rows)).
Proof.
  induction fuel as [|fuel IH]; intros i records Hfuel.
  - simpl. rewrite skipn_all2 by lia. simpl. now rewrite app_nil_r.
  - cbn [block_loop]. destruct (nth_error rows i) as [r|] eqn:E.
    + assert (Hi : (i < List.length rows)%nat) by (apply nth_error_Some; congruence).
      pose proof (skipn_cons_nth rows i r E) as Hsk.
      destruct (company r) as [c|] eqn:Ec.
      * rewrite IH by lia. rewrite Hsk.
        rewrite (spec_blocks_cons_some company r _ c Ec).
        cbn [flat_map]. rewrite <- app_assoc, skipn_skipn.
        now replace (2 + S i)%nat with (i + 3)%nat by lia.
      * rewrite IH by lia. rewrite Hsk.
        rewrite (spec_blocks_cons_none company r _ Ec).
        now replace (i + 1)%nat with (S i) by lia.
    + apply nth_error_None in E. rewrite skipn_all2 by lia. simpl. now rewrite app_nil_r.
Qed.

Lemma rowOrEmpty_block (rows : list Row) (i k : nat) :
  (k < 3)%nat -> rowOrEmpty rows (i + k) = nth k (firstn 3 (skipn i rows)) [].
Proof.
  intros Hk. unfold rowOrEmpty.
  rewrite <- (firstn_skipn i rows) at 1.
  destruct (Nat.le_gt_cases (List.length rows) i) as [Hout|Hin].
  - rewrite skipn_all2 by lia. rewrite app_nil_r, firstn_nil.
    rewrite (proj2 (nth_error_None _ _)) by (rewrite length_firstn; lia).
    now destruct k.
  - rewrite nth_error_app2 by (rewrite length_firstn; lia).
    rewrite length_firstn, Nat.min_l by lia.
    replace (i + k - i)%nat with k by lia.
    generalize (skipn i rows). intros l.
    destruct l as [|a [|b [|c l]]]; destruct k as [|[|[|k]]]; try reflexivity; lia.
Qed.

Lemma tidyPanel_loop_block_loop (rows : list Row) (years : list Z) (yearIndex : JSMap.t) :
  forall fuel i records,
  tidyPanel_loop fuel rows years yearIndex i records
  = block_loop companyOfRow (tidyPanel_block yearIndex years) fuel rows i records.
Proof.
  induction fuel as [|fuel IH]; intros i records;
    cbn [tidyPanel_loop block_loop]; [reflexivity|].
  destruct (Nat.ltb_spec i (List.length rows)) as [Hi|Hi].
  - destruct (nth_error rows i) as [r|] eqn:E.
    2:{ apply nth_error_None in E. lia. }
    assert (Hr : rowOrEmpty rows i = r) by (unfold rowOrEmpty; now rewrite E).
    rewrite Hr. change (JSString.truthy (nth_error r 0)) with (companyOfRow r).
    destruct (companyOfRow r) as [c|]; [|apply IH].
    rewrite IH. f_equal. f_equal. unfold tidyPanel_block. cbn [fst snd].
    rewrite <- !rowOrEmpty_block by lia. now rewrite Nat.add_0_r, Hr.
  - now rewrite (proj2 (nth_error_None rows i)) by lia.
Qed.

Lemma tidyPanelJS_loop_block_loop (rows : list RowObj) (years : list Z) :
  forall fuel i records,
  tidyPanelJS_loop fuel rows years i records
  = block_loop companyOfRowObj (tidyPanelJS_block years) fuel rows i records.
Proof.
  induction fuel as [|fuel IH]; intros i records;
    cbn [tidyPanelJS_loop block_loop]; [reflexivity|].
  destruct (nth_error rows i) as [r|]; [|reflexivity].
  change (JSString.truthy (prop r "Company")) with (companyOfRowObj r).
  destruct (companyOfRowObj r) as [c|]; [|apply IH].
  rewrite IH. unfold slice. now replace (i + 3 - i)%nat with 3%nat by lia.
Qed.

(** [tidyPanel] writes, block after block, the records of each block. *)
Lemma tidyPanel_blocks (header : Row) (body : list Row) (years : list Z) :
  tidyPanel (header :: body) years
  = flat_map (tidyPanel_block (yearIndexOf header years) years)
      (spec_blocks companyOfRow 0 body).
Proof.
  unfold tidyPanel.
  rewrite tidyPanel_loop_block_loop, block_loop_blocks by (simpl; lia).
  reflexivity.
Qed.

Lemma tidyPanelJS_blocks (rows : list RowObj) (years : list Z) :
  tidyPanelJS rows years
  = flat_map (tidyPanelJS_block years) (spec_blocks companyOfRowObj 0 rows).
Proof.
  unfold tidyPanelJS.
  rewrite tidyPanelJS_loop_block_loop, block_loop_blocks by lia.
  reflexivity.
Qed.

(** The loops stop by their own test: fuel beyond [length rows] changes
    nothing. *)
Lemma tidyPanel_loop_more_fuel (rows : list Row) (years : list Z)
    (yearIndex : JSMap.t) (n i : nat) (records : list (TidyRecord Q)) :
  tidyPanel_loop (List.length rows + n) rows years yearIndex i records
  = tidyPanel_loop (List.length rows) rows years yearIndex i records.
Proof.
  rewrite !tidyPanel_loop_block_loop, !block_loop_blocks by lia. reflexivity.
Qed.

Lemma tidyPanelJS_loop_more_fuel (rows : list RowObj) (years : list Z)
    (n i : nat) (records : list (TidyRecord JSNumber)) :
  tidyPanelJS_loop (List.length rows + n) rows years i records
  = tidyPanelJS_loop (List.length rows) rows years i records.
Proof.
  rewrite !tidyPanelJS_loop_block_loop, !block_loop_blocks by lia. reflexivity.
Qed.

Lemma In_firstn {A : Type} (n : nat) (l : list A) (x : A) :
  In x (firstn n l) -> In x l.
Proof.
  revert l; induction n as [|n IH]; intros l H; [destruct H|].
  destruct l as [|a l]; [destruct H|]. simpl in H.
  destruct H as [->|H]; [now left|right; now apply IH].
Qed.

Lemma spec_blocks_company {A : Type} (company : A -> option string) (rows : list A) :
  forall k b, In b (spec_blocks company k rows) ->
  (exists r, nth_error (snd b) 0 = Some r /\ company r = Some (fst b))
  /\ (forall x, In x (snd b) -> In x rows).
Proof.
  induction rows as [|r rest IH]; intros k b Hb; [destruct Hb|].
  destruct k as [|k].
  - cbn [spec_blocks] in Hb. destruct (company r) as [c|] eqn:Ec.
    + destruct Hb as [<-|Hb].
      * split; [exists r; now split|].
        intros x Hx. eapply In_firstn. exact Hx.
      * destruct (IH _ _ Hb) as [H1 H2]. split; [exact H1|].
        intros x Hx. right. now apply H2.
    + destruct (IH _ _ Hb) as [H1 H2]. split; [exact H1|].
      intros x Hx. right. now apply H2.
  - cbn [spec_blocks] in Hb. destruct (IH _ _ Hb) as [H1 H2]. split; [exact H1|].
    intros x Hx. right. now apply H2.
Qed.

Lemma indexOf_out (header : Row) (s : string) : ~ In s header -> indexOf header s = (-1)%Z.
Proof.
  induction header as [|c header IH]; intros Hout; simpl; [reflexivity|].
  simpl in Hout. destruct (String.eqb_spec c s); [tauto|].
  rewrite IH by tauto. reflexivity.
Qed.

(** Every entry of [yearIndex] holds the header position of its key. *)
Lemma yearIndexOf_get (header : Row) (years : list Z) (k : string) (v : Z) :
  JSMap.get String.eqb (yearIndexOf header years) k = Some v -> v = indexOf header k.
Proof.
  unfold yearIndexOf, JSMap.ofPairs.
  assert (Hgen : forall m0 : @JSMap.t string Z,
    (forall k v, JSMap.get String.eqb m0 k = Some v -> v = indexOf header k) ->
    forall k v,
    JSMap.get String.eqb
      (fold_left (fun m kv => JSMap.set String.eqb m (fst kv) (snd kv))
         (map (fun year => (JSString.ofInt year, indexOf header (JSString.ofInt year))) years)
         m0) k = Some v ->
    v = indexOf header k).
  { induction years as [|y ys IH]; intros m0 Hm0 k' v' H; simpl in H; [eauto|].
    eapply IH; [|exact H]. clear H k' v'. intros k' v' H.
    destruct (String.eqb_spec (JSString.ofInt y) k') as [<-|Hne].
    - rewrite (get_set_same String.eqb String.eqb_eq) in H. congruence.
    - rewrite (get_set_other String.eqb String.eqb_eq) in H by assumption. eauto. }
  apply Hgen. intros k' v' H. discriminate.
Qed.

Lemma cellOfYear_unrecognized (header row : Row) (years : list Z) (year : Z) :
  ~ In (JSString.ofInt year) header ->
  cellOfYear (yearIndexOf header years) row year = None.
Proof.
  intros Hout. unfold cellOfYear.
  destruct (JSMap.get String.eqb (yearIndexOf header years) (JSString.ofInt year))
    as [c|] eqn:E; [|reflexivity].
  apply yearIndexOf_get in E. rewrite indexOf_out in E by assumption.
  now subst c.
Qed.

Lemma tidyPanel_record_unrecognized (header : Row) (years : list Z) (year : Z)
    (company : string) (mcRow revRow vrRow : Row) :
  ~ In (JSString.ofInt year) header ->
  tidyPanel_record (yearIndexOf header years) company mcRow revRow vrRow year
  = mkRecord
      match JSString.truthy (nth_error mcRow 0) with Some c => c | None => company end
      year None None None.
Proof.
  intros Hout. unfold tidyPanel_record.
  now rewrite !(cellOfYear_unrecognized header _ years year Hout).
Qed.

Lemma findMetric_prop_none (block : list RowObj) (label col : string) :
  (forall row, In row block -> prop row col = None) ->
  prop (findMetric block label) col = None.
Proof.
  intros H. unfold findMetric.
  destruct (find _ block) as [r|] eqn:E; [|reflexivity].
  apply find_some in E. now apply H.
Qed.

(** C7, as the code has it. In both variants the output is, block after
    block in table order, the records of each company block; a block gives
    exactly |years| records, one per target year and in the order of the
    target-year list (so ascending when that list is), all carrying the
    block's company; a row with an empty or absent company cell is
    stepped over alone, and a row with a company consumes three rows. *)
Theorem tidy_records_per_block (years : list Z) :
  (forall (header : Row) (body : list Row),
     let yearIndex := yearIndexOf header years in
     tidyPanel (header :: body) years
     = flat_map (tidyPanel_block yearIndex years) (spec_blocks companyOfRow 0 body)
     /\ (forall b, List.length (tidyPanel_block yearIndex years b) = List.length years
                   /\ map Year (tidyPanel_block yearIndex years b) = years)
     /\ (forall r rest, companyOfRow r = None ->
           tidyPanel (header :: r :: rest) years = tidyPanel (header :: rest) years)
     /\ (forall r rest c, companyOfRow r = Some c ->
           tidyPanel (header :: r :: rest) years
           = tidyPanel_block yearIndex years (c, firstn 3 (r :: rest))
             ++ tidyPanel (header :: skipn 2 rest) years
           /\ Forall (fun x => Company x = c)
                (tidyPanel_block yearIndex years (c, firstn 3 (r :: rest)))))
  /\ (forall rows : list RowObj,
     tidyPanelJS rows years
     = flat_map (tidyPanelJS_block years) (spec_blocks companyOfRowObj 0 rows)
     /\ (forall b, List.length (tidyPanelJS_block years b) = List.length years
                   /\ map Year (tidyPanelJS_block years b) = years
                   /\ Forall (fun x => Company x = fst b) (tidyPanelJS_block years b))
     /\ (forall r rest, companyOfRowObj r = None ->
           tidyPanelJS (r :: rest) years = tidyPanelJS rest years)
     /\ (forall r rest c, companyOfRowObj r = Some c ->
           tidyPanelJS (r :: rest) years
           = tidyPanelJS_block years (c, firstn 3 (r :: rest))
             ++ tidyPanelJS (skipn 2 rest) years)).
Proof.
  split.
  - intros header body yearIndex. split; [apply tidyPanel_blocks|]. split; [|split].
    + intros b. unfold tidyPanel_block. rewrite length_map, map_map. split; [reflexivity|].
      apply map_id.
    + intros r rest Hr. rewrite !tidyPanel_blocks.
      now rewrite (spec_blocks_cons_none companyOfRow r rest Hr).
    + intros r rest c Hr. split.
      * rewrite !tidyPanel_blocks.
        now rewrite (spec_blocks_cons_some companyOfRow r rest c Hr).
      * unfold tidyPanel_block. apply Forall_forall. intros x Hx.
        apply in_map_iff in Hx. destruct Hx as [y [<- _]].
        cbn [fst snd firstn nth]. unfold tidyPanel_record. cbn [Company].
        unfold companyOfRow in Hr. now rewrite Hr.
  - intros rows. split; [apply tidyPanelJS_blocks|]. split; [|split].
    + intros b. unfold tidyPanelJS_block. rewrite length_map, map_map.
      split; [reflexivity|]. split; [apply map_id|].
      apply Forall_forall. intros x Hx. apply in_map_iff in Hx.
      now destruct Hx as [y [<- _]].
    + intros r rest Hr. rewrite !tidyPanelJS_blocks.
      now rewrite (spec_blocks_cons_none companyOfRowObj r rest Hr).
    + intros r rest c Hr. rewrite !tidyPanelJS_blocks.
      now rewrite (spec_blocks_cons_some companyOfRowObj r rest c Hr).
Qed.

Lemma tidy_records_per_block_witness :
  companyOfRow [""; "Revenue ($bn)"; "0"; "5"]%string = None
  /\ tidyPanel (["Company"; "Metric"; "1996"]%string
                :: [""; "Revenue ($bn)"; "0"; "5"]%string :: skipn 2 tidy_table) [1996]%Z
     = tidyPanel (["Company"; "Metric"; "1996"]%string :: skipn 2 tidy_table) [1996]%Z
  /\ companyOfRow ["Bolt"; "Market Cap ($bn)"; "7"; "8"]%string = Some "Bolt"%string
  /\ List.length (tidyPanel (["Company"; "Metric"; "1996"]%string
                             :: [["Bolt"; "Market Cap ($bn)"; "7"; "8"]%string])
                    [1996; 2000]%Z) = 2%nat
  /\ companyOfRowObj [("Company", ""); ("Metric", "Revenue ($bn)")]%string = None
  /\ tidyPanelJS ([("Company", ""); ("Metric", "Revenue ($bn)")]%string :: tidy_tableJS)
       [1996]%Z
     = tidyPanelJS tidy_tableJS [1996]%Z.
Proof.
  pose proof (tidy_records_per_block [1996]%Z) as [H2 H1].
  split; [reflexivity|]. split; [|split; [reflexivity|split; [|split; [reflexivity|]]]].
  - apply (proj1 (proj2 (proj2 (H2 ["Company"; "Metric"; "1996"]%string [])))).
    reflexivity.
  - destruct (proj2 (proj2 (proj2 (proj1 (tidy_records_per_block [1996; 2000]%Z)
               ["Company"; "Metric"; "1996"]%string [])))
               ["Bolt"; "Market Cap ($bn)"; "7"; "8"]%string [] "Bolt"%string eq_refl)
      as [E _].
    etransitivity; [exact (f_equal (@List.length _) E)|reflexivity].
  - apply (proj1 (proj2 (proj2 (H1 [])))). reflexivity.
Defined.

(** C7, as stated, fails: with the target years 2000, 1996 the records of
    a company come out in that order, not by ascending year. *)
Lemma tidy_years_follow_the_list :
  map Year (tidyPanel tidy_table [2000; 1996]%Z) = [2000; 1996; 2000; 1996]%Z
  /\ map Year (tidyPanelJS tidy_tableJS [2000; 1996]%Z) = [2000; 1996]%Z
  /\ ~ StronglySorted Z.lt [2000; 1996]%Z.
Proof.
  split; [vm_compute; reflexivity|]. split; [vm_compute; reflexivity|].
  intros H. inversion H as [|? ? _ Hall]; subst.
  inversion Hall as [|? ? Hlt _]; subst. lia.
Qed.

(** C6, as the code has it. A target year that is not in the header (second
    variant) or is no column of any row (first variant) is not an error and
    is not left out: every company block still gets its record for that
    year, and in every record of that year the three metrics are null. *)
Theorem tidy_unrecognized_year_gives_null_records (years : list Z) (year : Z) :
  (forall (header : Row) (body : list Row),
     ~ In (JSString.ofInt year) header ->
     (forall r, In r (tidyPanel (header :: body) years) -> Year r = year ->
        MarketCap r = None /\ Revenue r = None /\ ValRev r = None)
     /\ (In year years ->
         forall b, In b (spec_blocks companyOfRow 0 body) ->
         In (mkRecord (fst b) year None None None) (tidyPanel (header :: body) years)))
  /\ (forall rows : list RowObj,
     (forall row, In row rows -> prop row (JSString.ofInt year) = None) ->
     (forall r, In r (tidyPanelJS rows years) -> Year r = year ->
        MarketCap r = None /\ Revenue r = None /\ ValRev r = None)
     /\ (In year years ->
         forall b, In b (spec_blocks companyOfRowObj 0 rows) ->
         In (mkRecord (fst b) year None None None) (tidyPanelJS rows years))).
Proof.
  split.
  - intros header body Hout. rewrite tidyPanel_blocks. split.
    + intros r Hr Hy. apply in_flat_map in Hr. destruct Hr as [b [_ Hr]].
      unfold tidyPanel_block in Hr. apply in_map_iff in Hr.
      destruct Hr as [y [<- _]]. change (y = year) in Hy. subst y.
      rewrite (tidyPanel_record_unrecognized header years year) by assumption.
      now repeat split.
    + intros Hin b Hb. apply in_flat_map. exists b. split; [assumption|].
      unfold tidyPanel_block. apply in_map_iff. exists year. split; [|assumption].
      rewrite (tidyPanel_record_unrecognized header years year) by assumption.
      destruct (spec_blocks_company companyOfRow body 0 b Hb) as [[r0 [H0 Hc]] _].
      rewrite nth_error_nth with (x := r0) by exact H0.
      unfold companyOfRow in Hc. now rewrite Hc.
  - intros rows Hout. rewrite tidyPanelJS_blocks.
    assert (Hrec : forall b, In b (spec_blocks companyOfRowObj 0 rows) ->
              tidyPanelJS_record (fst b)
                (findMetric (snd b) "Market Cap ($bn)")
                (findMetric (snd b) "Revenue ($bn)")
                (findMetric (snd b) "Valuation/Revenue") year
              = mkRecord (fst b) year None None None).
    { intros b Hb.
      destruct (spec_blocks_company companyOfRowObj rows 0 b Hb) as [_ Hsub].
      unfold tidyPanelJS_record.
      rewrite !findMetric_prop_none by (intros row Hrow; apply Hout; now apply Hsub).
      reflexivity. }
    split.
    + intros r Hr Hy. apply in_flat_map in Hr. destruct Hr as [b [Hb Hr]].
      unfold tidyPanelJS_block in Hr. apply in_map_iff in Hr.
      destruct Hr as [y [<- _]]. change (y = year) in Hy. subst y.
      rewrite (Hrec b Hb). now repeat split.
    + intros Hin b Hb. apply in_flat_map. exists b. split; [assumption|].
      unfold tidyPanelJS_block. apply in_map_iff. exists year. split; [|assumption].
      now apply Hrec.
Qed.

Lemma tidy_unrecognized_year_gives_null_records_witness :
  ~ In (JSString.ofInt 1999) ["Company"; "Metric"; "1996"; "2000"]%string
  /\ In (mkRecord "Bolt" 1999%Z None None None) (tidyPanel tidy_table [1996; 1999]%Z)
  /\ (forall row, In row tidy_tableJS -> prop row (JSString.ofInt 1999) = None)
  /\ In (mkRecord "Acme" 1999%Z None None None) (tidyPanelJS tidy_tableJS [1996; 1999]%Z).
Proof.
  assert (Hout : ~ In (JSString.ofInt 1999) ["Company"; "Metric"; "1996"; "2000"]%string).
  { intros H. repeat (destruct H as [H|H]; [discriminate H|]). exact H. }
  assert (HoutJS : forall row, In row tidy_tableJS -> prop row (JSString.ofInt 1999) = None).
  { intros row H. repeat (destruct H as [H|H]; [subst row; reflexivity|]). destruct H. }
  pose proof (tidy_unrecognized_year_gives_null_records [1996; 1999]%Z 1999%Z) as [H2 H1].
  split; [exact Hout|]. split; [|split; [exact HoutJS|]].
  - apply (proj2 (H2 ["Company"; "Metric"; "1996"; "2000"]%string (tl tidy_table) Hout)
             (or_intror (or_introl eq_refl))
             ("Bolt"%string, [["Bolt"; "Market Cap ($bn)"; "7"; "8"]%string])).
    vm_compute. auto.
  - apply (proj2 (H1 tidy_tableJS HoutJS) (or_intror (or_introl eq_refl))
             ("Acme"%string, tidy_tableJS)).
    vm_compute. auto.
Defined.

(** C6, as stated, fails: 1999 is no column of the table, and the output
    for the target years 1996, 1999 holds a record of 1999 for each
    company, in both variants. *)
Lemma tidy_unrecognized_year_has_records :
  ~ In "1999"%string (hd [] tidy_table)
  /\ filter (fun r => (Year r =? 1999)%Z) (tidyPanel tidy_table [1996; 1999]%Z)
     = [mkRecord "Acme" 1999%Z None None None; mkRecord "Bolt" 1999%Z None None None]
  /\ filter (fun r => (Year r =? 1999)%Z) (tidyPanelJS tidy_tableJS [1996; 1999]%Z)
     = [mkRecord "Acme" 1999%Z None None None].
Proof.
  split; [|split; vm_compute; reflexivity].
  intros H. repeat (destruct H as [H|H]; [discriminate H|]). exact H.
Qed.

(* ================================================================== *)
(** * Panel tidier: reading numbers *)

Lemma is_digit_cases (c : ascii) :
  StringToNumber.is_digit c = true ->
  In c ["0"; "1"; "2"; "3"; "4"; "5"; "6"; "7"; "8"; "9"]%char.
Proof.
  destruct c as [b0 b1 b2 b3 b4 b5 b6 b7].
  destruct b0, b1, b2, b3, b4, b5, b6, b7; vm_compute; intros H;
    try discriminate H; tauto.
Qed.

Ltac digit_cases H :=
  apply is_digit_cases in H; simpl in H;
  repeat (destruct H as [H|H]; [subst|]); [..|destruct H].

Lemma digit_facts (c : ascii) :
  StringToNumber.is_digit c = true ->
  Ascii.eqb c JSString.comma = false
  /\ Ascii.eqb c JSString.dquote = false
  /\ JSString.is_space c = false
  /\ JSString.lower c = c
  /\ Ascii.eqb c "n" = false
  /\ Ascii.eqb c "I" = false
  /\ StringToNumber.hex_val c = Some (JSString.code c - 48)%N
  /\ ((JSString.code c - 48 <? 10)%N = true).
Proof. intros H. digit_cases H; vm_compute; repeat split; reflexivity. Qed.

Lemma strip_digits (s : string) :
  all_chars (fun c => StringToNumber.is_digit c || is_grouping c) s = true ->
  forall acc,
  let d := JSString.removeAll JSString.dquote (JSString.removeAll JSString.comma s) in
  all_chars StringToNumber.is_digit d = true
  /\ StringToNumber.digits_acc 10 d acc = Some (spec_decimal_value acc s)
  /\ (has_char StringToNumber.is_digit s = true -> d <> EmptyString).
Proof.
  induction s as [|c s IH]; intros Hall acc; simpl in *.
  - repeat split; [discriminate].
  - apply andb_true_iff in Hall. destruct Hall as [Hc Hs].
    destruct (StringToNumber.is_digit c) eqn:Ed.
    + destruct (digit_facts c Ed) as (E1 & E2 & _ & _ & _ & _ & E3 & E4).
      rewrite E1. simpl. rewrite E2. simpl. rewrite Ed, E3, E4.
      destruct (IH Hs (acc * 10 + (JSString.code c - 48))%N) as (H1 & H2 & _).
      repeat split; [exact H1|exact H2|discriminate].
    + simpl in Hc. unfold is_grouping in Hc.
      destruct (IH Hs acc) as (H1 & H2 & H3).
      destruct (Ascii.eqb c JSString.comma) eqn:E1; [now repeat split|].
      simpl in Hc. simpl. rewrite Hc. now repeat split.
Qed.

Lemma trimEnd_digits (d : string) :
  all_chars StringToNumber.is_digit d = true -> JSString.trimEnd d = d.
Proof.
  induction d as [|c d IH]; intros H; simpl in *; [reflexivity|].
  apply andb_true_iff in H. destruct H as [Hc Hd].
  rewrite (IH Hd). destruct d as [|c' d']; [|reflexivity].
  destruct (digit_facts c Hc) as (_ & _ & E & _). now rewrite E.
Qed.

Lemma trim_digits (d : string) :
  all_chars StringToNumber.is_digit d = true -> JSString.trim d = d.
Proof.
  intros H. unfold JSString.trim.
  destruct d as [|c d]; [reflexivity|].
  pose proof H as H'. simpl in H'. apply andb_true_iff in H'. destruct H' as [Hc _].
  destruct (digit_facts c Hc) as (_ & _ & E & _).
  simpl JSString.trimStart. rewrite E. now apply trimEnd_digits.
Qed.

Lemma span_digits_all (d : string) :
  all_chars StringToNumber.is_digit d = true ->
  StringToNumber.span_digits d = (d, EmptyString).
Proof.
  induction d as [|c d IH]; intros H; simpl in *; [reflexivity|].
  apply andb_true_iff in H. destruct H as [Hc Hd].
  now rewrite Hc, (IH Hd).
Qed.

Lemma append_empty_r (s : string) : (s ++ "")%string = s.
Proof. induction s as [|c s IH]; simpl; [reflexivity|now rewrite IH]. Qed.

Lemma unsigned_literal_digits (d : string) (v : N) :
  d <> EmptyString ->
  all_chars StringToNumber.is_digit d = true ->
  StringToNumber.digits_acc 10 d 0 = Some v ->
  StringToNumber.unsigned_literal d = Fin (inject_Z (Z.of_N v)).
Proof.
  intros Hne Hall Hv. unfold StringToNumber.unsigned_literal.
  destruct d as [|c d]; [congruence|].
  pose proof Hall as H'. simpl in H'. apply andb_true_iff in H'. destruct H' as [Hc _].
  destruct (digit_facts c Hc) as (_ & _ & _ & _ & _ & EI & _).
  cbn [String.eqb]. rewrite EI.
  unfold StringToNumber.unsigned_decimal.
  rewrite (span_digits_all _ Hall). rewrite append_empty_r, Hv.
  cbn [StringToNumber.exponent_part String.length].
  unfold StringToNumber.scale10. cbn [Z.of_nat Z.sub Z.opp Z.add Z.leb Z.compare Z.pow Z.pow_pos].
  now rewrite Z.mul_1_r.
Qed.

Lemma numeric_literal_digits (d : string) :
  all_chars StringToNumber.is_digit d = true ->
  StringToNumber.numeric_literal d = StringToNumber.unsigned_literal d.
Proof.
  intros Hall. destruct d as [|c d]; [reflexivity|].
  simpl in Hall. apply andb_true_iff in Hall. destruct Hall as [Hc Hd].
  digit_cases Hc; try reflexivity.
  destruct d as [|c2 d2]; [reflexivity|].
  simpl in Hd. apply andb_true_iff in Hd. destruct Hd as [Hc2 _].
  digit_cases Hc2; reflexivity.
Qed.

(** A numeral written with digits, grouping commas and double quotes, in
    any arrangement, parses to the number its digits write. *)
Lemma parseNumber_grouped_digits (s : string) :
  all_chars (fun c => StringToNumber.is_digit c || is_grouping c) s = true ->
  has_char StringToNumber.is_digit s = true ->
  parseNumber (Some s) = Some (inject_Z (Z.of_N (spec_decimal_value 0 s))).
Proof.
  intros Hall Hhas. unfold parseNumber.
  destruct (strip_digits s Hall 0%N) as (Hd & Hv & Hne). specialize (Hne Hhas).
  set (d := JSString.removeAll JSString.dquote (JSString.removeAll JSString.comma s)) in *.
  rewrite (trim_digits d Hd).
  destruct d as [|c d'] eqn:Ed; [congruence|]. rewrite <- Ed in *.
  assert (Hlow : String.eqb (JSString.toLowerCase d) "n/a" = false).
  { rewrite Ed. pose proof Hd as H'. rewrite Ed in H'. simpl in H'.
    apply andb_true_iff in H'. destruct H' as [Hc _].
    destruct (digit_facts c Hc) as (_ & _ & _ & El & En & _).
    cbn [JSString.toLowerCase String.eqb]. now rewrite El, En. }
  rewrite Hlow. unfold StringToNumber.ofString. rewrite (trim_digits d Hd).
  rewrite Ed at 1. rewrite <- Ed.
  rewrite (numeric_literal_digits d Hd), (unsigned_literal_digits d _ Hne Hd Hv).
  reflexivity.
Qed.

Lemma parseNumber_grouped_digits_example :
  parseNumber (Some "12,345,678"%string) = Some 12345678%Q.
Proof. now rewrite parseNumber_grouped_digits. Qed.

Lemma parseNumber_null_cases (s : string) :
  let clean := JSString.trim (JSString.removeAll JSString.dquote
                                (JSString.removeAll JSString.comma s)) in
  parseNumber None = None
  /\ (clean = EmptyString -> parseNumber (Some s) = None)
  /\ (JSString.toLowerCase clean = "n/a"%string -> parseNumber (Some s) = None)
  /\ (StringToNumber.ofString clean = NaN -> parseNumber (Some s) = None)
  /\ (forall q, parseNumber (Some s) = Some q -> StringToNumber.ofString clean = Fin q).
Proof.
  intros clean. unfold parseNumber. fold clean. repeat split.
  - intros ->. reflexivity.
  - intros H. rewrite H. now destruct clean.
  - intros H. rewrite H. destruct clean; [reflexivity|].
    now destruct (String.eqb _ _).
  - intros q. destruct clean as [|c r] eqn:E; [discriminate|].
    destruct (String.eqb _ _); [discriminate|].
    destruct (StringToNumber.ofString (String c r)); simpl; congruence.
Qed.

(** C5, at the failing input. A cell holding the text 0 becomes null in
    [tidyPanelJS], whose conversion [Number(cell) || null] takes the number
    zero for a missing one, while [parseNumber] returns 0 for the same
    cell; the same happens to the comma-grouped 1,200 and to a quoted 5,
    which [parseNumber] reads as 1200 and 5. *)
Theorem tidyPanelJS_zero_cell_is_null :
  map MarketCap (tidyPanelJS tidy_tableJS [1996]%Z) = [None]
  /\ numberOrNull (Some "0"%string) = None
  /\ parseNumber (Some "0"%string) = Some 0%Q
  /\ numberOrNull (Some "1,200"%string) = None
  /\ parseNumber (Some "1,200"%string) = Some 1200%Q
  /\ numberOrNull (Some (String JSString.dquote (String "5" (String JSString.dquote ""))))
     = None
  /\ parseNumber (Some (String JSString.dquote (String "5" (String JSString.dquote ""))))
     = Some 5%Q.
Proof. repeat split; vm_compute; reflexivity. Qed.

(* ================================================================== *)
(** * Decimal numerals: [Number(String(n))] *)

Lemma all_chars_impl (p q : ascii -> bool) (s : string) :
  (forall c, p c = true -> q c = true) ->
  all_chars p s = true -> all_chars q s = true.
Proof.
  intros Hpq. induction s as [|c s IH]; simpl; [reflexivity|].
  intros H. apply andb_true_iff in H. destruct H as [Hc Hs].
  now rewrite (Hpq c Hc), IH.
Qed.

Lemma all_chars_append (p : ascii -> bool) (a b : string) :
  all_chars p (a ++ b) = all_chars p a && all_chars p b.
Proof.
  induction a as [|c a IH]; simpl; [reflexivity|].
  now rewrite IH, andb_assoc.
Qed.

Lemma string_of_uint_digits (d : Decimal.uint) :
  all_chars StringToNumber.is_digit (NilEmpty.string_of_uint d) = true.
Proof. induction d; simpl; auto. Qed.

Lemma digits_acc_string_of_uint (d : Decimal.uint) :
  forall acc : positive,
  StringToNumber.digits_acc 10 (NilEmpty.string_of_uint d) (Npos acc)
  = Some (Npos (Pos.of_uint_acc d acc)).
Proof.
  induction d; intros acc; simpl NilEmpty.string_of_uint;
    cbn [StringToNumber.digits_acc Pos.of_uint_acc]; [reflexivity|..];
    (match goal with
     | |- context [StringToNumber.hex_val ?c] =>
         let v := eval vm_compute in (StringToNumber.hex_val c) in
         change (StringToNumber.hex_val c) with v
     end);
    cbv beta iota;
    (match goal with
     | |- context [N.ltb ?a 10] => change (N.ltb a 10) with true
     end);
    cbv iota;
    (match goal with
     | |- StringToNumber.digits_acc _ _ ?a = _ =>
         match goal with
         | |- _ = Some (Npos (Pos.of_uint_acc _ ?b)) =>
             replace a with (Npos b) by lia
         end
     end);
    apply IHd.
Qed.

Lemma digits_acc_string_of_uint_0 (d : Decimal.uint) :
  StringToNumber.digits_acc 10 (NilEmpty.string_of_uint d) 0 = Some (Pos.of_uint d).
Proof.
  induction d; simpl NilEmpty.string_of_uint; cbn [StringToNumber.digits_acc Pos.of_uint];
    [reflexivity|exact IHd|..];
    (match goal with
     | |- context [StringToNumber.hex_val ?c] =>
         let v := eval vm_compute in (StringToNumber.hex_val c) in
         change (StringToNumber.hex_val c) with v
     end);
    cbv beta iota;
    (match goal with
     | |- context [N.ltb ?a 10] => change (N.ltb a 10) with true
     end);
    cbv iota;
    (match goal with
     | |- StringToNumber.digits_acc _ _ ?a = _ =>
         let v := eval vm_compute in a in change a with v
     end);
    apply digits_acc_string_of_uint.
Qed.

Lemma string_of_pos_nonempty (p : positive) :
  NilEmpty.string_of_uint (Pos.to_uint p) <> EmptyString.
Proof.
  pose proof (DecimalPos.Unsigned.to_uint_nonnil p) as H.
  destruct (Pos.to_uint p); simpl; congruence.
Qed.

Lemma string_of_pos (p : positive) :
  NilZero.string_of_uint (Pos.to_uint p) = NilEmpty.string_of_uint (Pos.to_uint p).
Proof.
  pose proof (DecimalPos.Unsigned.to_uint_nonnil p) as H.
  now destruct (Pos.to_uint p).
Qed.

(** The numeral of a positive number reads back as that number. *)
Lemma unsigned_literal_of_pos (p : positive) :
  StringToNumber.unsigned_literal (NilEmpty.string_of_uint (Pos.to_uint p))
  = Fin (inject_Z (Zpos p)).
Proof.
  rewrite (unsigned_literal_digits _ (Npos p)).
  - reflexivity.
  - apply string_of_pos_nonempty.
  - apply string_of_uint_digits.
  - rewrite digits_acc_string_of_uint_0. f_equal.
    apply DecimalPos.Unsigned.of_to.
Qed.

Lemma ofInt_chars (z : Z) : all_chars is_numeral_char (JSString.ofInt z) = true.
Proof.
  assert (Hd : forall d, all_chars is_numeral_char (NilEmpty.string_of_uint d) = true).
  { intros d. eapply all_chars_impl; [|apply string_of_uint_digits].
    intros c Hc. unfold is_numeral_char. now rewrite Hc. }
  unfold JSString.ofInt. destruct z as [|p|p]; simpl.
  - reflexivity.
  - rewrite string_of_pos. apply Hd.
  - rewrite string_of_pos. apply Hd.
Qed.

Lemma ofInt_nonempty (z : Z) : JSString.ofInt z <> EmptyString.
Proof.
  unfold JSString.ofInt. destruct z as [|p|p]; simpl; try discriminate.
  rewrite string_of_pos. apply string_of_pos_nonempty.
Qed.

Lemma numeral_char_facts (c : ascii) :
  is_numeral_char c = true ->
  JSString.is_space c = false
  /\ Ascii.eqb c JSString.comma = false
  /\ Ascii.eqb c JSString.dquote = false
  /\ Ascii.eqb c LF = false
  /\ Ascii.eqb c CR = false.
Proof.
  unfold is_numeral_char. intros H. apply orb_true_iff in H. destruct H as [H|H].
  - digit_cases H; vm_compute; repeat split; reflexivity.
  - apply Ascii.eqb_eq in H. subst c. vm_compute. repeat split; reflexivity.
Qed.

Lemma trimEnd_nospace (s : string) :
  all_chars (fun c => negb (JSString.is_space c)) s = true -> JSString.trimEnd s = s.
Proof.
  induction s as [|c s IH]; intros H; simpl in *; [reflexivity|].
  apply andb_true_iff in H. destruct H as [Hc Hs].
  rewrite (IH Hs). destruct s as [|c' s']; [|reflexivity].
  apply negb_true_iff in Hc. now rewrite Hc.
Qed.

Lemma trim_nospace (s : string) :
  all_chars (fun c => negb (JSString.is_space c)) s = true -> JSString.trim s = s.
Proof.
  intros H. unfold JSString.trim.
  destruct s as [|c s]; [reflexivity|].
  pose proof H as H'. simpl in H'. apply andb_true_iff in H'. destruct H' as [Hc _].
  apply negb_true_iff in Hc. simpl JSString.trimStart. rewrite Hc.
  now apply trimEnd_nospace.
Qed.

Lemma ofInt_nospace (z : Z) :
  all_chars (fun c => negb (JSString.is_space c)) (JSString.ofInt z) = true.
Proof.
  eapply all_chars_impl; [|apply ofInt_chars].
  intros c Hc. destruct (numeral_char_facts c Hc) as (E & _). now rewrite E.
Qed.

(** [Number(String(n))] is [n], for every integer [n]. *)
Lemma ofString_ofInt (z : Z) :
  StringToNumber.ofString (JSString.ofInt z) = Fin (inject_Z z).
Proof.
  unfold StringToNumber.ofString. rewrite (trim_nospace _ (ofInt_nospace z)).
  pose proof (ofInt_nonempty z) as Hne.
  destruct (JSString.ofInt z) as [|c r] eqn:E; [congruence|]. rewrite <- E. clear Hne.
  unfold JSString.ofInt in *. destruct z as [|p|p]; simpl in E |- *.
  - reflexivity.
  - rewrite string_of_pos.
    rewrite numeric_literal_digits by apply string_of_uint_digits.
    apply unsigned_literal_of_pos.
  - rewrite string_of_pos.
    change (StringToNumber.numeric_literal
              (String "-" (NilEmpty.string_of_uint (Pos.to_uint p))))
      with (StringToNumber.negate
              (StringToNumber.unsigned_literal
                 (NilEmpty.string_of_uint (Pos.to_uint p)))).
    now rewrite unsigned_literal_of_pos.
Qed.

(* ================================================================== *)
(** * Splitting text *)

Lemma splitOn_nonempty (sep : ascii) (s : string) : splitOn sep s <> [].
Proof.
  induction s as [|c s IH]; simpl; [discriminate|].
  destruct (Ascii.eqb c sep); [discriminate|].
  destruct (splitOn sep s); [congruence|discriminate].
Qed.

Lemma splitLines_nonempty (s : string) : splitLines s <> [].
Proof.
  induction s as [|c s IH]; simpl; [discriminate|].
  destruct (Ascii.eqb c LF); [discriminate|].
  assert (Hk : match splitLines s with
               | [] => [String c EmptyString]
               | h :: t => String c h :: t
               end <> []) by (destruct (splitLines s); discriminate).
  destruct (Ascii.eqb c CR); [|exact Hk].
  destruct s as [|d s']; [exact Hk|].
  destruct (Ascii.eqb d LF); [discriminate|exact Hk].
Qed.

(** No piece of a split holds the separator. *)
Lemma splitOn_pieces (sep : ascii) (s : string) :
  Forall (fun p => all_chars (fun c => negb (Ascii.eqb c sep)) p = true) (splitOn sep s).
Proof.
  induction s as [|c s IH]; simpl; [repeat constructor|].
  destruct (Ascii.eqb c sep) eqn:E; [constructor; [reflexivity|exact IH]|].
  destruct (splitOn sep s) as [|h t]; [repeat constructor; simpl; now rewrite E|].
  inversion IH as [|? ? Hh Ht]; subst. constructor; [|exact Ht].
  simpl. now rewrite E, Hh.
Qed.

(** Every character of a piece is a character of the text. *)
Lemma splitOn_chars (p : ascii -> bool) (sep : ascii) (s : string) :
  all_chars p s = true -> Forall (fun x => all_chars p x = true) (splitOn sep s).
Proof.
  induction s as [|c s IH]; simpl; intros H; [repeat constructor|].
  apply andb_true_iff in H. destruct H as [Hc Hs]. specialize (IH Hs).
  destruct (Ascii.eqb c sep); [constructor; [reflexivity|exact IH]|].
  destruct (splitOn sep s) as [|h t]; [repeat constructor; simpl; now rewrite Hc|].
  inversion IH as [|? ? Hh Ht]; subst. constructor; [|exact Ht].
  simpl. now rewrite Hc, Hh.
Qed.

(** No line holds a line feed. *)
Lemma splitLines_pieces (s : string) :
  Forall (fun p => all_chars (fun c => negb (Ascii.eqb c LF)) p = true) (splitLines s).
Proof.
  assert (Hgen : forall n s, (String.length s <= n)%nat ->
    Forall (fun p => all_chars (fun c => negb (Ascii.eqb c LF)) p = true) (splitLines s)).
  { induction n as [|n IH]; intros s' Hlen.
    - destruct s'; [repeat constructor|simpl in Hlen; lia].
    - destruct s' as [|c r]; [repeat constructor|]. simpl in Hlen.
      assert (Hr : Forall (fun p => all_chars (fun c => negb (Ascii.eqb c LF)) p = true)
                     (splitLines r)) by (apply IH; lia).
      cbn [splitLines].
      destruct (Ascii.eqb c LF) eqn:E; [constructor; [reflexivity|exact Hr]|].
      assert (Hk : Forall (fun p => all_chars (fun c => negb (Ascii.eqb c LF)) p = true)
                     match splitLines r with
                     | [] => [String c EmptyString]
                     | h :: t => String c h :: t
                     end).
      { destruct (splitLines r) as [|h t]; [repeat constructor; simpl; now rewrite E|].
        inversion Hr as [|? ? Hh Ht]; subst. constructor; [|exact Ht].
        simpl. now rewrite E, Hh. }
      destruct (Ascii.eqb c CR); [|exact Hk].
      destruct r as [|d r']; [exact Hk|].
      destruct (Ascii.eqb d LF); [|exact Hk].
      constructor; [reflexivity|]. apply IH. simpl in Hlen. lia. }
  apply (Hgen (String.length s)). lia.
Qed.

Lemma splitLines_chars (p : ascii -> bool) (s : string) :
  all_chars p s = true -> Forall (fun x => all_chars p x = true) (splitLines s).
Proof.
  assert (Hgen : forall n s, (String.length s <= n)%nat -> all_chars p s = true ->
    Forall (fun x => all_chars p x = true) (splitLines s)).
  { induction n as [|n IH]; intros s' Hlen Hall.
    - destruct s'; [repeat constructor|simpl in Hlen; lia].
    - destruct s' as [|c r]; [repeat constructor|]. simpl in Hlen.
      simpl in Hall. apply andb_true_iff in Hall. destruct Hall as [Hc Hall].
      assert (Hr : Forall (fun x => all_chars p x = true) (splitLines r))
        by (apply IH; [lia|assumption]).
      cbn [splitLines].
      destruct (Ascii.eqb c LF); [constructor; [reflexivity|exact Hr]|].
      assert (Hk : Forall (fun x => all_chars p x = true)
                     match splitLines r with
                     | [] => [String c EmptyString]
                     | h :: t => String c h :: t
                     end).
      { destruct (splitLines r) as [|h t]; [repeat constructor; simpl; now rewrite Hc|].
        inversion Hr as [|? ? Hh Ht]; subst. constructor; [|exact Ht].
        simpl. now rewrite Hc, Hh. }
      destruct (Ascii.eqb c CR); [|exact Hk].
      destruct r as [|d r']; [exact Hk|].
      destruct (Ascii.eqb d LF); [|exact Hk].
      constructor; [reflexivity|]. apply IH; [simpl in Hlen; lia|].
      simpl in Hall. apply andb_true_iff in Hall. tauto. }
  apply (Hgen (String.length s)). lia.
Qed.

Lemma splitOn_plain (sep : ascii) (s : string) :
  all_chars (fun c => negb (Ascii.eqb c sep)) s = true -> splitOn sep s = [s].
Proof.
  induction s as [|c s IH]; simpl; intros H; [reflexivity|].
  apply andb_true_iff in H. destruct H as [Hc Hs].
  apply negb_true_iff in Hc. now rewrite Hc, (IH Hs).
Qed.

Lemma splitOn_app (sep : ascii) (a b : string) :
  all_chars (fun c => negb (Ascii.eqb c sep)) a = true ->
  splitOn sep (a ++ String sep b) = a :: splitOn sep b.
Proof.
  induction a as [|c a IH]; simpl; intros H.
  - now rewrite Ascii.eqb_refl.
  - apply andb_true_iff in H. destruct H as [Hc Ha].
    apply negb_true_iff in Hc. now rewrite Hc, (IH Ha).
Qed.

Lemma splitOn_concat (sep : ascii) (l : list string) :
  l <> [] ->
  Forall (fun p => all_chars (fun c => negb (Ascii.eqb c sep)) p = true) l ->
  splitOn sep (String.concat (String sep EmptyString) l) = l.
Proof.
  induction l as [|x l IH]; intros Hne Hall; [congruence|].
  inversion Hall as [|? ? Hx Hl]; subst.
  destruct l as [|y l'].
  - simpl. now apply splitOn_plain.
  - change (String.concat (String sep EmptyString) (x :: y :: l'))
      with (x ++ String sep (String.concat (String sep EmptyString) (y :: l')))%string.
    rewrite splitOn_app by assumption. f_equal. apply IH; [discriminate|assumption].
Qed.

Lemma splitLines_plain (s : string) :
  all_chars lineChar s = true -> splitLines s = [s].
Proof.
  induction s as [|c s IH]; simpl; intros H; [reflexivity|].
  apply andb_true_iff in H. destruct H as [Hc Hs]. unfold lineChar in Hc.
  apply andb_true_iff in Hc. destruct Hc as [H1 H2].
  apply negb_true_iff in H1. apply negb_true_iff in H2.
  now rewrite H1, H2, (IH Hs).
Qed.

Lemma splitLines_app (a b : string) :
  all_chars lineChar a = true ->
  splitLines (a ++ String LF b) = a :: splitLines b.
Proof.
  induction a as [|c a IH]; intros H.
  - reflexivity.
  - simpl in H. apply andb_true_iff in H. destruct H as [Hc Ha]. unfold lineChar in Hc.
    apply andb_true_iff in Hc. destruct Hc as [H1 H2].
    apply negb_true_iff in H1. apply negb_true_iff in H2.
    change ((String c a ++ String LF b)%string) with (String c (a ++ String LF b)).
    cbn [splitLines]. now rewrite H1, H2, (IH Ha).
Qed.

Lemma splitLines_concat (l : list string) :
  l <> [] -> Forall (fun p => all_chars lineChar p = true) l ->
  splitLines (String.concat (String LF EmptyString) l) = l.
Proof.
  induction l as [|x l IH]; intros Hne Hall; [congruence|].
  inversion Hall as [|? ? Hx Hl]; subst.
  destruct l as [|y l'].
  - simpl. now apply splitLines_plain.
  - change (String.concat (String LF EmptyString) (x :: y :: l'))
      with (x ++ String LF (String.concat (String LF EmptyString) (y :: l')))%string.
    rewrite splitLines_app by assumption. f_equal. apply IH; [discriminate|assumption].
Qed.

Lemma all_chars_concat (p : ascii -> bool) (sep : string) (l : list string) :
  all_chars p sep = true -> Forall (fun x => all_chars p x = true) l ->
  all_chars p (String.concat sep l) = true.
Proof.
  intros Hsep. induction 1 as [|x l Hx Hl IH]; [reflexivity|].
  destruct l as [|y l']; [exact Hx|].
  change (String.concat sep (x :: y :: l'))
    with (x ++ sep ++ String.concat sep (y :: l'))%string.
  now rewrite !all_chars_append, Hx, Hsep, IH.
Qed.

(* ================================================================== *)
(** * The CSV readers *)

Lemma all_chars_dropLast (p : ascii -> bool) (s : string) :
  all_chars p s = true -> all_chars p (dropLast s) = true.
Proof.
  induction s as [|c s IH]; intros H; [reflexivity|].
  destruct s as [|d s']; [reflexivity|].
  cbn [all_chars] in H. apply andb_true_iff in H. destruct H as [Hc Hs].
  change (dropLast (String c (String d s'))) with (String c (dropLast (String d s'))).
  cbn [all_chars]. rewrite Hc. apply IH. exact Hs.
Qed.

Lemma all_chars_stripQuotes (p : ascii -> bool) (s : string) :
  all_chars p s = true -> all_chars p (stripQuotes s) = true.
Proof.
  intros H. unfold stripQuotes.
  set (t := match s with
            | EmptyString => s
            | String c r => if Ascii.eqb c JSString.dquote then r else s
            end).
  assert (Ht : all_chars p t = true).
  { unfold t. destruct s as [|c r]; [exact H|].
    destruct (Ascii.eqb c JSString.dquote); [|exact H].
    simpl in H. apply andb_true_iff in H. tauto. }
  destruct (lastChar t) as [c|]; [|exact Ht].
  destruct (Ascii.eqb c JSString.dquote); [|exact Ht].
  now apply all_chars_dropLast.
Qed.

Lemma stripQuotes_plain (cell : string) : plainCell cell = true -> stripQuotes cell = cell.
Proof.
  unfold plainCell, stripQuotes. intros H.
  apply andb_true_iff in H. destruct H as [H H3].
  apply andb_true_iff in H. destruct H as [_ H2].
  destruct cell as [|c r]; [reflexivity|].
  apply negb_true_iff in H2. rewrite H2.
  destruct (lastChar (String c r)) as [d|]; [|reflexivity].
  apply negb_true_iff in H3. now rewrite H3.
Qed.

(** X1. [parseCsvRows] never returns an empty table or an empty row, and no
    cell it returns holds a comma or a line feed: a line is cut at every
    comma, inside double quotes as well. *)
Theorem parseCsvRows_cells (text : string) :
  parseCsvRows text <> []
  /\ forall row, In row (parseCsvRows text) ->
       row <> []
       /\ forall cell, In cell row ->
            all_chars (fun c => negb (Ascii.eqb c JSString.comma)
                                && negb (Ascii.eqb c LF)) cell = true.
Proof.
  unfold parseCsvRows. split.
  - pose proof (splitLines_nonempty (JSString.trim text)) as H.
    destruct (splitLines (JSString.trim text)); [congruence|discriminate].
  - intros row Hrow. apply in_map_iff in Hrow. destruct Hrow as [line [<- Hline]].
    split.
    + pose proof (splitOn_nonempty JSString.comma line) as H.
      destruct (splitOn JSString.comma line); [congruence|discriminate].
    + intros cell Hcell. apply in_map_iff in Hcell. destruct Hcell as [piece [<- Hpiece]].
      apply all_chars_stripQuotes.
      pose proof (splitLines_pieces (JSString.trim text)) as HL.
      rewrite Forall_forall in HL. specialize (HL line Hline).
      pose proof (splitOn_pieces JSString.comma line) as HC.
      pose proof (splitOn_chars _ JSString.comma line HL) as HC'.
      rewrite Forall_forall in HC, HC'. specialize (HC piece Hpiece).
      specialize (HC' piece Hpiece). clear - HC HC'.
      induction piece as [|c r IH]; [reflexivity|].
      simpl in *. apply andb_true_iff in HC. apply andb_true_iff in HC'.
      destruct HC as [H1 H2]. destruct HC' as [H3 H4].
      now rewrite H1, H3, IH.
Qed.

Lemma plainChar_parts (c : ascii) :
  plainChar c = true ->
  negb (Ascii.eqb c JSString.comma) = true /\ lineChar c = true.
Proof.
  unfold plainChar, lineChar. intros H.
  apply andb_true_iff in H. destruct H as [H H3].
  apply andb_true_iff in H. destruct H as [H1 H2]. now rewrite H1, H2, H3.
Qed.

Lemma plainCell_chars (cell : string) :
  plainCell cell = true -> all_chars plainChar cell = true.
Proof.
  unfold plainCell. intros H.
  apply andb_true_iff in H. destruct H as [H _].
  apply andb_true_iff in H. tauto.
Qed.

(** X2. A table of plain cells written as CSV text reads back cell for cell,
    when the text has no white space at its two ends. *)
Theorem parseCsvRows_renderCsv (table : list Row) :
  table <> [] ->
  Forall (fun row => row <> [] /\ Forall (fun cell => plainCell cell = true) row) table ->
  JSString.trim (renderCsv table) = renderCsv table ->
  parseCsvRows (renderCsv table) = table.
Proof.
  intros Hne Hrows Htrim. unfold parseCsvRows. rewrite Htrim. unfold renderCsv.
  rewrite splitLines_concat.
  - rewrite map_map. rewrite <- (map_id table) at 2. apply map_ext_in.
    intros row Hrow. rewrite Forall_forall in Hrows.
    destruct (Hrows row Hrow) as [Hrne Hcells].
    rewrite splitOn_concat.
    + rewrite <- (map_id row) at 2. apply map_ext_in. intros cell Hcell.
      rewrite Forall_forall in Hcells. apply stripQuotes_plain. now apply Hcells.
    + assumption.
    + eapply Forall_impl; [|exact Hcells]. intros cell Hcell.
      eapply all_chars_impl; [|apply (plainCell_chars cell Hcell)].
      intros c Hc. apply plainChar_parts in Hc. tauto.
  - destruct table; [congruence|discriminate].
  - apply Forall_forall. intros line Hline. apply in_map_iff in Hline.
    destruct Hline as [row [<- Hrow]]. rewrite Forall_forall in Hrows.
    destruct (Hrows row Hrow) as [_ Hcells].
    apply all_chars_concat; [reflexivity|].
    eapply Forall_impl; [|exact Hcells]. intros cell Hcell.
    eapply all_chars_impl; [|apply (plainCell_chars cell Hcell)].
    intros c Hc. apply plainChar_parts in Hc. tauto.
Qed.

Lemma parseCsvRows_renderCsv_witness :
  parseCsvRows (renderCsv csv_sample) = csv_sample.
Proof.
  apply parseCsvRows_renderCsv.
  - discriminate.
  - repeat (constructor; [split; [discriminate|repeat constructor]|]). constructor.
  - reflexivity.
Defined.

Lemma lastChar_none (s : string) : lastChar s = None -> s = EmptyString.
Proof.
  induction s as [|c s IH]; [reflexivity|]. simpl.
  destruct s as [|d s']; [discriminate|]. intros H. specialize (IH H). discriminate.
Qed.

Lemma lastChar_append (a b : string) :
  b <> EmptyString -> lastChar (a ++ b) = lastChar b.
Proof.
  intros Hb. induction a as [|c a IH]; [reflexivity|].
  change ((String c a ++ b)%string) with (String c (a ++ b)).
  cbn [lastChar]. destruct (a ++ b)%string as [|d r] eqn:E; [|exact IH].
  destruct a; simpl in E; [congruence|discriminate].
Qed.

Lemma lastChar_all_chars (p : ascii -> bool) (s : string) (c : ascii) :
  all_chars p s = true -> lastChar s = Some c -> p c = true.
Proof.
  induction s as [|d s IH]; [discriminate|]. intros H Hl.
  cbn [all_chars] in H. apply andb_true_iff in H. destruct H as [Hd Hs].
  cbn [lastChar] in Hl. destruct s as [|e s'].
  - now injection Hl as <-.
  - now apply IH.
Qed.

Lemma trimEnd_lastChar (s : string) (c : ascii) :
  lastChar s = Some c -> JSString.is_space c = false -> JSString.trimEnd s = s.
Proof.
  induction s as [|d s IH]; [discriminate|]. intros Hl Hc.
  cbn [lastChar] in Hl. cbn [JSString.trimEnd]. destruct s as [|e s'].
  - injection Hl as ->. simpl. now rewrite Hc.
  - rewrite (IH Hl Hc). reflexivity.
Qed.

Lemma trim_ends (c0 c1 : ascii) (r : string) :
  JSString.is_space c0 = false ->
  lastChar (String c0 r) = Some c1 -> JSString.is_space c1 = false ->
  JSString.trim (String c0 r) = String c0 r.
Proof.
  intros H0 Hl H1. unfold JSString.trim. cbn [JSString.trimStart]. rewrite H0.
  now apply (trimEnd_lastChar _ c1).
Qed.

Lemma lastChar_concat (sep : string) (l : list string) :
  l <> [] -> last l EmptyString <> EmptyString ->
  lastChar (String.concat sep l) = lastChar (last l EmptyString).
Proof.
  induction l as [|x l IH]; intros Hne Hlast; [congruence|].
  destruct l as [|y l']; [reflexivity|].
  change (String.concat sep (x :: y :: l'))
    with (x ++ (sep ++ String.concat sep (y :: l')))%string.
  change (last (x :: y :: l') EmptyString) with (last (y :: l') EmptyString) in *.
  assert (Hrest : String.concat sep (y :: l') <> EmptyString).
  { intros E. specialize (IH ltac:(discriminate) Hlast). rewrite E in IH.
    simpl in IH. symmetry in IH. apply lastChar_none in IH. contradiction. }
  rewrite lastChar_append.
  - rewrite lastChar_append by assumption. apply IH; [discriminate|assumption].
  - intros E. destruct sep; simpl in E; [contradiction|discriminate].
Qed.

Lemma cellText_nocomma (c : option Z) :
  all_chars (fun a => negb (Ascii.eqb a JSString.comma)) (cellText c) = true.
Proof.
  destruct c as [z|]; [|reflexivity]. simpl.
  eapply all_chars_impl; [|apply ofInt_chars].
  intros a Ha. destruct (numeral_char_facts a Ha) as (_ & E & _). now rewrite E.
Qed.

Lemma cellText_line (c : option Z) : all_chars lineChar (cellText c) = true.
Proof.
  destruct c as [z|]; [|reflexivity]. simpl.
  eapply all_chars_impl; [|apply ofInt_chars].
  intros a Ha. destruct (numeral_char_facts a Ha) as (_ & _ & _ & E1 & E2).
  unfold lineChar. now rewrite E1, E2.
Qed.

Lemma cellText_trim (c : option Z) : JSString.trim (cellText c) = cellText c.
Proof.
  destruct c as [z|]; [|reflexivity]. apply trim_nospace, ofInt_nospace.
Qed.

Lemma cellText_number (c : option Z) :
  StringToNumber.ofString (cellText c) = cellNumber c.
Proof. destruct c as [z|]; [apply ofString_ofInt|reflexivity]. Qed.

Lemma seriesLine_cells (yv : option Z * option Z) :
  map JSString.trim (splitOn JSString.comma (seriesLine yv))
  = [cellText (fst yv); cellText (snd yv)].
Proof.
  unfold seriesLine. rewrite splitOn_app by apply cellText_nocomma.
  rewrite splitOn_plain by apply cellText_nocomma.
  simpl. now rewrite !cellText_trim.
Qed.

Lemma seriesLine_line (yv : option Z * option Z) :
  all_chars lineChar (seriesLine yv) = true.
Proof.
  unfold seriesLine. rewrite all_chars_append. cbn [all_chars].
  now rewrite !cellText_line.
Qed.

Lemma seriesLine_last (yv : option Z * option Z) :
  exists c, lastChar (seriesLine yv) = Some c /\ JSString.is_space c = false.
Proof.
  unfold seriesLine. rewrite lastChar_append by discriminate.
  destruct (snd yv) as [z|]; simpl cellText.
  - destruct (lastChar (String JSString.comma (JSString.ofInt z))) as [c|] eqn:E.
    + exists c. split; [reflexivity|].
      assert (Hall : all_chars (fun a => negb (JSString.is_space a))
                       (String JSString.comma (JSString.ofInt z)) = true).
      { cbn [all_chars]. now rewrite ofInt_nospace. }
      pose proof (lastChar_all_chars _ _ c Hall E) as H.
      now apply negb_true_iff in H.
    + apply lastChar_none in E. discriminate.
  - exists JSString.comma. split; reflexivity.
Qed.

Lemma renderSeries_trim (l : list (option Z * option Z)) :
  JSString.trim (renderSeries l) = renderSeries l.
Proof.
  unfold renderSeries.
  set (lines := "year,value"%string :: map seriesLine l).
  assert (Hlast : exists c, lastChar (last lines EmptyString) = Some c
                            /\ JSString.is_space c = false).
  { unfold lines. destruct l as [|yv l'] using rev_ind.
    - exists "e"%char. split; reflexivity.
    - rewrite map_app. simpl map. rewrite app_comm_cons, last_last.
      apply seriesLine_last. }
  destruct Hlast as [c [Hc Hs]].
  assert (Hl : lastChar (String.concat (String LF EmptyString) lines) = Some c).
  { rewrite lastChar_concat; [exact Hc|discriminate|].
    intros E. rewrite E in Hc. discriminate. }
  destruct (String.concat (String LF EmptyString) lines) as [|c0 r] eqn:E.
  - discriminate.
  - apply (trim_ends c0 c r); [|exact Hl|exact Hs].
    unfold lines in E. destruct l as [|yv l']; simpl in E.
    + injection E as <- _. reflexivity.
    + injection E as <- _. reflexivity.
Qed.

(** X3. A series of integers of size at most 2^53 (those binary64 holds
    exactly) written under the header line [year,value] reads back row for
    row through [parseCsv]; a blank cell reads as the number 0 and its row
    is kept. *)
Theorem parseCsv_renderSeries (l : list (option Z * option Z)) :
  Forall (fun yv => exactCell (fst yv) /\ exactCell (snd yv)) l ->
  parseCsv (renderSeries l)
  = map (fun yv => Upload.mk (cellNumber (fst yv)) (cellNumber (snd yv))) l.
Proof.
  intros _. unfold parseCsv. rewrite renderSeries_trim. unfold renderSeries.
  rewrite splitLines_concat.
  2:{ discriminate. }
  2:{ constructor; [reflexivity|]. apply Forall_forall. intros line Hline.
      apply in_map_iff in Hline. destruct Hline as [yv [<- _]].
      apply seriesLine_line. }
  change (findIndex (includes "year")
            (map (fun h => JSString.toLowerCase (JSString.trim h))
               (splitOn JSString.comma "year,value"))) with 0%Z.
  change (findIndex (fun h => includes "value" h || includes "index" h)
            (map (fun h => JSString.toLowerCase (JSString.trim h))
               (splitOn JSString.comma "year,value"))) with 1%Z.
  cbv beta iota zeta. change ((0 =? -1)%Z || (1 =? -1)%Z) with false. cbv iota.
  rewrite !map_map.
  induction l as [|yv l IH]; [reflexivity|].
  cbn [map]. rewrite seriesLine_cells.
  change (cellAt [cellText (fst yv); cellText (snd yv)] 0) with (Some (cellText (fst yv))).
  change (cellAt [cellText (fst yv); cellText (snd yv)] 1) with (Some (cellText (snd yv))).
  cbn [StringToNumber.ofCell]. rewrite !cellText_number.
  cbn [filter Upload.year Upload.value].
  assert (Hf : forall c, isFinite (cellNumber c) = true) by (now intros [z|]).
  rewrite !Hf. cbn [andb]. f_equal. exact IH.
Qed.

Lemma parseCsv_renderSeries_witness :
  parseCsv (renderSeries series_sample)
  = [ Upload.mk (Fin (inject_Z 2020)) (Fin (inject_Z 3));
      Upload.mk (Fin (inject_Z 2021)) (Fin 0);
      Upload.mk (Fin (inject_Z 2022)) (Fin (inject_Z (-5)));
      Upload.mk (Fin (inject_Z 2023)) (Fin (inject_Z 9007199254740992)) ].
Proof.
  apply (parseCsv_renderSeries series_sample).
  repeat (constructor; [split; cbn [exactCell fst snd]; first [exact I | lia]|]).
  constructor.
Defined.

Lemma findIndex_none {A : Type} (p : A -> bool) (l : list A) :
  forallb (fun a => negb (p a)) l = true -> findIndex p l = (-1)%Z.
Proof.
  induction l as [|a l IH]; simpl; [reflexivity|]. intros H.
  apply andb_true_iff in H. destruct H as [Ha Hl].
  apply negb_true_iff in Ha. now rewrite Ha, (IH Hl).
Qed.

(** X4. [parseCsv] returns no row at all when no header cell holds [year],
    or none holds [value] or [index] (in any letter case), whatever the
    data lines; and a row it returns always has a finite year and a finite
    value. *)
Theorem parseCsv_needs_both_columns (text : string) :
  (forallb (fun h => negb (includes "year" h)) (uploadHeaders text) = true
   \/ forallb (fun h => negb (includes "value" h || includes "index" h))
        (uploadHeaders text) = true ->
   parseCsv text = [])
  /\ (forall row, In row (parseCsv text) ->
        exists y v, row = Upload.mk (Fin y) (Fin v)).
Proof.
  unfold parseCsv, uploadHeaders.
  pose proof (splitLines_nonempty (JSString.trim text)) as Hne.
  destruct (splitLines (JSString.trim text)) as [|headerLine rows]; [congruence|].
  cbn [hd]. split.
  - intros [H|H]; rewrite (findIndex_none _ _ H); [reflexivity|].
    now rewrite orb_true_r.
  - intros row Hrow.
    destruct ((_ =? -1)%Z || (_ =? -1)%Z); [destruct Hrow|].
    apply filter_In in Hrow. destruct Hrow as [_ Hfin].
    apply andb_true_iff in Hfin. destruct Hfin as [Hy Hv].
    destruct row as [[| |y] [| |v]]; try discriminate. now exists y, v.
Qed.

Lemma parseCsv_needs_both_columns_witness :
  forallb (fun h => negb (includes "year" h)) (uploadHeaders upload_no_year) = true
  /\ parseCsv upload_no_year = []
  /\ In (Upload.mk (Fin (inject_Z 2022)) (Fin (inject_Z 7))) (parseCsv upload_mixed)
  /\ exists y v, Upload.mk (Fin (inject_Z 2022)) (Fin (inject_Z 7))
                 = Upload.mk (Fin y) (Fin v).
Proof.
  assert (Hh : forallb (fun h => negb (includes "year" h))
                 (uploadHeaders upload_no_year) = true) by reflexivity.
  assert (Hin : In (Upload.mk (Fin (inject_Z 2022)) (Fin (inject_Z 7)))
                   (parseCsv upload_mixed)).
  { vm_compute. right. left. reflexivity. }
  split; [exact Hh|]. split; [|split; [exact Hin|]].
  - apply (proj1 (parseCsv_needs_both_columns upload_no_year)). left. exact Hh.
  - apply (proj2 (parseCsv_needs_both_columns upload_mixed) _ Hin).
Defined.

(* ================================================================== *)
(** * Row objects of the first variant *)

Lemma prop_get (row : RowObj) (key : string) : prop row key = JSMap.get String.eqb row key.
Proof.
  induction row as [|[k v] row IH]; simpl; [reflexivity|]. now rewrite IH.
Qed.

Lemma fillRow_other (headers cells : list string) (h : string) :
  forall i row, ~ In h headers ->
  prop (fillRow headers cells i row) h = prop row h.
Proof.
  induction headers as [|h0 hs IH]; intros i row Hout; simpl; [reflexivity|].
  simpl in Hout. rewrite IH by tauto.
  rewrite !prop_get. apply (get_set_other String.eqb String.eqb_eq). tauto.
Qed.

Lemma fillRow_last (headers cells : list string) (h : string) :
  forall i row j,
  nth_error headers j = Some h ->
  (forall k, (j < k)%nat -> nth_error headers k <> Some h) ->
  prop (fillRow headers cells i row) h
  = Some (match nth_error cells (i + j) with Some c => c | None => EmptyString end).
Proof.
  induction headers as [|h0 hs IH]; intros i row j Hj Hlast; [destruct j; discriminate|].
  destruct j as [|j]; simpl in Hj.
  - injection Hj as ->. cbn [fillRow]. rewrite fillRow_other.
    + rewrite prop_get, (get_set_same String.eqb String.eqb_eq). now rewrite Nat.add_0_r.
    + intros Hin. apply In_nth_error in Hin. destruct Hin as [k Hk].
      apply (Hlast (S k)); [lia|exact Hk].
  - cbn [fillRow]. rewrite (IH (S i) _ j Hj).
    + now rewrite Nat.add_succ_r.
    + intros k Hk. apply (Hlast (S k)). lia.
Qed.

Lemma fillRow_defined (headers cells : list string) (h : string) :
  forall i row, In h headers -> exists v, prop (fillRow headers cells i row) h = Some v.
Proof.
  induction headers as [|h0 hs IH]; intros i row Hin; [destruct Hin|].
  cbn [fillRow]. destruct (in_dec string_dec h hs) as [Hhs|Hout].
  - now apply IH.
  - rewrite fillRow_other by assumption. destruct Hin as [->|Hin]; [|contradiction].
    rewrite prop_get, (get_set_same String.eqb String.eqb_eq). eauto.
Qed.

(** X5. [loadCsvAsObjects] throws on a response that is not ok, and else
    returns one row object per line after the first.  Each object defines
    every header cell as a property (the name [__proto__] aside, which an
    object does not store): under a header that appears once (or for the
    last time) at column j it holds the trimmed j-th cell of the line, and
    the empty text, never [undefined], when the line is too short. *)
Theorem loadCsvAsObjects_rows (response : Response) :
  (ok response = false -> loadCsvAsObjects response = None)
  /\ (ok response = true ->
      exists rows,
        loadCsvAsObjects response = Some rows
        /\ List.length rows = List.length (csvDataLines (body response))
        /\ forall k line row,
             nth_error (csvDataLines (body response)) k = Some line ->
             nth_error rows k = Some row ->
             (forall h, In h (csvHeaders (body response)) ->
                h <> "__proto__"%string ->
                exists v, prop row h = Some v)
             /\ (forall j h,
                   nth_error (csvHeaders (body response)) j = Some h ->
                   h <> "__proto__"%string ->
                   (forall j', (j < j')%nat ->
                      nth_error (csvHeaders (body response)) j' <> Some h) ->
                   prop row h
                   = Some (match nth_error (map JSString.trim
                                              (splitOn JSString.comma line)) j with
                           | Some c => c
                           | None => EmptyString
                           end))).
Proof.
  unfold loadCsvAsObjects, csvDataLines, csvHeaders. split.
  - intros ->. reflexivity.
  - intros ->. cbn [negb]. eexists. split; [reflexivity|]. split.
    + apply length_map.
    + intros k line row Hline Hrow.
      rewrite nth_error_map, Hline in Hrow. cbn [option_map] in Hrow.
      injection Hrow as <-. split.
      * intros h Hh _. now apply fillRow_defined.
      * intros j h Hj _ Hlast. now rewrite (fillRow_last _ _ h 0 [] j Hj Hlast).
Qed.

Lemma loadCsvAsObjects_rows_witness :
  loadCsvAsObjects csv_failure = None
  /\ exists rows, loadCsvAsObjects csv_response = Some rows
                  /\ List.length rows = 1%nat.
Proof.
  split.
  - apply (proj1 (loadCsvAsObjects_rows csv_failure)). reflexivity.
  - destruct (proj2 (loadCsvAsObjects_rows csv_response) eq_refl) as (rows & H1 & H2 & _).
    exists rows. split; [exact H1|]. rewrite H2. reflexivity.
Defined.

(* ================================================================== *)
(** * Panel tidier: the year columns and the metric rows *)

Lemma indexOf_first (header : Row) (s : string) :
  forall c, nth_error header c = Some s ->
  (forall j, (j < c)%nat -> nth_error header j <> Some s) ->
  indexOf header s = Z.of_nat c.
Proof.
  induction header as [|h header IH]; intros c Hc Hfirst; [destruct c; discriminate|].
  destruct c as [|c]; simpl in Hc.
  - injection Hc as ->. simpl. now rewrite String.eqb_refl.
  - cbn [indexOf]. destruct (String.eqb_spec h s) as [->|Hne].
    + exfalso. apply (Hfirst 0%nat); [lia|reflexivity].
    + rewrite (IH c Hc).
      * destruct (Z.ltb_spec (Z.of_nat c) 0); lia.
      * intros j Hj. apply (Hfirst (S j)). lia.
Qed.

Lemma fold_set_keeps (pairs : list (string * Z)) (k : string) :
  forall m0 : @JSMap.t string Z,
  (exists v, JSMap.get String.eqb m0 k = Some v) ->
  exists v, JSMap.get String.eqb
              (fold_left (fun m kv => JSMap.set String.eqb m (fst kv) (snd kv)) pairs m0) k
            = Some v.
Proof.
  induction pairs as [|[k' v'] ps IH]; intros m0 H; [exact H|].
  simpl. apply IH. destruct (String.eqb_spec k' k) as [->|Hne].
  - rewrite (get_set_same String.eqb String.eqb_eq). eauto.
  - now rewrite (get_set_other String.eqb String.eqb_eq).
Qed.

Lemma fold_set_has (pairs : list (string * Z)) (k : string) :
  forall m0 : @JSMap.t string Z,
  In k (map fst pairs) ->
  exists v, JSMap.get String.eqb
              (fold_left (fun m kv => JSMap.set String.eqb m (fst kv) (snd kv)) pairs m0) k
            = Some v.
Proof.
  induction pairs as [|[k' v'] ps IH]; intros m0 Hin; [destruct Hin|].
  simpl in *. destruct Hin as [->|Hin].
  - apply fold_set_keeps. rewrite (get_set_same String.eqb String.eqb_eq). eauto.
  - now apply IH.
Qed.

Lemma yearIndexOf_present (header : Row) (years : list Z) (year : Z) :
  In year years ->
  JSMap.get String.eqb (yearIndexOf header years) (JSString.ofInt year)
  = Some (indexOf header (JSString.ofInt year)).
Proof.
  intros Hin.
  destruct (fold_set_has
              (map (fun y => (JSString.ofInt y, indexOf header (JSString.ofInt y))) years)
              (JSString.ofInt year) []) as [v Hv].
  { rewrite map_map. simpl. apply in_map_iff. now exists year. }
  pose proof Hv as Hv'. apply yearIndexOf_get in Hv'. subst v. exact Hv.
Qed.

Lemma cellOfYear_column (header row : Row) (years : list Z) (year : Z) (c : nat) :
  In year years ->
  nth_error header c = Some (JSString.ofInt year) ->
  (forall j, (j < c)%nat -> nth_error header j <> Some (JSString.ofInt year)) ->
  cellOfYear (yearIndexOf header years) row year = nth_error row c.
Proof.
  intros Hin Hc Hfirst. unfold cellOfYear.
  rewrite (yearIndexOf_present header years year Hin).
  rewrite (indexOf_first header _ c Hc Hfirst). unfold cellAt.
  destruct (Z.ltb_spec (Z.of_nat c) 0); [lia|]. now rewrite Nat2Z.id.
Qed.

(** X6. [tidyPanel] reads the metrics of a target year from the first
    header column whose text is that year, and takes the three rows of a
    company block by position: the first is read as Market Cap, the second
    as Revenue and the third as Valuation/Revenue, whatever their Metric
    cell says; each cell goes through [parseNumber]. *)
Theorem tidyPanel_reads_year_column (header : Row) (body : list Row)
    (years : list Z) (year : Z) (c : nat) (b : string * list Row) :
  In year years ->
  nth_error header c = Some (JSString.ofInt year) ->
  (forall j, (j < c)%nat -> nth_error header j <> Some (JSString.ofInt year)) ->
  In b (spec_blocks companyOfRow 0 body) ->
  In (mkRecord (fst b) year
        (parseNumber (nth_error (nth 0 (snd b) []) c))
        (parseNumber (nth_error (nth 1 (snd b) []) c))
        (parseNumber (nth_error (nth 2 (snd b) []) c)))
     (tidyPanel (header :: body) years).
Proof.
  intros Hin Hc Hfirst Hb. rewrite tidyPanel_blocks.
  apply in_flat_map. exists b. split; [exact Hb|].
  unfold tidyPanel_block. apply in_map_iff. exists year. split; [|exact Hin].
  unfold tidyPanel_record.
  rewrite !(cellOfYear_column header _ years year c Hin Hc Hfirst).
  destruct (spec_blocks_company companyOfRow body 0 b Hb) as [[r0 [H0 Hco]] _].
  rewrite nth_error_nth with (x := r0) by exact H0.
  unfold companyOfRow in Hco. now rewrite Hco.
Qed.

Lemma tidyPanel_reads_year_column_witness :
  In (mkRecord "Acme Inc" 1996%Z (Some 12%Q) (Some 3%Q) None)
     (tidyPanel csv_sample [1996]%Z).
Proof.
  apply (tidyPanel_reads_year_column
           ["Company"; "Metric"; "1996"]%string (tl csv_sample) [1996]%Z 1996%Z 2%nat
           ("Acme Inc"%string, tl csv_sample)).
  - now left.
  - reflexivity.
  - intros j Hj. destruct j as [|[|j]]; [discriminate|discriminate|lia].
  - now left.
Defined.

Lemma findMetric_swap (r1 r2 r3 : RowObj) (label : string) :
  prop r2 "Metric" <> prop r3 "Metric" ->
  findMetric [r1; r2; r3] label = findMetric [r1; r3; r2] label.
Proof.
  intros Hne. unfold findMetric. cbn [find].
  destruct (prop r1 "Metric") as [m1|];
    [destruct (String.eqb m1 label); [reflexivity|]|].
  all: destruct (prop r2 "Metric") as [m2|]; destruct (prop r3 "Metric") as [m3|];
    try reflexivity.
  all: try (destruct (String.eqb_spec m2 label)); try (destruct (String.eqb_spec m3 label));
    try reflexivity.
  all: subst; exfalso; apply Hne; reflexivity.
Qed.

(** X7. [tidyPanelJS] finds the metric rows of a company block by their
    Metric cell, not by position: exchanging the second and the third row
    of a block, when their Metric cells differ, leaves the output as it
    is. *)
Theorem tidyPanelJS_block_order (years : list Z) (r1 r2 r3 : RowObj)
    (rest : list RowObj) (c : string) :
  companyOfRowObj r1 = Some c ->
  prop r2 "Metric" <> prop r3 "Metric" ->
  tidyPanelJS (r1 :: r2 :: r3 :: rest) years
  = tidyPanelJS (r1 :: r3 :: r2 :: rest) years.
Proof.
  intros Hc Hne. rewrite !tidyPanelJS_blocks.
  rewrite !(spec_blocks_cons_some companyOfRowObj r1 _ c Hc).
  cbn [flat_map firstn skipn]. f_equal.
  unfold tidyPanelJS_block. cbn [fst snd].
  now rewrite !(findMetric_swap r1 r2 r3 _ Hne).
Qed.

Lemma tidyPanelJS_block_order_witness :
  tidyPanelJS [nth 0 tidy_tableJS []; nth 1 tidy_tableJS []; nth 2 tidy_tableJS []] [1996]%Z
  = tidyPanelJS [nth 0 tidy_tableJS []; nth 2 tidy_tableJS []; nth 1 tidy_tableJS []] [1996]%Z.
Proof.
  apply (tidyPanelJS_block_order [1996]%Z _ _ _ [] "Acme"%string).
  - reflexivity.
  - discriminate.
Defined.

(* ================================================================== *)
(** * Median of the logged ratios *)

Lemma insertReal_perm (x : R) (l : list R) : Permutation (insertReal x l) (x :: l).
Proof.
  induction l as [|y l IH]; simpl; [reflexivity|].
  destruct (JSReal.ltb x y); [reflexivity|].
  rewrite IH. apply perm_swap.
Qed.

Lemma sortReal_perm (l : list R) : Permutation (sortReal l) l.
Proof.
  induction l as [|x l IH]; simpl; [reflexivity|].
  rewrite insertReal_perm. now constructor.
Qed.

Lemma insertReal_sorted (x : R) (l : list R) :
  StronglySorted Rle l -> StronglySorted Rle (insertReal x l).
Proof.
  induction 1 as [|y l Hs IH Hall]; simpl.
  - repeat constructor.
  - unfold JSReal.ltb. destruct (Rlt_dec x y) as [Hlt|Hge].
    + constructor; [now constructor|].
      constructor; [lra|].
      eapply Forall_impl; [|exact Hall]. simpl; intros; lra.
    + constructor; [assumption|].
      eapply Permutation_Forall; [symmetry; apply insertReal_perm|].
      constructor; [lra|assumption].
Qed.

Lemma sortReal_sorted (l : list R) : StronglySorted Rle (sortReal l).
Proof.
  induction l as [|x l IH]; simpl; [constructor|now apply insertReal_sorted].
Qed.

(** Two ascending arrangements of the same numbers are the same list. *)
Lemma sorted_perm_unique (l1 : list R) :
  forall l2, StronglySorted Rle l1 -> StronglySorted Rle l2 ->
  Permutation l1 l2 -> l1 = l2.
Proof.
  induction l1 as [|a l1 IH]; intros l2 H1 H2 Hp.
  - apply Permutation_nil in Hp. now subst.
  - destruct l2 as [|b l2]; [apply Permutation_sym, Permutation_nil in Hp; discriminate|].
    inversion H1 as [|? ? Hs1 Ha]; subst. inversion H2 as [|? ? Hs2 Hb]; subst.
    rewrite Forall_forall in Ha, Hb.
    assert (Hab : a = b).
    { assert (In b (a :: l1)) as [E|Hin]
        by (eapply Permutation_in; [symmetry; exact Hp|now left]); [exact E|].
      assert (In a (b :: l2)) as [E|Hin']
        by (eapply Permutation_in; [exact Hp|now left]); [now symmetry|].
      specialize (Ha b Hin). specialize (Hb a Hin'). lra. }
    subst b. f_equal. apply IH; try assumption.
    eapply Permutation_cons_inv. exact Hp.
Qed.

Lemma sortReal_order_independent (l l' : list R) :
  Permutation l l' -> sortReal l = sortReal l'.
Proof.
  intros Hp. apply sorted_perm_unique; try apply sortReal_sorted.
  rewrite !sortReal_perm. exact Hp.
Qed.

Lemma safeLog_perm (s s' : list (option R)) :
  Permutation s s' -> Permutation (safeLog s) (safeLog s').
Proof.
  induction 1 as [|x l l' Hp IH|x y l|l l' l'' H1 IH1 H2 IH2].
  - reflexivity.
  - simpl. destruct x as [v|]; [|exact IH].
    destruct (JSReal.ltb 0 v); [now constructor|exact IH].
  - simpl. destruct x as [v|], y as [w|]; try reflexivity;
      try (destruct (JSReal.ltb 0 v)); try (destruct (JSReal.ltb 0 w));
      try reflexivity. apply perm_swap.
  - now transitivity (safeLog l').
Qed.

Lemma safeLog_In (series : list (option R)) (x : R) :
  In x (safeLog series) <-> exists v, In (Some v) series /\ (0 < v)%R /\ x = ln v.
Proof.
  induction series as [|[v|] series IH]; simpl.
  - split; [tauto|]. intros [v [[] _]].
  - destruct (JSReal.ltb 0 v) eqn:E.
    + apply ltb_true_iff in E. simpl. rewrite IH. split.
      * intros [<-|[w [Hw Hr]]]; [exists v; auto|exists w; tauto].
      * intros [w [[Hw|Hw] [Hpos Hx]]]; [injection Hw as ->; now left|right; eauto].
    + apply ltb_false_iff in E. rewrite IH. split.
      * intros [w [Hw Hr]]. exists w; tauto.
      * intros [w [[Hw|Hw] [Hpos Hx]]]; [injection Hw as ->; lra|eauto].
  - rewrite IH. split.
    + intros [w [Hw Hr]]. exists w; tauto.
    + intros [w [[Hw|Hw] Hr]]; [discriminate|eauto].
Qed.

(** X8. [medianLog] does not depend on the order of the ratios it is given. *)
Theorem medianLog_order_independent (series series' : list (option R)) :
  Permutation series series' -> medianLog series = medianLog series'.
Proof.
  intros Hp. unfold medianLog.
  pose proof (safeLog_perm _ _ Hp) as Hl.
  rewrite (sortReal_order_independent _ _ Hl).
  destruct (safeLog series) as [|a l] eqn:E1; destruct (safeLog series') as [|b l'] eqn:E2;
    try reflexivity.
  - apply Permutation_nil in Hl. discriminate.
  - apply Permutation_sym, Permutation_nil in Hl. discriminate.
Qed.

Lemma medianLog_order_independent_witness :
  medianLog [Some 1%R; None; Some 2%R] = medianLog [None; Some 2%R; Some 1%R].
Proof.
  apply medianLog_order_independent.
  apply perm_trans with (l' := [None; Some 1%R; Some 2%R]).
  - apply perm_swap.
  - apply perm_skip, perm_swap.
Defined.

Lemma medianLog_none (series : list (option R)) :
  medianLog series = None <-> safeLog series = [].
Proof.
  unfold medianLog. destruct (safeLog series) as [|a l]; [tauto|].
  split; [|discriminate]. destruct (_ =? 0)%nat; discriminate.
Qed.

Lemma peakRatios_In (peak : list Z) (rows : list (TidyRecord R)) (v : option R) :
  In v (peakRatios peak rows)
  <-> exists r, In r rows /\ In (Year r) peak /\ ValRev r = v.
Proof.
  unfold peakRatios. rewrite in_map_iff. split.
  - intros [r [Hv Hr]]. apply filter_In in Hr. destruct Hr as [Hr Hp].
    exists r. repeat split; try assumption.
    apply existsb_exists in Hp. destruct Hp as [y [Hy E]].
    apply Z.eqb_eq in E. now rewrite E.
  - intros [r [Hr [Hp Hv]]]. exists r. split; [assumption|].
    apply filter_In. split; [assumption|].
    apply existsb_exists. exists (Year r). split; [assumption|apply Z.eqb_refl].
Qed.

(** X9. A bar of [medianBars] is null exactly when its cohort has no
    positive ratio in its peak years (1999-2000 for the dot-com cohort,
    2023-2025 for the two AI cohorts); records of other years, null ratios
    and non-positive ratios never count. *)
Theorem medianBars_null_iff (dotcom aiPure aiNiche : list (TidyRecord R)) :
  List.length (medianBars dotcom aiPure aiNiche) = 3%nat
  /\ (nth_error (medianBars dotcom aiPure aiNiche) 0 = Some None
      <-> no_positive_ratio [1999; 2000]%Z dotcom)
  /\ (nth_error (medianBars dotcom aiPure aiNiche) 1 = Some None
      <-> no_positive_ratio [2023; 2024; 2025]%Z aiPure)
  /\ (nth_error (medianBars dotcom aiPure aiNiche) 2 = Some None
      <-> no_positive_ratio [2023; 2024; 2025]%Z aiNiche).
Proof.
  assert (H : forall peak rows,
            medianLog (peakRatios peak rows) = None
            <-> (forall r v, In r rows -> In (Year r) peak -> ValRev r = Some v -> (v <= 0)%R)).
  { intros peak rows. rewrite medianLog_none. split.
    - intros E r v Hr Hp Hv. destruct (Rle_dec v 0) as [|Hpos]; [assumption|].
      assert (Hin : In (ln v) (safeLog (peakRatios peak rows))).
      { apply safeLog_In. exists v. split; [|split; [lra|reflexivity]].
        apply peakRatios_In. now exists r. }
      rewrite E in Hin. destruct Hin.
    - intros Hno. destruct (safeLog (peakRatios peak rows)) as [|x l] eqn:E; [reflexivity|].
      assert (Hin : In x (safeLog (peakRatios peak rows))) by (rewrite E; now left).
      apply safeLog_In in Hin. destruct Hin as [v [Hv [Hpos _]]].
      apply peakRatios_In in Hv. destruct Hv as [r [Hr [Hp Hv]]].
      specialize (Hno r v Hr Hp Hv). lra. }
  unfold medianBars, no_positive_ratio. cbn [nth_error List.length].
  split; [reflexivity|].
  split; [|split]; (split; [intros E; injection E as E; exact (proj1 (H _ _) E)
                           |intros Hno; f_equal; exact (proj2 (H _ _) Hno)]).
Qed.

Lemma leb_true_iff (x y : R) : JSReal.leb x y = true <-> (x <= y)%R.
Proof.
  unfold JSReal.leb. destruct (Rle_dec x y); split; auto; discriminate.
Qed.

Lemma sorted_firstn_le (s : list R) :
  StronglySorted Rle s ->
  forall k, (k < List.length s)%nat ->
  Forall (fun x => (x <= nth k s 0)%R) (firstn (S k) s).
Proof.
  induction 1 as [|a s Hs IH Ha]; intros k Hk; [simpl in Hk; lia|].
  destruct k as [|k].
  - simpl. constructor; [lra|constructor].
  - change (firstn (S (S k)) (a :: s)) with (a :: firstn (S k) s).
    change (nth (S k) (a :: s) 0%R) with (nth k s 0%R).
    simpl in Hk. constructor; [|apply IH; lia].
    rewrite Forall_forall in Ha. apply Ha, nth_In. lia.
Qed.

Lemma sorted_skipn_ge (s : list R) :
  StronglySorted Rle s ->
  forall k, (k < List.length s)%nat ->
  Forall (fun x => (nth k s 0 <= x)%R) (skipn k s).
Proof.
  induction 1 as [|a s Hs IH Ha]; intros k Hk; [simpl in Hk; lia|].
  destruct k as [|k].
  - simpl. constructor; [lra|exact Ha].
  - simpl. simpl in Hk. apply IH. lia.
Qed.

Lemma sorted_nth_le (s : list R) :
  StronglySorted Rle s ->
  forall i j, (i <= j)%nat -> (j < List.length s)%nat -> (nth i s 0 <= nth j s 0)%R.
Proof.
  intros Hs i j Hij Hj.
  pose proof (sorted_skipn_ge s Hs i ltac:(lia)) as H.
  rewrite Forall_forall in H. apply H.
  replace j with (i + (j - i))%nat by lia.
  rewrite <- nth_skipn. apply nth_In. rewrite length_skipn. lia.
Qed.

Lemma filter_all {A : Type} (p : A -> bool) (l : list A) :
  Forall (fun x => p x = true) l -> filter p l = l.
Proof.
  induction 1 as [|x l Hx _ IH]; simpl; [reflexivity|]. now rewrite Hx, IH.
Qed.

Lemma filter_length_prefix {A : Type} (p : A -> bool) (l : list A) (j : nat) :
  (j <= List.length l)%nat ->
  Forall (fun x => p x = true) (firstn j l) ->
  (j <= List.length (filter p l))%nat.
Proof.
  intros Hj Hall. rewrite <- (firstn_skipn j l) at 1.
  rewrite filter_app, length_app, (filter_all p _ Hall), length_firstn. lia.
Qed.

Lemma filter_length_suffix {A : Type} (p : A -> bool) (l : list A) (j : nat) :
  Forall (fun x => p x = true) (skipn j l) ->
  (List.length l - j <= List.length (filter p l))%nat.
Proof.
  intros Hall. rewrite <- (firstn_skipn j l) at 2.
  rewrite filter_app, length_app, (filter_all p _ Hall), length_skipn. lia.
Qed.

Lemma filter_length_perm {A : Type} (p : A -> bool) (l l' : list A) :
  Permutation l l' -> List.length (filter p l) = List.length (filter p l').
Proof.
  induction 1 as [|x l l' _ IH|x y l|l l' l'' _ IH1 _ IH2]; simpl.
  - reflexivity.
  - destruct (p x); simpl; now rewrite IH.
  - destruct (p x), (p y); reflexivity.
  - now rewrite IH1.
Qed.

(** X10. The number [medianLog] returns is a median of the logged positive
    ratios: at least half of them are at most it and at least half of them
    are at least it. *)
Theorem medianLog_is_median (series : list (option R)) (m : R) :
  medianLog series = Some m ->
  (List.length (safeLog series)
     <= 2 * List.length (filter (fun x => JSReal.leb x m) (safeLog series)))%nat
  /\ (List.length (safeLog series)
     <= 2 * List.length (filter (fun x => JSReal.leb m x) (safeLog series)))%nat.
Proof.
  unfold medianLog. intros Hm.
  pose proof (sortReal_perm (safeLog series)) as Hp.
  pose proof (sortReal_sorted (safeLog series)) as Hs.
  pose proof (Permutation_length Hp) as Hlen.
  rewrite <- (filter_length_perm _ _ _ Hp), <- (filter_length_perm _ _ _ Hp), <- Hlen.
  set (s := sortReal (safeLog series)) in *.
  assert (Hn : (0 < List.length s)%nat).
  { rewrite Hlen. destruct (safeLog series); [discriminate|simpl; lia]. }
  assert (Hm' : (if (List.length s mod 2 =? 0)%nat
                 then Some ((nth (List.length s / 2 - 1) s 0 + nth (List.length s / 2) s 0) / 2)%R
                 else Some (nth (List.length s / 2) s 0%R)) = Some m).
  { destruct (safeLog series); [discriminate|exact Hm]. }
  clear Hm.
  pose proof (Nat.div_mod_eq (List.length s) 2) as Hdm.
  pose proof (Nat.mod_upper_bound (List.length s) 2 ltac:(lia)) as Hmod.
  set (n := List.length s) in *. set (mid := (n / 2)%nat) in *.
  destruct (Nat.eqb_spec (n mod 2) 0) as [Heven|Hodd].
  - injection Hm' as <-.
    assert (Hmid : (1 <= mid)%nat) by lia.
    pose proof (sorted_nth_le s Hs (mid - 1) mid ltac:(lia) ltac:(fold n; lia)) as Hle.
    split.
    + assert (mid <= List.length (filter (fun x => JSReal.leb x
                ((nth (mid - 1) s 0 + nth mid s 0) / 2)%R) s))%nat; [|lia].
      apply filter_length_prefix; [fold n; lia|].
      pose proof (sorted_firstn_le s Hs (mid - 1) ltac:(fold n; lia)) as Hf.
      replace (S (mid - 1)) with mid in Hf by lia.
      eapply Forall_impl; [|exact Hf]. simpl. intros x Hx.
      apply leb_true_iff. lra.
    + assert (n - mid <= List.length (filter (fun x => JSReal.leb
                ((nth (mid - 1) s 0 + nth mid s 0) / 2)%R x) s))%nat; [|lia].
      apply filter_length_suffix.
      pose proof (sorted_skipn_ge s Hs mid ltac:(fold n; lia)) as Hf.
      eapply Forall_impl; [|exact Hf]. simpl. intros x Hx.
      apply leb_true_iff. lra.
  - injection Hm' as <-. split.
    + assert (S mid <= List.length (filter (fun x => JSReal.leb x (nth mid s 0%R)) s))%nat; [|lia].
      apply filter_length_prefix; [fold n; lia|].
      pose proof (sorted_firstn_le s Hs mid ltac:(fold n; lia)) as Hf.
      eapply Forall_impl; [|exact Hf]. simpl. intros x Hx.
      now apply leb_true_iff.
    + assert (n - mid <= List.length (filter (fun x => JSReal.leb (nth mid s 0%R) x) s))%nat; [|lia].
      apply filter_length_suffix.
      pose proof (sorted_skipn_ge s Hs mid ltac:(fold n; lia)) as Hf.
      eapply Forall_impl; [|exact Hf]. simpl. intros x Hx.
      now apply leb_true_iff.
Qed.

Lemma safeLog_positives (series : list (option R)) :
  safeLog series = map ln (positives series).
Proof.
  induction series as [|[v|] series IH]; simpl; try assumption; [reflexivity|].
  destruct (JSReal.ltb 0 v); simpl; now rewrite IH.
Qed.

Lemma positives_pos (series : list (option R)) :
  Forall (fun x => (0 < x)%R) (positives series).
Proof.
  induction series as [|[v|] series IH]; simpl; try assumption; [constructor|].
  destruct (JSReal.ltb 0 v) eqn:E; [|assumption].
  constructor; [now apply ltb_true_iff|assumption].
Qed.

Lemma ltb_ln (x y : R) : (0 < x)%R -> (0 < y)%R -> JSReal.ltb (ln x) (ln y) = JSReal.ltb x y.
Proof.
  intros Hx Hy. destruct (JSReal.ltb x y) eqn:E.
  - apply ltb_true_iff in E. apply ltb_true_iff. now apply ln_increasing.
  - apply ltb_false_iff in E. apply ltb_false_iff. intros H. apply E.
    now apply ln_lt_inv.
Qed.

Lemma insertReal_ln (x : R) (l : list R) :
  (0 < x)%R -> Forall (fun y => (0 < y)%R) l ->
  insertReal (ln x) (map ln l) = map ln (insertReal x l).
Proof.
  intros Hx. induction 1 as [|y l Hy _ IH]; simpl; [reflexivity|].
  rewrite (ltb_ln x y Hx Hy). destruct (JSReal.ltb x y); simpl; [reflexivity|].
  now rewrite IH.
Qed.

Lemma sortReal_ln (l : list R) :
  Forall (fun y => (0 < y)%R) l -> sortReal (map ln l) = map ln (sortReal l).
Proof.
  induction 1 as [|x l Hx Hl IH]; simpl; [reflexivity|].
  fold (sortReal (map ln l)). fold (sortReal l). rewrite IH.
  apply insertReal_ln; [assumption|].
  eapply Permutation_Forall; [symmetry; apply sortReal_perm|assumption].
Qed.

Lemma nth_map_ln (k : nat) (s : list R) :
  (k < List.length s)%nat -> nth k (map ln s) 0%R = ln (nth k s 0%R).
Proof.
  intros Hk. rewrite (nth_indep _ 0%R (ln 0)) by (now rewrite length_map).
  apply map_nth.
Qed.

(** X11. In terms of the ratios themselves: with the positive ratios sorted,
    [medianLog] is the logarithm of the middle one when their number is
    odd, and the logarithm of the geometric mean of the two middle ones
    when it is even. *)
Theorem medianLog_of_sorted_ratios (series : list (option R)) :
  positives series <> [] ->
  let s := sortReal (positives series) in
  let mid := (List.length s / 2)%nat in
  medianLog series
  = if (List.length s mod 2 =? 0)%nat
    then Some (ln (sqrt (nth (mid - 1) s 0 * nth mid s 0)%R))
    else Some (ln (nth mid s 0%R)).
Proof.
  intros Hne s mid. unfold medianLog. rewrite safeLog_positives.
  assert (Hn : (0 < List.length s)%nat).
  { unfold s. rewrite (Permutation_length (sortReal_perm _)).
    destruct (positives series); [congruence|simpl; lia]. }
  transitivity
    (let sorted := sortReal (map ln (positives series)) in
     let mid := (List.length sorted / 2)%nat in
     if (List.length sorted mod 2 =? 0)%nat
     then Some ((nth (mid - 1) sorted 0 + nth mid sorted 0) / 2)%R
     else Some (nth mid sorted 0%R)).
  { destruct (positives series); [congruence|reflexivity]. }
  cbv zeta. rewrite sortReal_ln by apply positives_pos. fold s.
  rewrite length_map. fold mid.
  assert (Hpos : Forall (fun x => (0 < x)%R) s).
  { eapply Permutation_Forall; [symmetry; apply sortReal_perm|apply positives_pos]. }
  pose proof (Nat.div_mod_eq (List.length s) 2) as Hdm.
  pose proof (Nat.mod_upper_bound (List.length s) 2 ltac:(lia)) as Hmod.
  fold mid in Hdm.
  destruct (Nat.eqb_spec (List.length s mod 2) 0) as [Heven|Hodd].
  - rewrite !nth_map_ln by lia. f_equal.
    rewrite Forall_forall in Hpos.
    assert (H1 : (0 < nth (mid - 1) s 0)%R) by (apply Hpos, nth_In; lia).
    assert (H2 : (0 < nth mid s 0)%R) by (apply Hpos, nth_In; lia).
    rewrite <- Rpower_sqrt by (now apply Rmult_lt_0_compat).
    rewrite ln_Rpower, ln_mult by assumption. lra.
  - rewrite nth_map_ln by lia. reflexivity.
Qed.

Lemma positives_sample : positives ratios_sample = [3; 1; 2; 4]%R.
Proof.
  unfold ratios_sample. cbn [positives].
  repeat match goal with
         | |- context [JSReal.ltb ?a ?b] =>
             first [ replace (JSReal.ltb a b) with true
                       by (symmetry; apply ltb_true_iff; lra)
                   | replace (JSReal.ltb a b) with false
                       by (symmetry; apply ltb_false_iff; lra) ]
         end.
  reflexivity.
Qed.

Lemma positives_odd : positives ratios_odd = [5; 1; 3]%R.
Proof.
  unfold ratios_odd. cbn [positives].
  repeat match goal with
         | |- context [JSReal.ltb ?a ?b] =>
             replace (JSReal.ltb a b) with true by (symmetry; apply ltb_true_iff; lra)
         end.
  reflexivity.
Qed.

Lemma sortReal_sample : sortReal [3; 1; 2; 4]%R = [1; 2; 3; 4]%R.
Proof.
  unfold sortReal. cbn [fold_right].
  repeat (cbn [insertReal];
          match goal with
          | |- context [JSReal.ltb ?a ?b] =>
              first [ replace (JSReal.ltb a b) with true
                        by (symmetry; apply ltb_true_iff; lra)
                    | replace (JSReal.ltb a b) with false
                        by (symmetry; apply ltb_false_iff; lra) ]
          end; cbv iota).
  reflexivity.
Qed.

Lemma sortReal_odd : sortReal [5; 1; 3]%R = [1; 3; 5]%R.
Proof.
  unfold sortReal. cbn [fold_right].
  repeat (cbn [insertReal];
          match goal with
          | |- context [JSReal.ltb ?a ?b] =>
              first [ replace (JSReal.ltb a b) with true
                        by (symmetry; apply ltb_true_iff; lra)
                    | replace (JSReal.ltb a b) with false
                        by (symmetry; apply ltb_false_iff; lra) ]
          end; cbv iota).
  reflexivity.
Qed.

(** The median of the sample: the mean of the logarithms of its two middle
    ratios, 2 and 3. *)
Lemma medianLog_sample : medianLog ratios_sample = Some ((ln 2 + ln 3) / 2)%R.
Proof.
  unfold medianLog. rewrite safeLog_positives, positives_sample.
  rewrite sortReal_ln by (repeat constructor; lra).
  rewrite sortReal_sample. reflexivity.
Qed.

Lemma medianLog_is_median_witness :
  medianLog ratios_sample = Some ((ln 2 + ln 3) / 2)%R
  /\ (List.length (safeLog ratios_sample)
      <= 2 * List.length (filter (fun x => JSReal.leb x ((ln 2 + ln 3) / 2))
                                 (safeLog ratios_sample)))%nat
  /\ (List.length (safeLog ratios_sample)
      <= 2 * List.length (filter (fun x => JSReal.leb ((ln 2 + ln 3) / 2) x)
                                 (safeLog ratios_sample)))%nat.
Proof.
  split; [exact medianLog_sample|].
  exact (medianLog_is_median ratios_sample ((ln 2 + ln 3) / 2) medianLog_sample).
Defined.

Lemma medianLog_of_sorted_ratios_witness :
  medianLog ratios_sample = Some (ln (sqrt (2 * 3)))
  /\ medianLog ratios_odd = Some (ln 3).
Proof.
  split.
  - pose proof (medianLog_of_sorted_ratios ratios_sample) as H.
    rewrite positives_sample, sortReal_sample in H.
    exact (H ltac:(discriminate)).
  - pose proof (medianLog_of_sorted_ratios ratios_odd) as H.
    rewrite positives_odd, sortReal_odd in H.
    exact (H ltac:(discriminate)).
Defined.

(** X22. The box plot has one sample per cohort.  A number is in a sample
    exactly when it is the logarithm of a positive ratio of a record of the
    cohort in its peak years, and a sample is empty exactly when the median
    bar of the cohort is null, so the two charts agree on which cohorts
    have data. *)
Theorem boxPlotData_samples (dotcom aiPure aiNiche : list (TidyRecord R)) :
  List.length (boxPlotData dotcom aiPure aiNiche) = 3%nat
  /\ forall i sample,
       nth_error (boxPlotData dotcom aiPure aiNiche) i = Some sample ->
       let rows := nth i [dotcom; aiPure; aiNiche] [] in
       let peak := nth i [[1999; 2000]; [2023; 2024; 2025]; [2023; 2024; 2025]]%Z [] in
       (forall x, In x sample
                  <-> exists r v, In r rows /\ In (Year r) peak
                                  /\ ValRev r = Some v /\ (0 < v)%R /\ x = ln v)
       /\ (sample = []
           <-> nth_error (medianBars dotcom aiPure aiNiche) i = Some None).
Proof.
  split; [reflexivity|].
  assert (H : forall peak rows,
            (forall x, In x (safeLog (peakRatios peak rows))
                       <-> exists r v, In r rows /\ In (Year r) peak
                                       /\ ValRev r = Some v /\ (0 < v)%R /\ x = ln v)
            /\ (safeLog (peakRatios peak rows) = []
                <-> Some (medianLog (peakRatios peak rows)) = Some None)).
  { intros peak rows. split.
    - intros x. rewrite safeLog_In. split.
      + intros [v [Hv [Hpos Hx]]]. apply peakRatios_In in Hv.
        destruct Hv as [r [Hr [Hp Hv]]]. exists r, v. tauto.
      + intros [r [v [Hr [Hp [Hv [Hpos Hx]]]]]]. exists v. split; [|tauto].
        apply peakRatios_In. now exists r.
    - rewrite <- medianLog_none. split; [now intros ->|congruence]. }
  intros i sample Hi.
  destruct i as [|[|[|i]]]; cbn [nth_error boxPlotData medianBars nth] in *;
    try (injection Hi as <-; apply H).
  destruct i; discriminate.
Qed.

(* ================================================================== *)
(** * The scenario in log space *)

(** X12. For a growth rate above -100 the scenario is a straight line in
    log space: the value of the k-th projected year is the last observed
    value plus k times ln(1 + rate/100), so already the first projected
    year (2025) is one step above the last observation; for a positive
    rate every projected value exceeds the last observed one. *)
Theorem scenario_log_linear (s : AlignedSeries) (customGrowth : R) (pre : list R) (L : R) :
  nonNull (bigTech s) = pre ++ [L] ->
  (-100 < customGrowth)%R ->
  data (scenario (Some s) customGrowth)
  = map (fun k => (L + INR k * ln (1 + customGrowth / 100))%R) (seq 1 8)
  /\ ((0 < customGrowth)%R ->
      Forall (fun v => (L < v)%R) (data (scenario (Some s) customGrowth))).
Proof.
  intros Hlast Hg.
  assert (Hbase : (0 < 1 + customGrowth / 100)%R) by lra.
  assert (Hdata : data (scenario (Some s) customGrowth)
                  = map (fun k => (L + INR k * ln (1 + customGrowth / 100))%R) (seq 1 8)).
  { rewrite (scenario_some s customGrowth pre L Hlast). cbn [data].
    apply map_ext. intros k.
    rewrite ln_mult by (try apply exp_pos; now apply pow_lt).
    rewrite ln_exp, ln_pow by assumption. reflexivity. }
  split; [exact Hdata|].
  intros Hpos. rewrite Hdata. apply Forall_forall. intros v Hv.
  apply in_map_iff in Hv. destruct Hv as [k [<- Hk]]. apply in_seq in Hk.
  assert (Hln : (0 < ln (1 + customGrowth / 100))%R).
  { rewrite <- ln_1. apply ln_increasing; lra. }
  assert (Hk' : (0 < INR k)%R) by (apply lt_0_INR; lia).
  pose proof (Rmult_lt_0_compat _ _ Hk' Hln). lra.
Qed.

Lemma scenario_log_linear_witness :
  data (scenario (Some scenario_ln20) 18)
  = map (fun k => (ln 20 + INR k * ln (1 + 18 / 100))%R) (seq 1 8)
  /\ Forall (fun v => (ln 20 < v)%R) (data (scenario (Some scenario_ln20) 18)).
Proof.
  destruct (scenario_log_linear scenario_ln20 18 [] (ln 20) eq_refl ltac:(lra)) as [H1 H2].
  split; [exact H1|apply H2; lra].
Defined.

(* ================================================================== *)
(** * The statistics panel *)

Lemma at_makeAligned_out (labels ys : list Z) (vs : list R) (i : nat) (y : Z) :
  nth_error labels i = Some y -> ~ In y ys -> at_ (makeAligned labels ys vs) i = None.
Proof.
  intros Hi Hout. unfold at_.
  change (makeAligned labels ys vs) with (map (makeAligned_at ys vs) labels).
  rewrite nth_error_map, Hi. simpl. now apply makeAligned_at_out.
Qed.

Lemma at_makeAligned_beyond (labels ys : list Z) (vs : list R) (i : nat) :
  nth_error labels i = None -> at_ (makeAligned labels ys vs) i = None.
Proof.
  intros Hi. unfold at_.
  change (makeAligned labels ys vs) with (map (makeAligned_at ys vs) labels).
  now rewrite nth_error_map, Hi.
Qed.

Lemma metaStats_never_both (s : AlignedSeries) (fi : list IndexedYear) :
  (forall i, at_ (dotcom s) i = None \/ at_ (bigTech s) i = None) ->
  metaStats (Some s) fi = None.
Proof.
  intros H. unfold metaStats. destruct fi as [|first rest]; [reflexivity|].
  destruct (H (idx first)) as [E|E]; rewrite E.
  - destruct (at_ (bigTech s) (idx first)); [|reflexivity].
    destruct (at_ (bigTech s) (idx (last (first :: rest) first))); reflexivity.
  - reflexivity.
Qed.

Lemma metaStats_disjoint_years (dot big niche : YearSeries) (range : Z * Z) :
  (forall y, In y (years dot) -> ~ In y (years big)) ->
  metaStats (Some (alignSeries dot big niche))
    (filteredIndices (Some (alignSeries dot big niche)) range) = None.
Proof.
  intros Hdisj. apply metaStats_never_both. intros i. unfold alignSeries.
  cbn [dotcom bigTech].
  set (labels := sortNum (setOf [] (years dot ++ years big ++ years niche))).
  destruct (nth_error labels i) as [y|] eqn:Hi.
  - destruct (in_dec Z.eq_dec y (years dot)) as [Hin|Hout].
    + right. apply (at_makeAligned_out labels _ _ i y Hi). now apply Hdisj.
    + left. now apply (at_makeAligned_out labels _ _ i y Hi).
  - left. now apply at_makeAligned_beyond.
Qed.

(** X13. When no year has a valid ratio in both the dot-com and the Big Tech
    cohort, the statistics panel shows nothing, whatever the year range:
    the memo has no index at which both cohorts have a value. *)
Theorem metaStats_disjoint_cohorts (dotcom aiPure aiNiche : list (TidyRecord R))
    (range : Z * Z) :
  (forall r1 r2, In r1 dotcom -> In r2 aiPure -> spec_valid r1 -> spec_valid r2 ->
                 Year r1 <> Year r2) ->
  exists memo, series dotcom aiPure aiNiche = Some memo
               /\ metaStats memo (filteredIndices memo range) = None.
Proof.
  intros Hdisj.
  destruct (aggregator_returns_series dotcom) as (dot & Hdot & _ & _ & Hyd & _).
  destruct (aggregator_returns_series aiPure) as (big & Hbig & _ & _ & Hyb & _).
  destruct (aggregator_returns_series aiNiche) as (niche & Hniche & _).
  assert (Hs : metaStats (Some (alignSeries dot big niche))
                 (filteredIndices (Some (alignSeries dot big niche)) range) = None).
  { apply metaStats_disjoint_years. intros y Hin Hin'.
    apply Hyd in Hin. apply Hyb in Hin'.
    destruct Hin as (r1 & Hr1 & Hy1 & Hv1). destruct Hin' as (r2 & Hr2 & Hy2 & Hv2).
    apply (Hdisj r1 r2 Hr1 Hr2 Hv1 Hv2). congruence. }
  unfold series. rewrite Hdot, Hbig, Hniche. simpl bindT.
  destruct dotcom as [|d ds]; [|eexists; split; [reflexivity|exact Hs]].
  destruct aiPure as [|a aps]; [|eexists; split; [reflexivity|exact Hs]].
  destruct aiNiche as [|n ns]; [|eexists; split; [reflexivity|exact Hs]].
  exists None. split; reflexivity.
Qed.

Lemma metaStats_disjoint_cohorts_witness :
  exists memo, series cohort_1999 cohort_2024 [] = Some memo
               /\ metaStats memo (filteredIndices memo (1996, 2025)%Z) = None.
Proof.
  apply metaStats_disjoint_cohorts.
  intros r1 r2 [<-|[]] [<-|[]] _ _. simpl. lia.
Defined.

Lemma Rpower_root_pow (x : R) (n : nat) :
  (0 < x)%R -> (1 <= n)%nat -> (Rpower x (1 / INR n) ^ n = x)%R.
Proof.
  intros Hx Hn.
  assert (Hp : (0 < INR n)%R) by (apply lt_0_INR; lia).
  rewrite <- Rpower_pow by apply exp_pos.
  rewrite Rpower_mult.
  replace (1 / INR n * INR n)%R with 1%R by (field; lra).
  now apply Rpower_1.
Qed.

(** X14. When the statistics panel shows numbers, they are read at the
    first and the last index of the range: each change is the end ratio
    minus the start ratio, and compounding the start ratio at the shown
    growth rate over [max 1 (n - 1)] steps, [n] the number of axis years in
    the range, gives the end ratio.  With one year in the range both changes
    and both rates are zero. *)
Theorem metaStats_growth (s : AlignedSeries) (fi : list IndexedYear) (st : Stats) :
  metaStats (Some s) fi = Some st ->
  exists first a0 a1 d0 d1,
    hd_error fi = Some first
    /\ at_ (bigTech s) (idx first) = Some a0
    /\ at_ (bigTech s) (idx (last fi first)) = Some a1
    /\ at_ (dotcom s) (idx first) = Some d0
    /\ at_ (dotcom s) (idx (last fi first)) = Some d1
    /\ aiChange st = (exp a1 - exp a0)%R
    /\ dcChange st = (exp d1 - exp d0)%R
    /\ (exp a0 * (1 + aiCagr st / 100) ^ Nat.max 1 (List.length fi - 1) = exp a1)%R
    /\ (exp d0 * (1 + dcCagr st / 100) ^ Nat.max 1 (List.length fi - 1) = exp d1)%R
    /\ (List.length fi = 1%nat ->
        aiChange st = 0%R /\ dcChange st = 0%R /\ aiCagr st = 0%R /\ dcCagr st = 0%R).
Proof.
  unfold metaStats. destruct fi as [|first rest]; [discriminate|].
  destruct (at_ (bigTech s) (idx first)) as [a0|] eqn:Ea0; [|discriminate].
  destruct (at_ (bigTech s) (idx (last (first :: rest) first))) as [a1|] eqn:Ea1;
    [|discriminate].
  destruct (at_ (dotcom s) (idx first)) as [d0|] eqn:Ed0; [|discriminate].
  destruct (at_ (dotcom s) (idx (last (first :: rest) first))) as [d1|] eqn:Ed1;
    [|discriminate].
  intros E. injection E as <-.
  exists first, a0, a1, d0, d1. cbn [hd_error aiChange dcChange aiCagr dcCagr].
  set (n := Nat.max 1 (List.length (first :: rest) - 1)).
  assert (Hn : (1 <= n)%nat) by (unfold n; lia).
  assert (Hroot : forall x0 x1 : R,
            (exp x0 * (1 + (Rpower (exp x1 / exp x0) (1 / INR n) - 1) * 100 / 100) ^ n
             = exp x1)%R).
  { intros x0 x1. pose proof (exp_pos x0) as H0. pose proof (exp_pos x1) as H1.
    replace (1 + (Rpower (exp x1 / exp x0) (1 / INR n) - 1) * 100 / 100)%R
      with (Rpower (exp x1 / exp x0) (1 / INR n)) by lra.
    rewrite Rpower_root_pow; [field; lra| |assumption].
    apply Rdiv_lt_0_compat; assumption. }
  repeat (split; [first [reflexivity | assumption | apply Hroot]|]).
  intros Hone. destruct rest as [|e rest]; [|simpl in Hone; lia].
  cbn [last] in Ea1, Ed1. rewrite Ea0 in Ea1. rewrite Ed0 in Ed1.
  injection Ea1 as <-. injection Ed1 as <-.
  assert (Hq : forall x : R, ((Rpower (exp x / exp x) (1 / INR n) - 1) * 100 = 0)%R).
  { intros x. pose proof (exp_pos x).
    replace (exp x / exp x)%R with 1%R by (field; lra).
    unfold Rpower. rewrite ln_1, Rmult_0_r, exp_0. lra. }
  repeat split; first [lra | apply Hq].
Qed.

Lemma metaStats_growth_witness :
  exists st,
    metaStats (Some growth_sample)
      (filteredIndices (Some growth_sample) (1996, 2025)%Z) = Some st
    /\ aiChange st = 6%R
    /\ dcChange st = 9%R
    /\ (2 * (1 + aiCagr st / 100) ^ 2 = 8)%R
    /\ (3 * (1 + dcCagr st / 100) ^ 2 = 12)%R.
Proof.
  eexists. split; [reflexivity|].
  destruct (metaStats_growth growth_sample
              (filteredIndices (Some growth_sample) (1996, 2025)%Z) _ eq_refl)
    as (first & a0 & a1 & d0 & d1 & Hf & Ha0 & Ha1 & Hd0 & Hd1 & Hac & Hdc & Hag & Hdg & _).
  change (filteredIndices (Some growth_sample) (1996, 2025)%Z)
    with [mkIndexed 2020 0; mkIndexed 2021 1; mkIndexed 2022 2] in *.
  match goal with |- aiChange ?s = _ /\ _ => set (st := s) in * end.
  injection Hf as <-.
  cbn [last idx at_ growth_sample bigTech dotcom nth_error] in Ha0, Ha1, Hd0, Hd1.
  injection Ha0 as <-. injection Ha1 as <-. injection Hd0 as <-. injection Hd1 as <-.
  change (Nat.max 1 (List.length [mkIndexed 2020 0; mkIndexed 2021 1; mkIndexed 2022 2] - 1))
    with 2%nat in Hag, Hdg.
  rewrite !exp_ln in Hac, Hdc, Hag, Hdg by lra.
  split; [rewrite Hac; lra|]. split; [rewrite Hdc; lra|].
  split; [exact Hag|exact Hdg].
Defined.

(* ================================================================== *)
(** * The controls of the page *)

Lemma parseCsv_finite (text : string) :
  Forall (fun row => isFinite (Upload.year row) && isFinite (Upload.value row) = true)
         (parseCsv text).
Proof.
  unfold parseCsv. destruct (splitLines (JSString.trim text)) as [|h rows]; [constructor|].
  destruct (_ || _); [constructor|].
  apply Forall_forall. intros row Hin. apply filter_In in Hin. tauto.
Qed.

Lemma handle_ok (st : AppState) (e : Event) : state_ok st -> state_ok (handle st e).
Proof.
  intros [Hr Hu]. destruct e; unfold state_ok; cbn [handle range uploads fst snd];
    try (split; [first [assumption | lia]|assumption]).
  - split; [lia|constructor].
  - unfold addUpload. pose proof (parseCsv_finite text) as Hfin.
    destruct (parseCsv text) as [|row rows]; [split; assumption|].
    cbn [range uploads]. split; [assumption|].
    apply Forall_app. split; [assumption|]. constructor; [|constructor].
    cbn [fst snd]. split; [|split; [discriminate|assumption]].
    destruct (stripCsvSuffix name); discriminate.
Qed.

Lemma fold_handle_ok (events : list Event) :
  forall st, state_ok st -> state_ok (fold_left handle events st).
Proof.
  induction events as [|e events IH]; intros st Hst; [assumption|].
  simpl. apply IH. now apply handle_ok.
Qed.

(** X15. Whatever the user does with the controls, in any order: the year
    range stays ordered (from <= to); every stored upload has a non-empty
    label, at least one row, and only finite years and values; and "Reset
    selections" brings back the initial state, uploads included. *)
Theorem run_invariants (events : list Event) :
  (fst (range (run events)) <= snd (range (run events)))%Z
  /\ Forall (fun u => fst u <> EmptyString
                      /\ snd u <> []
                      /\ Forall (fun row => isFinite (Upload.year row)
                                            && isFinite (Upload.value row) = true) (snd u))
            (uploads (run events))
  /\ run (events ++ [Reset]) = initialState.
Proof.
  split; [|split].
  - apply (fold_handle_ok events initialState). split; [simpl; lia|constructor].
  - apply (fold_handle_ok events initialState). split; [simpl; lia|constructor].
  - unfold run. rewrite fold_left_app. reflexivity.
Qed.

(* ================================================================== *)
(** * The years in range *)

Lemma filteredIndices_from (p : Z -> bool) (l : list Z) :
  forall k,
  map iyear (filter (fun e => p (iyear e)) (mapIndexed (fun i y => mkIndexed y i) k l))
  = filter p l
  /\ StronglySorted lt
       (map idx (filter (fun e => p (iyear e)) (mapIndexed (fun i y => mkIndexed y i) k l)))
  /\ Forall (fun e => (k <= idx e)%nat /\ nth_error l (idx e - k) = Some (iyear e))
       (filter (fun e => p (iyear e)) (mapIndexed (fun i y => mkIndexed y i) k l)).
Proof.
  induction l as [|y l IH]; intros k; cbn [mapIndexed filter map].
  - repeat split; constructor.
  - destruct (IH (S k)) as (Hy & Hs & Hall).
    assert (Hall' : Forall (fun e => (k <= idx e)%nat
                                     /\ nth_error (y :: l) (idx e - k) = Some (iyear e))
                      (filter (fun e => p (iyear e))
                              (mapIndexed (fun i y => mkIndexed y i) (S k) l))).
    { eapply Forall_impl; [|exact Hall]. cbv beta. intros e [Hk He]. split; [lia|].
      replace (idx e - k)%nat with (S (idx e - S k)) by lia. exact He. }
    cbn [iyear]. destruct (p y); cbn [map iyear idx].
    + split; [now rewrite Hy|]. split.
      * constructor; [assumption|]. apply Forall_forall. intros i Hi.
        apply in_map_iff in Hi. destruct Hi as [e [<- He]].
        rewrite Forall_forall in Hall. apply Hall in He. lia.
      * constructor; [|assumption]. cbn [idx iyear]. rewrite Nat.sub_diag. now split.
    + repeat split; assumption.
Qed.

(** X16. The entries of [filteredIndices] are the years of the axis inside
    the range, in axis order; each entry carries the position of its year
    in the axis, and the positions increase.  There is none when the memo is
    null or the range is empty. *)
Theorem filteredIndices_spec (s : AlignedSeries) (range : Z * Z) :
  map iyear (filteredIndices (Some s) range)
  = filter (fun y => (fst range <=? y)%Z && (y <=? snd range)%Z) (axis s)
  /\ StronglySorted lt (map idx (filteredIndices (Some s) range))
  /\ (forall e, In e (filteredIndices (Some s) range) ->
        nth_error (axis s) (idx e) = Some (iyear e)
        /\ (fst range <= iyear e <= snd range)%Z)
  /\ filteredIndices None range = []
  /\ ((snd range < fst range)%Z -> filteredIndices (Some s) range = []).
Proof.
  unfold filteredIndices.
  destruct (filteredIndices_from (fun y => (fst range <=? y)%Z && (y <=? snd range)%Z)
              (axis s) 0) as (Hy & Hs & Hall).
  assert (Hin : forall e,
            In e (filter (fun e => (fst range <=? iyear e)%Z && (iyear e <=? snd range)%Z)
                    (mapIndexed (fun i y => mkIndexed y i) 0 (axis s))) ->
            nth_error (axis s) (idx e) = Some (iyear e)
            /\ (fst range <= iyear e <= snd range)%Z).
  { intros e He. rewrite Forall_forall in Hall. destruct (Hall e He) as [_ Hn].
    rewrite Nat.sub_0_r in Hn. split; [assumption|].
    apply filter_In in He. destruct He as [_ Hp]. lia. }
  split; [exact Hy|]. split; [exact Hs|]. split; [exact Hin|]. split; [reflexivity|].
  intros Hempty.
  destruct (filter _ _) as [|e l] eqn:E; [reflexivity|].
  destruct (Hin e (or_introl eq_refl)) as [_ Hr]. lia.
Qed.

(* ================================================================== *)
(** * The chart data on the full label axis *)

Lemma ofPairsAny_get_other {V : Type} (pairs : list (Z * V)) (y : Z) :
  forall m0, ~ In y (map fst pairs) ->
  JSMap.get Z.eqb (fold_left (fun m kv => JSMap.set Z.eqb m (fst kv) (snd kv)) pairs m0) y
  = JSMap.get Z.eqb m0 y.
Proof.
  induction pairs as [|[k v] ps IH]; intros m0 Hout; simpl; [reflexivity|].
  simpl in Hout. rewrite IH by tauto.
  apply (get_set_other Z.eqb Z.eqb_eq). tauto.
Qed.

Lemma ofPairsAny_get_in {V : Type} (pairs : list (Z * V)) (y : Z) (v : V) :
  forall m0, NoDup (map fst pairs) -> In (y, v) pairs ->
  JSMap.get Z.eqb (fold_left (fun m kv => JSMap.set Z.eqb m (fst kv) (snd kv)) pairs m0) y
  = Some v.
Proof.
  induction pairs as [|[k w] ps IH]; intros m0 Hnd Hin; [destruct Hin|].
  simpl in *. inversion Hnd as [|? ? Hk Hnd']; subst.
  destruct Hin as [E|Hin].
  - injection E as -> ->.
    rewrite ofPairsAny_get_other by assumption.
    apply (get_set_same Z.eqb Z.eqb_eq).
  - now apply IH.
Qed.

Lemma zipIndexAny_keys {V : Type} (ys : list Z) (vs : list V) :
  forall k, map fst (zipIndexAny ys vs k) = ys.
Proof. induction ys as [|y ys IH]; intros k; simpl; [reflexivity|now rewrite IH]. Qed.

Lemma zipIndexAny_In {V : Type} (ys : list Z) (vs : list V) :
  forall k i y, nth_error ys i = Some y ->
  In (y, nth_error vs (k + i)) (zipIndexAny ys vs k).
Proof.
  induction ys as [|y0 ys IH]; intros k i y Hi; destruct i; simpl in *; try discriminate.
  - injection Hi as ->. rewrite Nat.add_0_r. now left.
  - right. rewrite Nat.add_succ_r. now apply (IH (S k)).
Qed.

Lemma align_at_out (ys : list Z) (vs : list (option R)) (y : Z) :
  ~ In y ys -> align_at ys vs y = None.
Proof.
  intros Hout. unfold align_at, JSMap.has, JSMap.ofPairs.
  rewrite ofPairsAny_get_other by (now rewrite zipIndexAny_keys). reflexivity.
Qed.

Lemma align_at_in (ys : list Z) (vs : list (option R)) (y : Z) (i : nat) :
  NoDup ys -> nth_error ys i = Some y -> align_at ys vs y = at_ vs i.
Proof.
  intros Hnd Hi. unfold align_at, JSMap.has, JSMap.ofPairs, at_.
  rewrite (ofPairsAny_get_in _ y (nth_error vs i)).
  - destruct (nth_error vs i) as [[v|]|]; reflexivity.
  - now rewrite zipIndexAny_keys.
  - apply (zipIndexAny_In ys vs 0 i y Hi).
Qed.

Lemma at_align (labels ys : list Z) (vs : list (option R)) (j : nat) (y : Z) :
  nth_error labels j = Some y -> at_ (align labels ys vs) j = align_at ys vs y.
Proof.
  intros Hj. unfold at_.
  change (align labels ys vs) with (map (align_at ys vs) labels).
  now rewrite nth_error_map, Hj.
Qed.

Lemma length_align (labels ys : list Z) (vs : list (option R)) :
  List.length (align labels ys vs) = List.length labels.
Proof. unfold align. apply length_map. Qed.

Lemma scenarioYears_cases (series : option AlignedSeries) (g : R) :
  scenarioYears (scenario series g) = []
  \/ scenarioYears (scenario series g) = [2025; 2026; 2027; 2028; 2029; 2030; 2031; 2032]%Z.
Proof.
  destruct series as [s|]; [|now left].
  destruct (nonNull (bigTech s)) as [|b bs] eqn:E.
  - left. now rewrite scenario_empty.
  - right. destruct (nonempty_last_split (b :: bs) ltac:(discriminate)) as (pre & L & Hl).
    rewrite Hl in E. now rewrite (scenario_some s g pre L E).
Qed.

Lemma scenarioYears_NoDup (series : option AlignedSeries) (g : R) :
  NoDup (scenarioYears (scenario series g)).
Proof.
  destruct (scenarioYears_cases series g) as [-> | ->]; [constructor|].
  apply strict_sorted_NoDup. repeat (constructor; [|repeat (constructor; [lia|])]); constructor.
Qed.

(** X17. The chart data of the memo [alignSeries dot big niche]: the label
    axis is ascending without duplicates and holds exactly the years of
    the memo and of the scenario; each of the four arrays is as long as
    the label axis; at the label of a year of the memo a cohort has its
    smoothed value of that year, and null at a label the memo does not
    have; the scenario array has the projected value at a projected year
    and null elsewhere. *)
Theorem alignedData_on_labels (dot big niche : YearSeries) (smooth : Z) (customGrowth : R) :
  let s := alignSeries dot big niche in
  let sc := scenario (Some s) customGrowth in
  let labels := allLabels (Some s) sc in
  exists ad,
    alignedData (Some s) smooth customGrowth = Some ad
    /\ StronglySorted Z.lt labels
    /\ (forall y, In y labels <-> In y (axis s) \/ In y (scenarioYears sc))
    /\ List.length (adDotcom ad) = List.length labels
    /\ List.length (adBigTech ad) = List.length labels
    /\ List.length (adPureAI ad) = List.length labels
    /\ List.length (adScenario ad) = List.length labels
    /\ forall j y, nth_error labels j = Some y ->
         (forall i, nth_error (axis s) i = Some y ->
            at_ (adDotcom ad) j = at_ (movingAverage (dotcom s) smooth) i
            /\ at_ (adBigTech ad) j = at_ (movingAverage (bigTech s) smooth) i
            /\ at_ (adPureAI ad) j = at_ (movingAverage (pureAI s) smooth) i)
         /\ (~ In y (axis s) ->
            at_ (adDotcom ad) j = None /\ at_ (adBigTech ad) j = None
            /\ at_ (adPureAI ad) j = None)
         /\ (forall k, nth_error (scenarioYears sc) k = Some y ->
            at_ (adScenario ad) j = nth_error (data sc) k)
         /\ (~ In y (scenarioYears sc) -> at_ (adScenario ad) j = None).
Proof.
  intros s sc labels.
  assert (Hnd : NoDup (axis s)).
  { apply strict_sorted_NoDup. unfold s, alignSeries. cbn [axis].
    apply sortNum_strict, setOf_NoDup. }
  eexists. split; [reflexivity|]. cbn [adDotcom adBigTech adPureAI adScenario].
  fold sc. fold labels.
  split; [apply sortNum_strict, setOf_NoDup|].
  split. { intros y. unfold labels, allLabels. rewrite sortNum_In, setOf_In, in_app_iff.
           simpl. tauto. }
  rewrite !length_align.
  repeat (split; [reflexivity|]).
  intros j y Hj.
  split; [|split; [|split]].
  - intros i Hi. rewrite !(at_align labels _ _ j y Hj).
    rewrite !(align_at_in _ _ y i Hnd Hi). repeat split.
  - intros Hout. rewrite !(at_align labels _ _ j y Hj).
    rewrite !(align_at_out _ _ y Hout). repeat split.
  - intros k Hk. rewrite (at_align labels _ _ j y Hj).
    rewrite (align_at_in _ _ y k (scenarioYears_NoDup _ _) Hk).
    unfold at_. rewrite nth_error_map. now destruct (nth_error (data sc) k).
  - intros Hout. rewrite (at_align labels _ _ j y Hj).
    now apply align_at_out.
Qed.

(* ================================================================== *)
(** * Uploaded series on the label axis *)

Section JSMapSameKey.
Context {K V : Type}.
Variable eqb : K -> K -> bool.
Hypothesis eqb_comm : forall a b, eqb a b = eqb b a.
Hypothesis eqb_trans : forall a b c, eqb a b = true -> eqb b c = true -> eqb a c = true.

Implicit Types (m : @JSMap.t K V) (k : K) (v : V).

Lemma get_set_same_key m (k k' : K) (v : V) :
  eqb k k' = true -> JSMap.get eqb (JSMap.set eqb m k v) k' = Some v.
Proof.
  intros Hk. induction m as [|[k0 v0] m IH]; simpl.
  - now rewrite Hk.
  - destruct (eqb k0 k) eqn:E; simpl.
    + now rewrite (eqb_trans k0 k k' E Hk).
    + destruct (eqb k0 k') eqn:E'; [|exact IH].
      rewrite (eqb_comm k k') in Hk. rewrite (eqb_trans k0 k' k E' Hk) in E. discriminate.
Qed.

Lemma get_set_other_key m (k k' : K) (v : V) :
  eqb k k' = false -> JSMap.get eqb (JSMap.set eqb m k v) k' = JSMap.get eqb m k'.
Proof.
  intros Hk. induction m as [|[k0 v0] m IH]; simpl.
  - now rewrite Hk.
  - destruct (eqb k0 k) eqn:E; simpl.
    + destruct (eqb k0 k') eqn:E'; [|reflexivity].
      rewrite (eqb_comm k0 k) in E. rewrite (eqb_trans k k0 k' E E') in Hk. discriminate.
    + now rewrite IH.
Qed.

Lemma fold_set_other_keys (pairs : list (K * V)) (k' : K) :
  forall m, (forall p, In p pairs -> eqb (fst p) k' = false) ->
  JSMap.get eqb (fold_left (fun m kv => JSMap.set eqb m (fst kv) (snd kv)) pairs m) k'
  = JSMap.get eqb m k'.
Proof.
  induction pairs as [|[k v] ps IH]; intros m Hout; simpl; [reflexivity|].
  rewrite IH by (intros p Hp; apply Hout; now right).
  apply get_set_other_key. apply (Hout (k, v)). now left.
Qed.

Lemma fold_set_last_key (pre post : list (K * V)) (k k' : K) (v : V) :
  eqb k k' = true -> (forall p, In p post -> eqb (fst p) k' = false) ->
  JSMap.get eqb (JSMap.ofPairs eqb (pre ++ (k, v) :: post)) k' = Some v.
Proof.
  intros Hk Hpost. unfold JSMap.ofPairs. rewrite fold_left_app. simpl.
  rewrite fold_set_other_keys by assumption.
  now apply get_set_same_key.
Qed.
End JSMapSameKey.

Lemma sameNumber_comm (a b : JSNumber) : sameNumber a b = sameNumber b a.
Proof.
  destruct a as [|s|q], b as [|t|r]; simpl; try reflexivity.
  - now destruct s, t.
  - apply Qeq_bool_comm.
Qed.

Lemma sameNumber_trans (a b c : JSNumber) :
  sameNumber a b = true -> sameNumber b c = true -> sameNumber a c = true.
Proof.
  destruct a as [|s|q], b as [|t|r], c as [|u|p]; simpl; try discriminate; try reflexivity.
  - destruct s, t, u; simpl; congruence.
  - apply Qeq_bool_trans.
Qed.

(** X18. The data of an uploaded series has one entry per label.  A label
    whose year no row has gives null; when several rows have the year of a
    label, the last of them gives the value; and the value is logged as it
    is: a zero or negative value is not dropped but gives minus infinity or
    NaN. *)
Theorem uploadData_on_labels (labels : list Z) (entry : list Upload.row) :
  List.length (uploadData labels entry) = List.length labels
  /\ (forall j label, nth_error labels j = Some label ->
        ((forall row, In row entry ->
            sameNumber (Upload.year row) (Fin (inject_Z label)) = false) ->
         nth_error (uploadData labels entry) j = Some None)
        /\ (forall pre row post v,
              entry = pre ++ row :: post ->
              sameNumber (Upload.year row) (Fin (inject_Z label)) = true ->
              Upload.value row = Fin v ->
              (forall r, In r post ->
                 sameNumber (Upload.year r) (Fin (inject_Z label)) = false) ->
              nth_error (uploadData labels entry) j = Some (Some (logOfQ v))))
  /\ (forall v, logOfQ v = LogNegInfinity <-> v == 0)
  /\ (forall v, logOfQ v = LogNaN <-> v < 0)
  /\ (forall v, logOfQ v = LogFin (ln (Q2R v)) <-> 0 < v).
Proof.
  split; [apply length_map|]. split.
  - intros j label Hj. unfold uploadData. rewrite nth_error_map, Hj. cbn [option_map].
    split.
    + intros Hnone. unfold JSMap.ofPairs.
      rewrite (fold_set_other_keys sameNumber sameNumber_comm sameNumber_trans).
      * reflexivity.
      * intros p Hp. apply in_map_iff in Hp. destruct Hp as [row [<- Hrow]].
        now apply Hnone.
    + intros pre row post v -> Hyear Hval Hpost.
      rewrite map_app. cbn [map].
      rewrite (fold_set_last_key sameNumber sameNumber_comm sameNumber_trans
                 _ _ _ _ _ Hyear).
      * now rewrite Hval.
      * intros p Hp. apply in_map_iff in Hp. destruct Hp as [r [<- Hr]].
        now apply Hpost.
  - unfold logOfQ, Qeq, Qlt. repeat split; intros H;
      destruct v as [[|n|n] d]; cbn [Qnum Qden] in *;
      try discriminate; try reflexivity; try lia.
Qed.

(* ================================================================== *)
(** * The smoother stays within the data *)

Lemma sum_between (l : list R) (lo hi : R) :
  (forall w, In w l -> (lo <= w <= hi)%R) ->
  (INR (List.length l) * lo <= fold_right Rplus 0 l <= INR (List.length l) * hi)%R.
Proof.
  induction l as [|a l IH]; intros H.
  - simpl. lra.
  - change (List.length (a :: l)) with (S (List.length l)). rewrite S_INR.
    cbn [fold_right].
    pose proof (H a (or_introl eq_refl)).
    pose proof (IH (fun w Hw => H w (or_intror Hw))). lra.
Qed.

Lemma spec_mean_between (l : list R) (lo hi : R) :
  l <> [] -> (forall w, In w l -> (lo <= w <= hi)%R) ->
  (lo <= spec_mean l <= hi)%R.
Proof.
  intros Hne H. unfold spec_mean.
  pose proof (sum_between l lo hi H) as Hs.
  assert (Hn : (0 < INR (List.length l))%R).
  { apply lt_0_INR. destruct l; [congruence|simpl; lia]. }
  set (n := INR (List.length l)) in *. set (t := fold_right Rplus 0%R l) in *.
  assert (Hinv : (0 < / n)%R) by now apply Rinv_0_lt_compat.
  replace lo with (n * lo * / n)%R by (field; lra).
  replace hi with (n * hi * / n)%R by (field; lra).
  unfold Rdiv. split; apply Rmult_le_compat_r; lra.
Qed.

Lemma spec_window_In (x : list (option R)) (W : Z) (i : nat) (w : R) :
  In w (spec_window x W i) -> In (Some w) x.
Proof.
  unfold spec_window. intros H. apply in_flat_map in H. destruct H as [j [_ Hj]].
  destruct (nth_error x j) as [[v|]|] eqn:E; try destruct Hj.
  - subst. eapply nth_error_In. exact E.
  - destruct H.
Qed.

(** X19. Smoothing never leaves the range of the data by more than the
    rounding: when every non-null value of the sequence lies between [lo]
    and [hi] (both below 10^21 in size), every non-null smoothed value lies
    between [lo - 0.00005] and [hi + 0.00005], for every window. *)
Theorem movingAverage_within_range (x : list (option R)) (W : Z) (lo hi : R) :
  (- 10 ^ 21 < lo)%R -> (hi < 10 ^ 21)%R ->
  (forall v, In (Some v) x -> (lo <= v <= hi)%R) ->
  forall v, In (Some v) (movingAverage x W) ->
            (lo - / 20000 <= v <= hi + / 20000)%R.
Proof.
  intros Hlo Hhi Hx v Hv.
  destruct (Z.leb_spec W 1) as [Hle|Hgt].
  - rewrite movingAverage_le_one in Hv by assumption.
    specialize (Hx v Hv). lra.
  - apply In_nth_error in Hv. destruct Hv as [i Hi].
    rewrite nth_error_movingAverage in Hi by assumption.
    destruct (nth_error x i) as [[u|]|] eqn:E; cbn [option_map] in Hi;
      [|discriminate Hi|discriminate Hi].
    rewrite (movingAverage_at_some x W i u ltac:(lia) E) in Hi.
    assert (Hv : v = JSReal.toFixed4 (spec_mean (spec_window x W i))) by congruence.
    subst v. clear Hi.
    assert (Hm : (lo <= spec_mean (spec_window x W i) <= hi)%R).
    { apply spec_mean_between.
      - intros Hnil. pose proof (own_value_in_window x W i u ltac:(lia) E) as Hin.
        rewrite Hnil in Hin. destruct Hin.
      - intros w Hw. apply Hx. eapply spec_window_In. exact Hw. }
    assert (Habs : (Rabs (spec_mean (spec_window x W i)) < 10 ^ 21)%R).
    { apply Rabs_def1; lra. }
    destruct (toFixed4_rounds _ Habs) as [_ Hr].
    unfold Rabs in Hr. destruct (Rcase_abs _) in Hr; lra.
Qed.

Lemma movingAverage_within_range_witness :
  (1 - / 20000 <= JSReal.toFixed4 (JSReal.average [1; 2]) <= 5 + / 20000)%R.
Proof.
  apply (movingAverage_within_range smoother_sample 3 1 5).
  - lra.
  - lra.
  - intros v [E|[E|[E|[E|[E|[]]]]]]; try discriminate; injection E as <-; lra.
  - left. reflexivity.
Defined.

(* ================================================================== *)
(** * The scatter plot *)

Lemma eraEqb_eq (a b : EraName) : eraEqb a b = true <-> a = b.
Proof. destruct a, b; simpl; split; congruence. Qed.

Lemma scatter_test (rev mc : R) :
  negb (JSReal.truthy rev) || negb (JSReal.truthy mc)
    || JSReal.leb rev 0 || JSReal.leb mc 0
  = negb (JSReal.ltb 0 rev && JSReal.ltb 0 mc).
Proof.
  unfold JSReal.truthy, JSReal.leb, JSReal.ltb.
  destruct (Req_dec_T rev 0), (Req_dec_T mc 0), (Rle_dec rev 0), (Rle_dec mc 0),
    (Rlt_dec 0 rev), (Rlt_dec 0 mc); simpl; try reflexivity; lra.
Qed.

(** The rows of one era add their points to the entry of the era, which is
    created by the first of them. *)
Lemma scatter_fold_era (e : EraName) (rows : list (TidyRecord R)) :
  forall acc,
  fold_left scatter_step (withEra e rows) acc
  = match positivePoints rows with
    | [] => acc
    | pts => JSMap.set eraEqb acc e
               (match JSMap.get eraEqb acc e with Some old => old | None => [] end ++ pts)
    end.
Proof.
  induction rows as [|r rows IH]; intros acc; [reflexivity|].
  cbn [withEra map fold_left]. fold (withEra e rows). rewrite IH.
  unfold positivePoints. cbn [flat_map]. fold (positivePoints rows).
  unfold scatter_step. cbn [fields Era].
  destruct (Revenue r) as [rev|]; [|reflexivity].
  destruct (MarketCap r) as [mc|]; [|reflexivity].
  rewrite scatter_test.
  destruct (JSReal.ltb 0 rev && JSReal.ltb 0 mc); cbn [negb app]; [|reflexivity].
  destruct (positivePoints rows) as [|p pts]; [reflexivity|].
  rewrite (get_set_same eraEqb eraEqb_eq), (set_set eraEqb eraEqb_eq).
  now rewrite <- app_assoc.
Qed.

(** X20. With the rows of each cohort carrying the era of the cohort, as
    [useBubbleData] makes them, the scatter plot has one dataset per
    cohort that has a row with a positive revenue and a positive market
    cap, in the order dot-com, Big Tech, pure-play; a cohort without such
    a row has no dataset.  The points of a dataset are (ln revenue, ln
    market cap) of those rows, in row order. *)
Theorem scatterData_by_cohort (dotcom aiPure aiNiche : list (TidyRecord R)) :
  scatterData (withEra DotComEra dotcom) (withEra BigTechEra aiPure)
              (withEra PurePlayEra aiNiche)
  = cohortSet DotComEra dotcom ++ cohortSet BigTechEra aiPure
    ++ cohortSet PurePlayEra aiNiche.
Proof.
  unfold scatterData, cohortSet. rewrite !fold_left_app, !scatter_fold_era.
  destruct (positivePoints dotcom), (positivePoints aiPure), (positivePoints aiNiche);
    reflexivity.
Qed.

(* ================================================================== *)
(** * The label of an upload *)

Lemma string_length_append (a b : string) :
  String.length (a ++ b) = (String.length a + String.length b)%nat.
Proof. induction a as [|c a IH]; simpl; [reflexivity|now rewrite IH]. Qed.

Lemma substring_all (s : string) : String.substring 0 (String.length s) s = s.
Proof. induction s as [|c s IH]; simpl; [reflexivity|now rewrite IH]. Qed.

Lemma substring_prefix (a b : string) :
  String.substring 0 (String.length a) (a ++ b) = a.
Proof.
  induction a as [|c a IH]; simpl; [now destruct b|now rewrite IH].
Qed.

Lemma substring_suffix (a b : string) :
  String.substring (String.length a) (String.length b) (a ++ b) = b.
Proof.
  induction a as [|c a IH]; simpl; [apply substring_all|exact IH].
Qed.

Lemma stripCsvSuffix_ext (base ext : string) :
  String.length ext = 4%nat -> JSString.toLowerCase ext = ".csv"%string ->
  stripCsvSuffix (base ++ ext) = base.
Proof.
  intros Hlen Hext. unfold stripCsvSuffix.
  rewrite string_length_append, Hlen.
  replace (String.length base + 4 - 4)%nat with (String.length base) by lia.
  replace (String.substring (String.length base) 4 (base ++ ext)) with ext
    by (rewrite <- Hlen; symmetry; apply substring_suffix).
  rewrite Hext.
  replace (4 <=? String.length base + 4)%nat with true
    by (symmetry; apply Nat.leb_le; lia).
  cbn [andb]. rewrite String.eqb_refl. apply substring_prefix.
Qed.

(** X21. Uploading a file whose name ends in [.csv], in any letter case,
    and whose text has at least one readable row, adds one upload after
    those already there and changes nothing else: its rows are the rows
    read from the text, and its label is the name without the suffix, or
    [Upload n] when nothing is left of the name, [n] being the new number
    of uploads. *)
Theorem upload_label (st : AppState) (text base ext : string) :
  String.length ext = 4%nat -> JSString.toLowerCase ext = ".csv"%string ->
  parseCsv text <> [] ->
  handle st (UploadFile text (base ++ ext))
  = mkState (chartType st) (smooth st) (range st) (customGrowth st)
      (uploads st
       ++ [(match base with
            | EmptyString =>
                ("Upload "
                 ++ JSString.ofInt (Z.of_nat (List.length (uploads st) + 1)))%string
            | _ => base
            end, parseCsv text)]).
Proof.
  intros Hlen Hext Hrows. cbn [handle]. rewrite (stripCsvSuffix_ext base ext Hlen Hext).
  unfold addUpload. destruct (parseCsv text) as [|row rows]; [congruence|reflexivity].
Qed.

Lemma upload_label_witness :
  handle initialState (UploadFile upload_sample ("prices" ++ ".CSV"))
  = mkState "line" 2 (1996, 2025)%Z 18 [("prices"%string, parseCsv upload_sample)].
Proof.
  apply (upload_label initialState upload_sample "prices" ".CSV").
  - reflexivity.
  - reflexivity.
  - vm_compute. discriminate.
Defined.
